(** * whatsapp-ai-agent: the extraction pipeline, the transcription gate and
      the message handler of [index.js]

    A shallow embedding of [src/index.js]: the French date resolver, the
    anchor, fallback and language-model extractors, the orchestration in
    [buildAudioPayload] / [handleAudioSmart], the rate gate and retry loop
    around the transcription service, and the handler of incoming messages
    with its settings and temporary files.

    JavaScript strings are sequences of UTF-16 code units, so a string is a
    [list N].  Regular expressions are embedded as syntax trees and run by a
    backtracking matcher that enumerates the matches in the priority order
    of ECMAScript (alternatives left to right, greedy quantifiers longest
    first, lazy ones shortest first). *)

From Stdlib Require Import List NArith ZArith Bool Lia String Ascii.
Import ListNotations.

Set Implicit Arguments.

(* ===================================================================== *)
(** ** Strings as UTF-16 code units *)
(* ===================================================================== *)

Module Str.

Local Open Scope N_scope.

(** A string: its code units, each in [0 .. 0xFFFF]. *)
Definition str := list N.

Definition str_eqb (a b : str) : bool :=
  if list_eq_dec N.eq_dec a b then true else false.

(** The bytes of a source literal. *)
Fixpoint bytes (s : string) : list N :=
  match s with
  | EmptyString => []
  | String a s' => N_of_ascii a :: bytes s'
  end.

Definition cont (b : N) : N := N.land b 63.

(** Decoding of the UTF-8 bytes of a literal into UTF-16 code units; a code
    point above U+FFFF becomes a surrogate pair. *)
Fixpoint utf16 (l : list N) : str :=
  match l with
  | [] => []
  | b :: l1 =>
    if b <? 128 then b :: utf16 l1
    else if b <? 224 then
      match l1 with
      | b2 :: l2 => (N.land b 31 * 64 + cont b2) :: utf16 l2
      | [] => [b]
      end
    else if b <? 240 then
      match l1 with
      | b2 :: b3 :: l3 => (N.land b 15 * 4096 + cont b2 * 64 + cont b3) :: utf16 l3
      | _ => [b]
      end
    else
      match l1 with
      | b2 :: b3 :: b4 :: l4 =>
        let cp := N.land b 7 * 262144 + cont b2 * 4096 + cont b3 * 64 + cont b4 in
        let v := cp - 65536 in
        (55296 + v / 1024) :: (56320 + v mod 1024) :: utf16 l4
      | _ => [b]
      end
  end.

(** [js "..."] is the JavaScript string a source literal denotes. *)
Definition js (s : string) : str := utf16 (bytes s).

Definition in_range (lo hi c : N) : bool := (lo <=? c) && (c <=? hi).

(** [\d]: the ten ASCII digits. *)
Definition is_digit (c : N) : bool := in_range 48 57 c.

(** [\w]: [[A-Za-z0-9_]] (no [u] flag, so [i] adds nothing). *)
Definition is_word (c : N) : bool :=
  in_range 97 122 c || in_range 65 90 c || in_range 48 57 c || (c =? 95).

(** LineTerminator: LF, CR, LS, PS. *)
Definition is_line_terminator (c : N) : bool :=
  (c =? 10) || (c =? 13) || (c =? 8232) || (c =? 8233).

(** [\s] and the set [trim] strips: WhiteSpace (TAB, VT, FF, SP, NBSP,
    ZWNBSP and the Zs category) and LineTerminator. *)
Definition is_space (c : N) : bool :=
  in_range 9 13 c || (c =? 32) || (c =? 160) || (c =? 5760)
  || in_range 8192 8202 c || (c =? 8232) || (c =? 8233) || (c =? 8239)
  || (c =? 8287) || (c =? 12288) || (c =? 65279).

(** Simple case mappings of the Basic Latin and Latin-1 Supplement blocks.
    In these blocks the lower-case letters are a-z and U+00E0-U+00FE
    without the division sign, each 32 above its capital; U+00B5, U+00DF and
    U+00FF have no capital inside the blocks and are left alone. *)
Definition is_upper_latin (c : N) : bool :=
  in_range 65 90 c || (in_range 192 222 c && negb (c =? 215)).
Definition is_lower_latin (c : N) : bool :=
  in_range 97 122 c || (in_range 224 254 c && negb (c =? 247)).
Definition lower_unit (c : N) : N := if is_upper_latin c then c + 32 else c.
Definition upper_unit (c : N) : N := if is_lower_latin c then c - 32 else c.

(** [String.prototype.includes], [startsWith]. *)
Fixpoint startsWith (s p : str) : bool :=
  match p, s with
  | [], _ => true
  | a :: p', b :: s' => (a =? b) && startsWith s' p'
  | _ :: _, [] => false
  end.

Fixpoint includes (s p : str) : bool :=
  startsWith s p ||
  match s with
  | [] => false
  | _ :: s' => includes s' p
  end.

(** [String.prototype.trim]. *)
Fixpoint trimStart (s : str) : str :=
  match s with
  | c :: s' => if is_space c then trimStart s' else s
  | [] => []
  end.
Definition trimEnd (s : str) : str := rev (trimStart (rev s)).
Definition trim (s : str) : str := trimEnd (trimStart s).

(** [s.split(sep)] for a separator of one code unit. *)
Fixpoint split (sep : N) (s : str) : list str :=
  match s with
  | [] => [[]]
  | c :: s' =>
    if c =? sep then [] :: split sep s'
    else match split sep s' with
         | p :: ps => (c :: p) :: ps
         | [] => [[c]]
         end
  end.

(** [s.padStart(n, '0')]. *)
Definition padStart0 (n : nat) (s : str) : str :=
  repeat 48 (n - List.length s) ++ s.

End Str.

Import Str.

(* ===================================================================== *)
(** ** Regular expressions *)
(* ===================================================================== *)

Module Regex.

Local Open Scope N_scope.

(** A member of a character class. *)
Inductive item : Type :=
| ILit (c : N)           (* a literal code unit *)
| IRange (lo hi : N)     (* lo-hi inside brackets *)
| IDigit                 (* \d *)
| ISpace                 (* \s *)
| IWord                  (* \w *)
| IDot.                  (* . : anything but a line terminator *)

(** The patterns of the program.  A quantifier applies to one code unit of
    a class: that is the only use the source makes of quantifiers (the
    group of [gs(?:b)?] holds the single unit b). *)
Inductive regex : Type :=
| Empty
| Class (cs : list item)
| Cat (r1 r2 : regex)
| Or (r1 r2 : regex)
| Quant (cs : list item) (lo : nat) (hi : option nat) (greedy : bool)
| Group (n : nat) (r : regex)
| WordB                  (* \b *)
| Bos                    (* ^, no m flag *)
| Eos.                   (* $, no m flag *)

(** Canonicalize of ES2023 22.2.5.6 without the [u] flag: the upper case of
    the unit under the [i] flag.  It is written for the Basic Latin and
    Latin-1 Supplement blocks; no unit outside them canonicalizes to a
    letter of them (a non-ASCII unit whose upper case is ASCII is kept by
    the standard, and U+00C0-U+00DE are the upper case of U+00E0-U+00FE only),
    and every literal letter of the program's patterns lies inside. *)
Definition canonicalize (ic : bool) (c : N) : N :=
  if ic then upper_unit c else c.

Definition item_match (ic : bool) (it : item) (c : N) : bool :=
  match it with
  | ILit a => canonicalize ic a =? canonicalize ic c
  | IRange lo hi =>
    in_range lo hi c || (ic && (in_range lo hi (upper_unit c) || in_range lo hi (lower_unit c)))
  | IDigit => is_digit c
  | ISpace => is_space c
  | IWord => is_word c
  | IDot => negb (is_line_terminator c)
  end.

Definition class_match (ic : bool) (cs : list item) (c : N) : bool :=
  existsb (fun it => item_match ic it c) cs.

(** Numbered captures, the latest binding first. *)
Definition captures := list (nat * str).

Fixpoint capture (n : nat) (cs : captures) : option str :=
  match cs with
  | [] => None
  | (k, w) :: cs' => if Nat.eqb k n then Some w else capture n cs'
  end.

(** One way of matching: the units consumed, the input left, the captures
    set on the way. *)
Definition way : Type := str * str * captures.

(** The unit before the position reached after consuming [w]. *)
Fixpoint after (prev : option N) (w : str) : option N :=
  match w with
  | [] => prev
  | c :: w' => after (Some c) w'
  end.

Definition word_at (o : option N) : bool :=
  match o with Some c => is_word c | None => false end.

Definition allows (hi : option nat) : bool :=
  match hi with Some O => false | _ => true end.
Definition less (hi : option nat) : option nat :=
  match hi with Some n => Some (pred n) | None => None end.

(** The runs of units of a class at the head of the input, at most [hi]
    long, shortest first. *)
Fixpoint runs (p : N -> bool) (hi : option nat) (rest : str) : list (str * str) :=
  ([], rest) ::
  match rest with
  | c :: rest' =>
    if p c && allows hi
    then map (fun wr => (c :: fst wr, snd wr)) (runs p (less hi) rest')
    else []
  | [] => []
  end.

Definition long_enough (lo : nat) (wr : str * str) : bool :=
  Nat.leb lo (List.length (fst wr)).

(** All the ways [r] matches at the head of [rest], [prev] being the unit
    before it, in the order a backtracking matcher tries them. *)
Fixpoint ways (ic : bool) (r : regex) (prev : option N) (rest : str) : list way :=
  match r with
  | Empty => [([], rest, [])]
  | Class cs =>
    match rest with
    | c :: rest' => if class_match ic cs c then [([c], rest', [])] else []
    | [] => []
    end
  | Cat r1 r2 =>
    flat_map
      (fun w1 : way =>
         let '(u1, rest1, c1) := w1 in
         map (fun w2 : way => let '(u2, rest2, c2) := w2 in (u1 ++ u2, rest2, c2 ++ c1))
             (ways ic r2 (after prev u1) rest1))
      (ways ic r1 prev rest)
  | Or r1 r2 => ways ic r1 prev rest ++ ways ic r2 prev rest
  | Quant cs lo hi greedy =>
    let l := filter (long_enough lo) (runs (class_match ic cs) hi rest) in
    map (fun wr => (fst wr, snd wr, [])) (if greedy then rev l else l)
  | Group n r1 =>
    map (fun w1 : way => let '(u, rest1, c) := w1 in (u, rest1, (n, u) :: c))
        (ways ic r1 prev rest)
  | WordB =>
    if xorb (word_at prev) (word_at (hd_error rest)) then [([], rest, [])] else []
  | Bos => match prev with None => [([], rest, [])] | Some _ => [] end
  | Eos => match rest with [] => [([], rest, [])] | _ :: _ => [] end
  end.

(** The result of [RegExp.prototype.exec]: the index, the match, the captures. *)
Record found : Type := Found { index : nat; whole : str; groups : captures }.

(** [m[n]] for [n >= 1]; [None] is [undefined]. *)
Definition group (m : found) (n : nat) : option str := capture n (groups m).

(** The search of [exec] from the position whose index is [i]: the first
    way at the leftmost position that has one. *)
Fixpoint search (ic : bool) (r : regex) (prev : option N) (rest : str) (i : nat) : option found :=
  match ways ic r prev rest with
  | (u, _, c) :: _ => Some (Found i u c)
  | [] =>
    match rest with
    | [] => None
    | ch :: rest' => search ic r (Some ch) rest' (S i)
    end
  end.

(** [s.match(re)] for a pattern without the [g] flag, and [re.test(s)]. *)
Definition exec (ic : bool) (r : regex) (s : str) : option found := search ic r None s 0.
Definition test (ic : bool) (r : regex) (s : str) : bool :=
  match exec ic r s with Some _ => true | None => false end.

(** [s.replace(re, by)] for a pattern with the [g] flag and a replacement
    without [$]: [skip] counts the units of the current match still to drop.
    After an empty match the unit at the position is copied and the search
    resumes one unit further. *)
Fixpoint replace_from (ic : bool) (r : regex) (by_ : str) (prev : option N) (rest : str)
         (skip : nat) : str :=
  match skip, rest with
  | S k, c :: rest' => replace_from ic r by_ (Some c) rest' k
  | S _, [] => []
  | O, _ =>
    match ways ic r prev rest, rest with
    | (u, _, _) :: _, c :: rest' =>
      match u with
      | [] => by_ ++ c :: replace_from ic r by_ (Some c) rest' 0
      | _ :: u' => by_ ++ replace_from ic r by_ (Some c) rest' (List.length u')
      end
    | (_, _, _) :: _, [] => by_
    | [], c :: rest' => c :: replace_from ic r by_ (Some c) rest' 0
    | [], [] => []
    end
  end.

Definition replace_all (ic : bool) (r : regex) (by_ : str) (s : str) : str :=
  replace_from ic r by_ None s 0.

(** [s.match(re)] for a pattern with the [g] flag: the matched strings, in
    order ([[]] stands for the [null] of no match). *)
Fixpoint match_from (ic : bool) (r : regex) (prev : option N) (rest : str) (skip : nat)
  : list str :=
  match skip, rest with
  | S k, c :: rest' => match_from ic r (Some c) rest' k
  | S _, [] => []
  | O, _ =>
    match ways ic r prev rest, rest with
    | (u, _, _) :: _, c :: rest' => u :: match_from ic r (Some c) rest' (pred (List.length u))
    | (u, _, _) :: _, [] => [u]
    | [], c :: rest' => match_from ic r (Some c) rest' 0
    | [], [] => []
    end
  end.

Definition match_all (ic : bool) (r : regex) (s : str) : list str := match_from ic r None s 0.

(** *** Pattern syntax *)

Definition chr (c : N) : regex := Class [ILit c].

(** A literal word. *)
Fixpoint lit_units (l : str) : regex :=
  match l with
  | [] => Empty
  | [c] => chr c
  | c :: l' => Cat (chr c) (lit_units l')
  end.
Definition lit (s : string) : regex := lit_units (js s).

(** The units of a bracket expression written as a literal. *)
Definition units (s : string) : list item := map ILit (js s).

Fixpoint cat (l : list regex) : regex :=
  match l with
  | [] => Empty
  | [r] => r
  | r :: l' => Cat r (cat l')
  end.

Fixpoint alt (l : list regex) : regex :=
  match l with
  | [] => Empty
  | [r] => r
  | r :: l' => Or r (alt l')
  end.

Definition star (cs : list item) : regex := Quant cs 0 None true.        (* x* *)
Definition plus (cs : list item) : regex := Quant cs 1 None true.        (* x+ *)
Definition plus_lazy (cs : list item) : regex := Quant cs 1 None false.  (* x+? *)
Definition opt (cs : list item) : regex := Quant cs 0 (Some 1%nat) true. (* x? *)
Definition between (cs : list item) (lo hi : nat) : regex := Quant cs lo (Some hi) true. (* x{lo,hi} *)

End Regex.

Import Regex.

(* ===================================================================== *)
(** ** The JavaScript runtime *)
(* ===================================================================== *)

Module Js.

Local Open Scope N_scope.

(** A unit that NFKC leaves alone wherever it stands among its like: Basic
    Latin and the precomposed letters U+00C0-U+00FF. *)
Definition is_plain (c : N) : bool := (c <? 128) || in_range 192 255 c.

(** [String.prototype.toLowerCase] and [normalize('NFKC')] follow the
    Unicode tables; the development depends on them through two facts only:
    on Latin-1 text lower-casing is the unit-wise simple mapping, and plain
    text is already in NFKC. *)
Class Runtime : Type := {
  toLowerCase : str -> str;
  normalizeNFKC : str -> str;
  toLowerCase_latin1 :
    forall s, forallb (fun c => c <? 256) s = true -> toLowerCase s = map lower_unit s;
  normalizeNFKC_plain :
    forall s, forallb is_plain s = true -> normalizeNFKC s = s
}.

(** The runtime restricted to what the two facts fix. *)
Definition latin1 : Runtime :=
  {| toLowerCase := map lower_unit;
     normalizeNFKC := fun s => s;
     toLowerCase_latin1 := fun s _ => eq_refl;
     normalizeNFKC_plain := fun s _ => eq_refl |}.

(** Completions: a value, or a thrown [TypeError]. *)
Inductive completion (A : Type) : Type :=
| Normal (a : A)
| Throw.
Arguments Throw {A}.

Definition bind {A B : Type} (c : completion A) (k : A -> completion B) : completion B :=
  match c with
  | Normal a => k a
  | Throw => Throw
  end.

(** The values that reach [pad2] and the date template: [undefined], [NaN],
    an integer, a built-in function inherited from [Object.prototype] (by
    name), or [Object.prototype] itself. *)
Inductive value : Type :=
| Undefined
| NaN
| Int (z : Z)
| NativeFunction (name : str)
| ObjectPrototype.

Definition truthy (v : value) : bool :=
  match v with
  | Undefined | NaN => false
  | Int z => negb (Z.eqb z 0)
  | NativeFunction _ | ObjectPrototype => true
  end.

(** [v < k] and [v + k] for an integer [k]; a comparison with [undefined],
    [NaN] or an object is false. *)
Definition below (v : value) (k : Z) : bool :=
  match v with Int z => Z.ltb z k | _ => false end.
Definition add (v : value) (k : Z) : value :=
  match v with Int z => Int (z + k) | _ => NaN end.

Fixpoint uint_units (d : Decimal.uint) : str :=
  match d with
  | Decimal.Nil => []
  | Decimal.D0 d' => 48 :: uint_units d'
  | Decimal.D1 d' => 49 :: uint_units d'
  | Decimal.D2 d' => 50 :: uint_units d'
  | Decimal.D3 d' => 51 :: uint_units d'
  | Decimal.D4 d' => 52 :: uint_units d'
  | Decimal.D5 d' => 53 :: uint_units d'
  | Decimal.D6 d' => 54 :: uint_units d'
  | Decimal.D7 d' => 55 :: uint_units d'
  | Decimal.D8 d' => 56 :: uint_units d'
  | Decimal.D9 d' => 57 :: uint_units d'
  end.

(** Number::toString of an integer (below 10^21, where the decimal form is
    used; the program's integers have at most ten digits). *)
Definition Z_units (z : Z) : str :=
  match z with
  | Z0 => [48]
  | Zpos p => uint_units (Pos.to_uint p)
  | Zneg p => 45 :: uint_units (Pos.to_uint p)
  end.

(** [String(v)]. *)
Definition String_ (v : value) : str :=
  match v with
  | Undefined => js "undefined"
  | NaN => js "NaN"
  | Int z => Z_units z
  | NativeFunction name => js "function " ++ name ++ js "() { [native code] }"
  | ObjectPrototype => js "[object Object]"
  end.

(** The value of a run of digits. *)
Fixpoint digits_value (acc : Z) (s : str) : Z :=
  match s with
  | c :: s' => if is_digit c then digits_value (acc * 10 + Z.of_N (c - 48)) s' else acc
  | [] => acc
  end.

Definition starts_with_digit (s : str) : bool :=
  match s with c :: _ => is_digit c | [] => false end.

(** [parseInt(s, 10)]: leading white space, a sign, then the longest run of
    digits; [NaN] when there is none.  The value is exact: the runs the
    program parses (days, months, years) have at most four digits, far from
    where a double rounds. *)
Definition parseInt (s : str) : value :=
  match trimStart s with
  | 45 :: s' => if starts_with_digit s' then Int (- digits_value 0 s') else NaN
  | 43 :: s' => if starts_with_digit s' then Int (digits_value 0 s') else NaN
  | s' => if starts_with_digit s' then Int (digits_value 0 s') else NaN
  end.

(** [parseInt(x, 10)] for an [x] that may be [undefined]. *)
Definition parseInt_opt (o : option str) : value :=
  match o with Some s => parseInt s | None => NaN end.

(** [a[i]] of an array of numbers. *)
Definition at_ (a : list value) (i : nat) : value := nth i a Undefined.

(** [`${x}`] of a string or [undefined]. *)
Definition show (o : option str) : str :=
  match o with Some s => s | None => js "undefined" end.

(** [x.toLowerCase()] where [x] may be [undefined]: a method call on
    [undefined] throws. *)
Definition toLowerCase_of {R : Runtime} (o : option str) : completion str :=
  match o with Some s => Normal (toLowerCase s) | None => Throw end.

(** A string in a condition: the empty string and [null] are false. *)
Definition present (o : option str) : bool :=
  match o with Some (_ :: _) => true | _ => false end.

End Js.

Import Js.

Notation "x <- c ;; k" := (bind c (fun x => k))
  (at level 61, c at next level, right associativity).

(* ===================================================================== *)
(** ** Section 6 of [index.js]: dates, anchors, fallback *)
(* ===================================================================== *)

(** *** The patterns, in the order of the source *)

Definition d_ : list item := [IDigit].
Definition s_ : list item := [ISpace].
Definition digits (n : nat) : regex := Quant d_ n (Some n) true.   (* \d{n} *)
Definition slash_or_dash : regex := Class (units "/-").            (* [\/-] *)

(** [/\s+/g] *)
Definition RE_SPACES : regex := plus s_.
(** [/\sle\s+/g] *)
Definition RE_LE : regex := cat [Class s_; lit "le"; plus s_].
(** [/^\d{4}-\d{2}-\d{2}$/] *)
Definition RE_ISO : regex := cat [Bos; digits 4; lit "-"; digits 2; lit "-"; digits 2; Eos].
(** [/^\d{1,2}[\/-]\d{1,2}[\/-]\d{2,4}$/] *)
Definition RE_DMY : regex :=
  cat [Bos; between d_ 1 2; slash_or_dash; between d_ 1 2; slash_or_dash; between d_ 2 4; Eos].
(** [[a-zéûôîùàâç]] *)
Definition month_letter : list item := IRange 97 122 :: units "éûôîùàâç".
(** [/\b(1er|premier|\d{1,2})\s+([a-zéûôîùàâç]+)\s+(\d{4})\b/i] *)
Definition RE_TEXTUAL : regex :=
  cat [WordB; Group 1 (alt [lit "1er"; lit "premier"; between d_ 1 2]); plus s_;
       Group 2 (plus month_letter); plus s_; Group 3 (digits 4); WordB].
(** [/\bles\s+(entr[ée]es?|sorties?|stock)\b/i] *)
Definition RE_INTENT : regex :=
  cat [WordB; lit "les"; plus s_;
       Group 1 (alt [cat [lit "entr"; Class (units "ée"); lit "e"; opt (units "s")];
                     cat [lit "sortie"; opt (units "s")];
                     lit "stock"]);
       WordB].
(** [/\bde\s+((?:gsb|gab|gl|gs)\s*-?\s*\d{1,5})\b/i] *)
Definition RE_DE_GAINE : regex :=
  cat [WordB; lit "de"; plus s_;
       Group 1 (cat [alt [lit "gsb"; lit "gab"; lit "gl"; lit "gs"];
                     star s_; opt (units "-"); star s_; between d_ 1 5]);
       WordB].
(** [/\bdu\s+(.+?)\s+au\s+(.+?)\b/i] *)
Definition RE_DU_AU : regex :=
  cat [WordB; lit "du"; plus s_; Group 1 (plus_lazy [IDot]); plus s_; lit "au"; plus s_;
       Group 2 (plus_lazy [IDot]); WordB].
(** [/\ble\s+(.+?)$/i] *)
Definition RE_LE_DATE : regex :=
  cat [WordB; lit "le"; plus s_; Group 1 (plus_lazy [IDot]); Eos].
(** [/\b(gs(?:b)?|gab|gl|gs)\s*-?\s*(\d{1,5})\b/i] *)
Definition RE_GAINE : regex :=
  cat [WordB; Group 1 (alt [cat [lit "gs"; opt (units "b")]; lit "gab"; lit "gl"; lit "gs"]);
       star s_; opt (units "-"); star s_; Group 2 (between d_ 1 5); WordB].
(** [/\b(\d{4}-\d{2}-\d{2}|\d{1,2}[\/-]\d{1,2}[\/-]\d{2,4})\b/g] *)
Definition DATE_TOKEN_RE : regex :=
  cat [WordB;
       Group 1 (alt [cat [digits 4; lit "-"; digits 2; lit "-"; digits 2];
                     cat [between d_ 1 2; slash_or_dash; between d_ 1 2; slash_or_dash;
                          between d_ 2 4]]);
       WordB].
(** [/[\s\-]/g] *)
Definition RE_SPACE_DASH : regex := Class (ISpace :: units "-").
(** [/\s|-/g] *)
Definition RE_SPACE_OR_DASH : regex := Or (Class s_) (lit "-").
(** [/^(gsb|gab|gl|gs)(\d{1,5})$/] *)
Definition RE_GAINE_VALUE : regex :=
  cat [Bos; Group 1 (alt [lit "gsb"; lit "gab"; lit "gl"; lit "gs"]); Group 2 (between d_ 1 5); Eos].
(** [/rate|quota/i] *)
Definition RE_RATE : regex := Or (lit "rate") (lit "quota").

(** *** The data model *)

Inductive Intent : Type := entrees | sorties | stock.

Definition intent_name (i : Intent) : str :=
  match i with
  | entrees => js "entrees"
  | sorties => js "sorties"
  | stock => js "stock"
  end.

(** [{ type: 'prefix', value }] *)
Record Gaine : Type := { type : str; value_ : str }.

(** [{}], [{ date }] or [{ from, to }]. *)
Inductive Time : Type :=
| NoTime
| OnDate (date : str)
| FromTo (from to : str).

(** [{ intent, gaine, time }], [null] fields as [None]. *)
Record Query : Type := { intent : option Intent; gaine : option Gaine; time : Time }.

(** [FR_MONTHS]: its own properties. *)
Definition FR_MONTHS : list (str * Z) :=
  [(js "janvier", 1); (js "fevrier", 2); (js "février", 2); (js "mars", 3); (js "avril", 4);
   (js "mai", 5); (js "juin", 6); (js "juillet", 7); (js "aout", 8); (js "août", 8);
   (js "septembre", 9); (js "octobre", 10); (js "novembre", 11); (js "decembre", 12);
   (js "décembre", 12)]%Z.

Fixpoint own (k : str) (o : list (str * Z)) : option Z :=
  match o with
  | [] => None
  | (k', v) :: o' => if str_eqb k' k then Some v else own k o'
  end.

(** The properties an object literal inherits from [Object.prototype]. *)
Definition Object_prototype (k : str) : value :=
  if str_eqb k (js "constructor") then NativeFunction (js "Object")
  else if str_eqb k (js "__proto__") then ObjectPrototype
  else if existsb (str_eqb k)
            (map js ["hasOwnProperty"; "isPrototypeOf"; "propertyIsEnumerable";
                     "toLocaleString"; "toString"; "valueOf"; "__defineGetter__";
                     "__defineSetter__"; "__lookupGetter__"; "__lookupSetter__"]%string)
       then NativeFunction k
  else Undefined.

(** [FR_MONTHS[k]]: an own property, else the prototype's. *)
Definition FR_MONTHS_at (k : str) : value :=
  match own k FR_MONTHS with
  | Some n => Int n
  | None => Object_prototype k
  end.

(** [pad2 = n => String(n).padStart(2,'0')] *)
Definition pad2 (n : value) : str := padStart0 2 (String_ n).

(** [`${y}-${pad2(m)}-${pad2(d)}`] *)
Definition ymd (y m d : value) : str :=
  String_ y ++ js "-" ++ pad2 m ++ js "-" ++ pad2 d.

(** The numeric branch of [parseFrenchDatePhrase] (lines 149-152):
    [sep = s.includes('/') ? '/' : '-'; [d,m,y] = s.split(sep).map(v => parseInt(v,10));
     if (y < 100) y += 2000; return `${y}-${pad2(m)}-${pad2(d)}`]. *)
Definition numeric_date (s : str) : str :=
  let sep := if includes s (js "/") then 47%N else 45%N in
  let a := map parseInt (split sep s) in
  let d := at_ a 0 in
  let m := at_ a 1 in
  let y := at_ a 2 in
  let y := if below y 100 then add y 2000 else y in
  ymd y m d.

(** The conversion [extractTime] writes out again for its first token (lines
    232-235): the separator is the slash if the token has one, the parts are
    parsed as integers, a year under 100 is moved into the 2000s. *)
Definition token_date (s : str) : str :=
  let sep := if includes s (js "/") then 47%N else 45%N in
  match map parseInt (split sep s) with
  | d :: m :: y :: _ => ymd (if below y 100 then add y 2000 else y) m d
  | [d; m] => ymd Undefined m d
  | [d] => ymd Undefined Undefined d
  | [] => ymd Undefined Undefined Undefined
  end.

Section Extraction.

Context {R : Runtime}.

(** [normKeepAccents] on a string [s]. *)
Definition normKeepAccents (s : str) : str :=
  trim (replace_all false RE_SPACES (js " ") (normalizeNFKC (toLowerCase s))).

(** [normKeepAccents(fr).replace(/\sle\s+/g,' ').trim()], the string the
    three forms are tried on. *)
Definition cleaned (s0 : str) : str :=
  trim (replace_all false RE_LE (js " ") (normKeepAccents s0)).

(** [parseFrenchDatePhrase] after its guard, [s0] being [String(fr)]. *)
Definition parseFrenchDatePhrase_of (s0 : str) : completion (option str) :=
  let s := cleaned s0 in
  if test false RE_ISO s then Normal (Some s)
  else if test false RE_DMY s then Normal (Some (numeric_date s))
  else
    match exec true RE_TEXTUAL s with
    | Some m =>
      d <- toLowerCase_of (group m 1) ;;
      let d := if str_eqb d (js "1er") || str_eqb d (js "premier") then js "1" else d in
      k <- toLowerCase_of (group m 2) ;;
      let mo := FR_MONTHS_at k in
      let y := parseInt_opt (group m 3) in
      if truthy mo then Normal (Some (ymd y mo (parseInt d))) else Normal None
    | None => Normal None
    end.

(** [parseFrenchDatePhrase(fr)] for a string [fr]. *)
Definition parseFrenchDatePhrase (fr : str) : completion (option str) :=
  match fr with
  | [] => Normal None
  | _ :: _ => parseFrenchDatePhrase_of fr
  end.

(** [parseFrenchDatePhrase(x)] for a capture [x], [undefined] when its group
    took no part. *)
Definition parseFrenchDatePhrase_opt (o : option str) : completion (option str) :=
  match o with
  | Some fr => parseFrenchDatePhrase fr
  | None => Normal None
  end.

(** The three anchors of [extractByAnchors], each on the normalized text [t]. *)

(** intent after "les" *)
Definition anchor_intent (t : str) : completion (option Intent) :=
  match exec true RE_INTENT t with
  | Some intentM =>
    kw <- toLowerCase_of (group intentM 1) ;;
    Normal (Some (if startsWith kw (js "entr") then entrees
                  else if startsWith kw (js "sort") then sorties
                  else stock))
  | None => Normal None
  end.

(** gaine after "de" *)
Definition anchor_gaine (t : str) : completion (option Gaine) :=
  match exec true RE_DE_GAINE t with
  | Some gaineM =>
    low <- toLowerCase_of (group gaineM 1) ;;
    Normal (Some {| type := js "prefix";
                    value_ := replace_all false RE_SPACE_DASH [] low |})
  | None => Normal None
  end.

(** time: "du X au Y" OR "le X" *)
Definition anchor_time (t : str) : completion Time :=
  match exec true RE_DU_AU t with
  | Some rangeM =>
    d1 <- parseFrenchDatePhrase_opt (group rangeM 1) ;;
    d2 <- parseFrenchDatePhrase_opt (group rangeM 2) ;;
    Normal (if present d1 && present d2 then FromTo (show d1) (show d2) else NoTime)
  | None =>
    match exec true RE_LE_DATE t with
    | Some singleM =>
      d <- parseFrenchDatePhrase_opt (group singleM 1) ;;
      Normal (if present d then OnDate (show d) else NoTime)
    | None => Normal NoTime
    end
  end.

Definition extractByAnchors (text : str) : completion (option Query) :=
  let t := normKeepAccents text in
  intent <- anchor_intent t ;;
  gaine <- anchor_gaine t ;;
  time <- anchor_time t ;;
  match intent, gaine with
  | Some _, Some _ => Normal (Some {| intent := intent; gaine := gaine; time := time |})
  | _, _ => Normal None
  end.

Definition detectIntent (t : str) : option Intent :=
  let low := normKeepAccents t in
  if includes low (js "entr") then Some entrees
  else if includes low (js "sort") then Some sorties
  else if includes low (js "stock") then Some stock
  else None.

Definition extractGaine (t : str) : completion (option Gaine) :=
  match exec true RE_GAINE t with
  | Some m =>
    p <- toLowerCase_of (group m 1) ;;
    Normal (Some {| type := js "prefix"; value_ := p ++ show (group m 2) |})
  | None => Normal None
  end.

Definition extractTime (t : str) : completion Time :=
  d <-
    match exec true RE_TEXTUAL t with
    | Some singleM => parseFrenchDatePhrase (whole singleM)
    | None => Normal None
    end ;;
  if present d then Normal (OnDate (show d))
  else
    match match_all false DATE_TOKEN_RE t with
    | s :: _ =>
      if test false RE_DMY s then Normal (OnDate (token_date s))
      else Normal (OnDate s)
    | [] => Normal NoTime
    end.

End Extraction.

(* ===================================================================== *)
(** ** Sections 6-7 of [index.js]: the normalizers and the language-model pass *)
(* ===================================================================== *)

(** The values [JSON.parse] builds.  A number is kept by the two things the
    program observes of it: its [String()] form and whether it is non-zero. *)
#[warnings="-register-all"]
Inductive json : Type :=
| JNull
| JBool (b : bool)
| JNumber (text : str) (nonzero : bool)
| JString (s : str)
| JArray (elements : list json)
| JObject (fields : list (str * json)).

(** A value in a condition. *)
Definition truthy_json (v : json) : bool :=
  match v with
  | JNull => false
  | JBool b => b
  | JNumber _ nz => nz
  | JString s => match s with [] => false | _ :: _ => true end
  | JArray _ | JObject _ => true
  end.

(** [undefined] is [None]. *)
Definition truthy_opt (o : option json) : bool :=
  match o with Some v => truthy_json v | None => false end.

(** [a || b] *)
Definition or_else (a b : option json) : option json := if truthy_opt a then a else b.

(** An own property of a parsed object: a key written twice keeps its last value. *)
Fixpoint field (k : str) (fs : list (str * json)) : option json :=
  match fs with
  | [] => None
  | (k', v) :: fs' =>
    match field k fs' with
    | Some v' => Some v'
    | None => if str_eqb k' k then Some v else None
    end
  end.

(** [o?.k] for the property names the program reads ([intent], [gaine],
    [value], [time], [date], [single], [from], [to]): no prototype of a parsed
    value defines any of them, so only an object's own fields answer. *)
Definition prop_opt (o : option json) (k : str) : option json :=
  match o with
  | Some (JObject fs) => field k fs
  | _ => None
  end.

(** [o.k]: reading a property of [null] throws. *)
Definition prop (o : json) (k : str) : completion (option json) :=
  match o with
  | JNull => Throw
  | _ => Normal (prop_opt (Some o) k)
  end.

(** [String(v)].  An array joins its elements with commas, [null] elements as
    empty strings.  An object answers [[object Object]] through
    [Object.prototype.toString], unless it has a field [toString] of its own:
    that field is no function, [valueOf] returns no primitive, and the
    conversion throws. *)
Fixpoint ToString (v : json) : completion str :=
  match v with
  | JNull => Normal (js "null")
  | JBool true => Normal (js "true")
  | JBool false => Normal (js "false")
  | JNumber t _ => Normal t
  | JString s => Normal s
  | JArray l =>
    (fix join (l : list json) : completion str :=
       match l with
       | [] => Normal []
       | x :: l' =>
         a <- match x with JNull => Normal [] | _ => ToString x end ;;
         match l' with
         | [] => Normal a
         | _ :: _ => b <- join l' ;; Normal (a ++ js "," ++ b)
         end
       end) l
  | JObject fs =>
    match field (js "toString") fs with
    | Some _ => Throw
    | None => Normal (js "[object Object]")
    end
  end.

Definition is_object (v : json) : bool :=
  match v with JNull | JArray _ | JObject _ => true | _ => false end.

Section Normalizers.

Context {R : Runtime}.

(** [parseFrenchDatePhrase(x)] for a parsed value [x]: the guard, then
    [String(x)] inside [normKeepAccents]. *)
Definition parseFrenchDatePhrase_any (x : option json) : completion (option str) :=
  match x with
  | Some v =>
    if truthy_json v then s0 <- ToString v ;; parseFrenchDatePhrase_of s0 else Normal None
  | None => Normal None
  end.

Definition normalizeGaineValue (v : option json) : completion (option str) :=
  match v with
  | Some x =>
    if truthy_json x then
      s0 <- ToString x ;;
      let s := replace_all false RE_SPACE_OR_DASH [] (toLowerCase s0) in
      match exec false RE_GAINE_VALUE s with
      | Some m => Normal (Some (show (group m 1) ++ show (group m 2)))
      | None => Normal None
      end
    else Normal None
  | None => Normal None
  end.

Definition normalizeIntent (i : option json) : completion (option Intent) :=
  match i with
  | Some x =>
    if truthy_json x then
      s0 <- ToString x ;;
      let t := toLowerCase s0 in
      if startsWith t (js "entr") then Normal (Some entrees)
      else if startsWith t (js "sort") then Normal (Some sorties)
      else if startsWith t (js "stock") then Normal (Some stock)
      else Normal None
    else Normal None
  | None => Normal None
  end.

Definition normalizeTime (t : json) : completion Time :=
  if negb (truthy_json t) || negb (is_object t) then Normal NoTime
  else
    let single := or_else (prop_opt (Some t) (js "date")) (prop_opt (Some t) (js "single")) in
    if truthy_opt single then
      iso1 <- parseFrenchDatePhrase_any single ;;
      iso <- (if present iso1 then Normal iso1
              else s0 <- match single with Some v => ToString v | None => Normal [] end ;;
                   parseFrenchDatePhrase s0) ;;
      Normal (if present iso then OnDate (show iso) else NoTime)
    else
      let from := prop_opt (Some t) (js "from") in
      let to := prop_opt (Some t) (js "to") in
      if truthy_opt from && truthy_opt to then
        f <- parseFrenchDatePhrase_any from ;;
        to' <- parseFrenchDatePhrase_any to ;;
        Normal (if present f && present to' then FromTo (show f) (show to') else NoTime)
      else Normal NoTime.

End Normalizers.

(** What the chat completion request comes back with: a rejection, or
    [chat.choices?.[0]?.message?.content]. *)
Inductive chat_result : Type :=
| ChatRejects
| ChatContent (content : option str).

(** What [axios.post] to the router comes back with: a failure (a rejection
    or a reply that cannot be made a string), or the string
    [(res?.data?.reply || '').toString()]. *)
Inductive post_result : Type :=
| PostFails
| PostReplies (reply : str).

(** [{ mode, phone, intent, gaine, time }] *)
Record Payload : Type := { mode : str; phone : str; query : Query }.

(** The process environment and the services around the core. *)
Record Services : Type := {
  USE_LLM_ANCHORS : bool;
  chat : str -> chat_result;
  JSON_parse : str -> option json;
  post : Payload -> post_result
}.

Section Orchestrator.

Context {R : Runtime}.
Variable sv : Services.

(** The body of the [try] of [llmAnchorsParse]. *)
Definition llmAnchorsParse_try (text : str) : completion (option Query) :=
  match chat sv text with
  | ChatRejects => Throw
  | ChatContent content =>
    let raw := option_map trim content in
    if negb (present raw) then Normal None
    else
      match JSON_parse sv (show raw) with
      | None => Normal None
      | Some obj =>
        i <- prop obj (js "intent") ;;
        intent <- normalizeIntent i ;;
        gv <- normalizeGaineValue (prop_opt (prop_opt (Some obj) (js "gaine")) (js "value")) ;;
        t <- prop obj (js "time") ;;
        time <- normalizeTime (match or_else t (Some (JObject [])) with
                               | Some v => v
                               | None => JObject []
                               end) ;;
        match intent with
        | Some _ =>
          if present gv
          then Normal (Some {| intent := intent;
                               gaine := Some {| type := js "prefix"; value_ := show gv |};
                               time := time |})
          else Normal None
        | None => Normal None
        end
      end
  end.

(** [llmAnchorsParse]: the flag, then the [try] with its [catch]. *)
Definition llmAnchorsParse (text : str) : option Query :=
  if negb (USE_LLM_ANCHORS sv) then None
  else
    match llmAnchorsParse_try text with
    | Normal q => q
    | Throw => None
    end.

(** [buildAudioPayload] and [handleAudioSmart] over the three fallback
    lookups they call. *)
Section Over.

Variable lookIntent : str -> option Intent.
Variable lookGaine : str -> completion (option Gaine).
Variable lookTime : str -> completion Time.

Definition buildAudioPayload_over (text phone : str) : completion Payload :=
  anchored <- extractByAnchors text ;;
  match anchored with
  | Some a =>
    Normal {| mode := js "audio_nlp"; phone := phone;
              query := {| intent := intent a; gaine := gaine a; time := time a |} |}
  | None =>
    let i := lookIntent text in
    g <- lookGaine text ;;
    t <- lookTime text ;;
    Normal {| mode := js "audio_nlp"; phone := phone;
              query := {| intent := i; gaine := g; time := t |} |}
  end.

(** The payload [handleAudioSmart] settles on. *)
Definition resolve_over (text phone : str) : completion Payload :=
  match (if USE_LLM_ANCHORS sv then llmAnchorsParse text else None) with
  | Some llm =>
    Normal {| mode := js "audio_nlp"; phone := phone;
              query := {| intent := intent llm; gaine := gaine llm; time := time llm |} |}
  | None => buildAudioPayload_over text phone
  end.

End Over.

Definition buildAudioPayload : str -> str -> completion Payload :=
  buildAudioPayload_over detectIntent extractGaine extractTime.

Definition resolve : str -> str -> completion Payload :=
  resolve_over detectIntent extractGaine extractTime.

(** The fixed replies of [handleAudioSmart]. *)
Definition ASK_INTENT : str :=
  js "🎯 حدّد واش بغيتي *Entrées* ولا *Sorties* ولا *Stock* (مثال: «les sorties de gsb11 le 01-10-2025»).".
Definition ASK_GAINE : str :=
  js "🧵 عطيني الڭاين بهاذ الشكل: *gsb11* / *gab22* / *gl90* (غير أرقام بعد البادئة).".
Definition NO_CLEAR_REPLY : str := js "🤖 ماجات حتى استجابة واضحة من السيرفر.".
Definition SERVER_TROUBLE : str := js "⚠️ كاين عطب مؤقت فالسيرفر. جرّب من بعد عفاك.".

(** What a call of [handleAudioSmart] does: the payloads it posts to the
    router, and the reply it returns. *)
Record Handled : Type := { posted : list Payload; reply : str }.

(** [handleAudioSmart] from the payload on. *)
Definition answer (payload : Payload) : Handled :=
  match intent (query payload) with
  | None => {| posted := []; reply := ASK_INTENT |}
  | Some _ =>
    match gaine (query payload) with
    | None => {| posted := []; reply := ASK_GAINE |}
    | Some _ =>
      {| posted := [payload];
         reply := match post sv payload with
                  | PostReplies r =>
                    match trim r with
                    | [] => NO_CLEAR_REPLY
                    | _ :: _ => trim r
                    end
                  | PostFails => SERVER_TROUBLE
                  end |}
    end
  end.

Definition handleAudioSmart (text phone : str) : completion Handled :=
  payload <- resolve text phone ;;
  Normal (answer payload).

End Orchestrator.

(* ===================================================================== *)
(** ** Section 5 of [index.js]: the rate gate and [transcribeAudio] *)
(* ===================================================================== *)

Module Gate.

Local Open Scope Z_scope.

(** [API_MIN_INTERVAL] and [MAX_RETRIES]: [parseInt] of an environment
    string, an integer or [NaN].  ([Infinity], which [parseInt] returns for
    more than 308 digits, is left out.) *)
Record Config : Type := { API_MIN_INTERVAL : value; MAX_RETRIES : value }.

(** [a < v] and [a <= v] against a configured number; false against [NaN]. *)
Definition under (a : Z) (v : value) : bool :=
  match v with Int z => a <? z | _ => false end.
Definition upto (a : Z) (v : value) : bool :=
  match v with Int z => a <=? z | _ => false end.

(** The first half of [waitForTranscribeSlot], up to its [await]: the time
    to sleep, if any. *)
Definition slot_wait (cfg : Config) (now last : Z) : option Z :=
  let elapsed := now - last in
  match API_MIN_INTERVAL cfg with
  | Int interval => if elapsed <? interval then Some (interval - elapsed) else None
  | _ => None
  end.

(** *** One caller at a time *)

(** What a transcription request comes back with: [res.text] ([None] when
    it is missing), or a rejection with [e?.status || e?.response?.status]
    (when it is a number) and [e?.message || '']. *)
Inductive response : Type :=
| Resolves (text : option str)
| Rejects (status : option Z) (message : str).

(** The world a call runs in: the successive readings of [Date.now()], the
    successive answers of the transcription service, and the successive
    values of [Math.floor(Math.random() * 300)]. *)
Record World : Type := {
  clock : nat -> Z;
  service : nat -> response;
  jitter : nat -> Z
}.

Inductive Event : Type :=
| SlotSleep (ms : Z)       (* the sleep of waitForTranscribeSlot *)
| Request (k : nat)        (* the k-th call of the transcription service *)
| BackoffSleep (ms : Z)    (* the sleep before a retry *)
| LogRetry (attempt : nat)
| LogFinal.

(** The process state: the gate's timestamp, how much of the world has been
    consumed, and what has happened, latest first. *)
Record Machine : Type := {
  LAST_TRANSCRIBE_AT : Z;
  reads : nat;
  calls : nat;
  draws : nat;
  trace : list Event
}.

Definition start : Machine :=
  {| LAST_TRANSCRIBE_AT := 0; reads := 0; calls := 0; draws := 0; trace := [] |}.

Section Sequential.

Variable cfg : Config.
Variable w : World.

Definition waitForTranscribeSlot (m : Machine) : Machine :=
  let now := clock w (reads m) in
  let tr := match slot_wait cfg now (LAST_TRANSCRIBE_AT m) with
            | Some ms => SlotSleep ms :: trace m
            | None => trace m
            end in
  {| LAST_TRANSCRIBE_AT := clock w (S (reads m));
     reads := S (S (reads m));
     calls := calls m;
     draws := draws m;
     trace := tr |}.

(** [status === 429 || /rate|quota/i.test(message)] *)
Definition is429 (status : option Z) (message : str) : bool :=
  match status with Some 429 => true | _ => false end || test true RE_RATE message.

(** [Math.min(2000 * Math.pow(2, attempt), 8000)] *)
Definition backoff_base (attempt : nat) : Z := Z.min (2000 * 2 ^ Z.of_nat attempt) 8000.

(** The loop of [transcribeAudio]; [None] when the fuel runs out. *)
Fixpoint transcribe_loop (fuel : nat) (attempt : nat) (m : Machine) : option (str * Machine) :=
  match fuel with
  | O => None
  | S fuel' =>
    if upto (Z.of_nat attempt) (MAX_RETRIES cfg) then
      let m1 := waitForTranscribeSlot m in
      let m2 := {| LAST_TRANSCRIBE_AT := LAST_TRANSCRIBE_AT m1; reads := reads m1;
                   calls := S (calls m1); draws := draws m1;
                   trace := Request (calls m1) :: trace m1 |} in
      match service w (calls m1) with
      | Resolves text =>
        Some (match option_map trim text with Some t => t | None => [] end, m2)
      | Rejects status message =>
        if is429 status message && under (Z.of_nat attempt) (MAX_RETRIES cfg) then
          let backoff := backoff_base attempt + jitter w (draws m2) in
          transcribe_loop fuel' (S attempt)
            {| LAST_TRANSCRIBE_AT := LAST_TRANSCRIBE_AT m2; reads := reads m2;
               calls := calls m2; draws := S (draws m2);
               trace := BackoffSleep backoff :: LogRetry attempt :: trace m2 |}
        else
          Some ([], {| LAST_TRANSCRIBE_AT := LAST_TRANSCRIBE_AT m2; reads := reads m2;
                       calls := calls m2; draws := draws m2;
                       trace := LogFinal :: trace m2 |})
      end
    else Some ([], m)
  end.

(** Fuel for every iteration the loop can make. *)
Definition enough (cfg' : Config) : nat :=
  match MAX_RETRIES cfg' with
  | Int z => S (S (Z.to_nat z))
  | _ => 1
  end.

Definition transcribeAudio (m : Machine) : option (str * Machine) :=
  transcribe_loop (enough cfg) 0 m.

End Sequential.

(** *** Callers that overlap *)

(** [waitForTranscribeSlot] is asynchronous: a caller that has to wait gives
    the event loop back at its [await] and writes the timestamp when its
    timer fires.  A schedule lists what the event loop runs, each step with
    the reading of [Date.now()] during it. *)
Inductive Step : Type :=
| Call (id : nat) (now : Z)   (* caller id enters waitForTranscribeSlot *)
| Wake (id : nat) (now : Z).  (* the timer of caller id fires *)

(** The gate among several callers: the timestamp, the callers asleep with
    the time their timer is due, the grants so far (latest first), and the
    time of the last step. *)
Record Shared : Type := {
  last_at : Z;
  asleep : list (nat * Z);
  grants : list (nat * Z);
  time_ : Z
}.

Definition idle (t : Z) : Shared := {| last_at := 0; asleep := []; grants := []; time_ := t |}.

Fixpoint due (id : nat) (l : list (nat * Z)) : option Z :=
  match l with
  | [] => None
  | (k, t) :: l' => if Nat.eqb k id then Some t else due id l'
  end.

Definition without (id : nat) (l : list (nat * Z)) : list (nat * Z) :=
  filter (fun kt => negb (Nat.eqb (fst kt) id)) l.

(** One step of the event loop; [None] for a step that cannot happen (time
    running backwards, a timer firing early or twice). *)
Definition step (cfg : Config) (g : Shared) (s : Step) : option Shared :=
  match s with
  | Call id now =>
    if now <? time_ g then None
    else
      match slot_wait cfg now (last_at g) with
      | Some ms =>
        Some {| last_at := last_at g; asleep := (id, now + ms) :: asleep g;
                grants := grants g; time_ := now |}
      | None =>
        Some {| last_at := now; asleep := asleep g;
                grants := (id, now) :: grants g; time_ := now |}
      end
  | Wake id now =>
    if now <? time_ g then None
    else
      match due id (asleep g) with
      | Some t =>
        if now <? t then None
        else Some {| last_at := now; asleep := without id (asleep g);
                     grants := (id, now) :: grants g; time_ := now |}
      | None => None
      end
  end.

Fixpoint schedule (cfg : Config) (g : Shared) (l : list Step) : option Shared :=
  match l with
  | [] => Some g
  | s :: l' =>
    match step cfg g s with
    | Some g' => schedule cfg g' l'
    | None => None
    end
  end.

(** Consecutive grants are at least [d] apart (the list is latest first). *)
Fixpoint spaced (d : Z) (l : list (nat * Z)) : Prop :=
  match l with
  | (_, t2) :: (((_, t1) :: _) as l') => t1 + d <= t2 /\ spaced d l'
  | _ => True
  end.

(** No caller enters [waitForTranscribeSlot] while another is asleep in it. *)
Fixpoint one_at_a_time (cfg : Config) (g : Shared) (l : list Step) : Prop :=
  match l with
  | [] => True
  | s :: l' =>
    match s with Call _ _ => asleep g = [] | Wake _ _ => True end /\
    match step cfg g s with
    | Some g' => one_at_a_time cfg g' l'
    | None => True
    end
  end.

(** What holds between the steps of such a schedule: the grants so far are
    spaced, the timestamp is the time of the latest grant, and a caller
    asleep is due no sooner than the interval after it. *)
Definition settled (d : Z) (g : Shared) : Prop :=
  spaced d (grants g) /\
  match grants g with
  | (_, t) :: _ => t = last_at g
  | [] => True
  end /\
  (asleep g = [] \/ exists id t, asleep g = [(id, t)] /\ last_at g + d <= t).

End Gate.

(* ===================================================================== *)
(** ** Sections 2, 5 and 11 of [index.js]: the settings, the temporary files
       and the message handler *)
(* ===================================================================== *)

Module Agent.

Local Open Scope N_scope.

(** The variables of [process.env] the program reads with a default
    (lines 12-22); [None] is a variable that is not set. *)
Record Env : Type := {
  ENABLE_TTS : option str;
  FORCE_TEXT_ON_AUDIO : option str;
  API_MIN_INTERVAL_MS : option str;
  API_MAX_RETRIES : option str;
  ENABLE_LLM_ANCHORS : option str
}.

(** A destructuring default: it stands in for [undefined] only. *)
Definition or_default (v : option str) (d : string) : str :=
  match v with Some s => s | None => js d end.

(** Lines 25-27.  (Lines 28-29 read the two numbers of [Gate.Config] off
    [API_MIN_INTERVAL_MS] and [API_MAX_RETRIES] with [parseInt].) *)
Definition ENABLE_TTS_BOOL (e : Env) : bool :=
  str_eqb (or_default (ENABLE_TTS e) "false") (js "true").
Definition FORCE_TEXT_ON_AUDIO_BOOL (e : Env) : bool :=
  str_eqb (or_default (FORCE_TEXT_ON_AUDIO e) "true") (js "true").
Definition USE_LLM_ANCHORS_of (e : Env) : bool :=
  str_eqb (or_default (ENABLE_LLM_ANCHORS e) "false") (js "true").

(** What [saveTemp] meets: the reading of [Date.now()], the string
    [Math.random().toString(36).slice(2)] (digits and lower-case letters), and
    whether [fs.writeFileSync] succeeds. *)
Record Disk : Type := { now_ms : Z; random36 : str; writes : bool }.

(** [saveTemp(buffer, ext)]: the path, when the file could be written;
    [path.join] has nothing to normalize in it. *)
Definition saveTemp (d : Disk) (ext : string) : completion str :=
  let p := js "/tmp/wa-" ++ Z_units (now_ms d) ++ js "-" ++ random36 d ++ js "." ++ js ext in
  if writes d then Normal p else Throw.

(** [/\.ogg$/] *)
Definition RE_OGG : regex := cat [Class [ILit 46]; lit "ogg"; Eos].

(** [s.replace(re, by)] for a pattern without the [g] flag and a
    replacement without [$]: the first match only. *)
Definition replace_first (ic : bool) (r : regex) (by_ : str) (s : str) : str :=
  match exec ic r s with
  | Some m => firstn (index m) s ++ by_ ++ skipn (index m + List.length (whole m)) s
  | None => s
  end.

(** What the handler reads of a message. *)
Record Message : Type := {
  fromMe : bool;
  id_serialized : option str;   (* msg.id?._serialized *)
  from : str;
  body : str;                   (* msg.body || '' *)
  hasMedia : bool;
  type_ : str
}.

(** What the calls of one handling come back with. *)
Record Outside : Type := {
  getChat : completion bool;              (* chat.isGroup, or a rejection *)
  downloadMedia : completion (option str); (* media?.data when truthy, or a rejection *)
  ogg_disk : Disk;                        (* for saveTemp(buffer, 'ogg') *)
  ffmpeg : bool;                          (* ffmpegConvert resolves *)
  transcript : str;                       (* what transcribeAudio returns *)
  speech : bool;                          (* the speech request and its arrayBuffer succeed *)
  mp3_disk : Disk;                        (* for saveTemp(buffer, 'mp3') *)
  fromFilePath : bool;                    (* MessageMedia.fromFilePath returns *)
  sendMessage : bool;                     (* client.sendMessage resolves *)
  route_text : str -> str -> post_result  (* axios.post of { text, phone } *)
}.

(** What a handling does to the outside, in order.  A reply through
    [msg.reply] is always inside a [try] of its own: whether it succeeds
    changes nothing. *)
Inductive Effect : Type :=
| React (emoji : str)
| WriteTemp (path : str)
| Convert (inPath outPath : str)
| Transcribe (path : str)
| PostAudio (payload : Payload)
| PostText (text number : str)
| Synthesize (text : str)
| SendText (to text : str)
| SendVoice (to path : str)
| Reply (text : str).

Definition MICROPHONE : str := js "🎙️".
Definition SATURATED : str := js "🕒 Service de transcription saturé, réessaie dans un moment.".
Definition AUDIO_TROUBLE : str := js "⚠️ Ma3rfnach ntratw l-audio daba. 7awel melli t9dar.".
Definition ROUTER_TROUBLE : str :=
  js "🤖 Désolé, problème côté serveur. Réessaie un peu plus tard.".
Definition UNEXPECTED : str := js "🤖 Erreur inattendue.".
Definition OK_ : str := js "OK.".

(** [synthesizeTTS(text)]: the path of the speech file, or [null]. *)
Definition synthesizeTTS (o : Outside) : option str :=
  if speech o then
    match saveTemp (mp3_disk o) "mp3" with
    | Normal outPath => Some outPath
    | Throw => None
    end
  else None.

(** [processedMsgIds.has(mid)] *)
Definition has (processedMsgIds : list str) (mid : str) : bool :=
  existsb (str_eqb mid) processedMsgIds.

(** The head of the handler (lines 391-395), which runs without giving the
    event loop back: the set of identifiers after it, when the message is
    taken in. *)
Definition take_in (processedMsgIds : list str) (msg : Message) : option (list str) :=
  if fromMe msg then None
  else
    match id_serialized msg with
    | Some ((_ :: _) as mid) =>
      if has processedMsgIds mid then None else Some (mid :: processedMsgIds)
    | _ => None
    end.

(** The set of identifiers after the heads of the handlers of the messages
    of [l] have run, in the order of arrival. *)
Fixpoint deliveries (processedMsgIds : list str) (l : list Message) : list str :=
  match l with
  | [] => processedMsgIds
  | msg :: l' =>
    deliveries (match take_in processedMsgIds msg with
                | Some ids => ids
                | None => processedMsgIds
                end) l'
  end.

Section Handler.

Context {R : Runtime}.
Variable e : Env.
Variable sv : Services.

(** [msg.hasMedia && (msg.type === 'ptt' || msg.type === 'audio' || msg.type === 'voice')] *)
Definition isAudioLike (msg : Message) : bool :=
  hasMedia msg &&
  (str_eqb (type_ msg) (js "ptt") || str_eqb (type_ msg) (js "audio")
   || str_eqb (type_ msg) (js "voice")).

(** The text flow (lines 451-467); a rejection of [sendMessage] reaches the
    outer [catch]. *)
Definition text_flow (o : Outside) (from_ phone_ text : str) : list Effect :=
  match text with
  | [] => []
  | _ :: _ =>
    PostText text phone_ ::
    match route_text o text phone_ with
    | PostFails => [Reply ROUTER_TROUBLE]
    | PostReplies r =>
      let reply := match trim r with [] => OK_ | _ :: _ => trim r end in
      SendText from_ reply :: if sendMessage o then [] else [Reply UNEXPECTED]
    end
  end.

(** The inner [try] of the audio flow (lines 416-446). *)
Definition audio_flow (o : Outside) (from_ phone_ inPath outPath : str) : list Effect :=
  Convert inPath outPath ::
  if negb (ffmpeg o) then [Reply AUDIO_TROUBLE]
  else
    Transcribe outPath ::
    match transcript o with
    | [] => [Reply SATURATED]
    | _ :: _ =>
      match handleAudioSmart sv (transcript o) phone_ with
      | Throw => [Reply AUDIO_TROUBLE]
      | Normal h =>
        let smartReply := reply h in
        let sent := if sendMessage o then [] else [Reply AUDIO_TROUBLE] in
        map PostAudio (posted h) ++
        if negb (FORCE_TEXT_ON_AUDIO_BOOL e) && ENABLE_TTS_BOOL e then
          Synthesize smartReply ::
          match synthesizeTTS o with
          | Some voicePath =>
            WriteTemp voicePath ::
            if fromFilePath o then SendVoice from_ voicePath :: sent
            else [Reply AUDIO_TROUBLE]
          | None => SendText from_ smartReply :: sent
          end
        else SendText from_ smartReply :: sent
      end
    end.

(** The handler once the message is taken in, from [msg.getChat()] on. *)
Definition serve (o : Outside) (msg : Message) : list Effect :=
  match getChat o with
  | Throw => [Reply UNEXPECTED]
  | Normal true => []
  | Normal false =>
    let from_ := from msg in
    let phone_ := hd [] (split 64 from_) in
    let text := trim (body msg) in
    if isAudioLike msg then
      React MICROPHONE ::
      match downloadMedia o with
      | Throw => [Reply UNEXPECTED]
      | Normal None => text_flow o from_ phone_ text
      | Normal (Some _) =>
        match saveTemp (ogg_disk o) "ogg" with
        | Throw => [Reply UNEXPECTED]
        | Normal inPath =>
          let outPath := replace_first false RE_OGG (js ".mp3") inPath in
          WriteTemp inPath :: audio_flow o from_ phone_ inPath outPath
        end
      end
    else text_flow o from_ phone_ text
  end.

(** [client.on('message', ...)]: the set of identifiers and the effects. *)
Definition on_message (processedMsgIds : list str) (o : Outside) (msg : Message)
  : list str * list Effect :=
  match take_in processedMsgIds msg with
  | Some ids => (ids, serve o msg)
  | None => (processedMsgIds, [])
  end.

End Handler.

(** The messages sent back to the sender. *)
Definition is_answer (x : Effect) : bool :=
  match x with
  | SendText _ _ | SendVoice _ _ | Reply _ => true
  | _ => false
  end.

Definition is_speech (x : Effect) : bool :=
  match x with
  | Synthesize _ | SendVoice _ _ => true
  | _ => false
  end.

(** A voice message, a text message and what their handling meets, for the
    examples. *)
Definition a_voice_message : Message :=
  {| fromMe := false; id_serialized := Some (js "false_212600000000@c.us_3A01");
     from := js "212600000000@c.us"; body := [];
     hasMedia := true; type_ := js "ptt" |}.

Definition a_text_message : Message :=
  {| fromMe := false; id_serialized := Some (js "false_212600000000@c.us_3A02");
     from := js "212600000000@c.us"; body := js " stock gl90 ";
     hasMedia := false; type_ := js "chat" |}.

Definition an_outside (transcript : string) : Outside :=
  {| getChat := Normal false; downloadMedia := Normal (Some (js "T2dnUw=="));
     ogg_disk := {| now_ms := 1762041600000; random36 := js "k3x9"; writes := true |};
     ffmpeg := true; transcript := js transcript;
     speech := true;
     mp3_disk := {| now_ms := 1762041601000; random36 := js "q7"; writes := true |};
     fromFilePath := true; sendMessage := true;
     route_text := fun _ _ => PostReplies (js " ok ") |}.

Definition env_of (tts force : option str) : Env :=
  {| ENABLE_TTS := tts; FORCE_TEXT_ON_AUDIO := force;
     API_MIN_INTERVAL_MS := None; API_MAX_RETRIES := None; ENABLE_LLM_ANCHORS := None |}.

(** A router that answers every payload. *)
Definition a_router : Services :=
  {| USE_LLM_ANCHORS := false; chat := fun _ => ChatRejects;
     JSON_parse := fun _ => None; post := fun _ => PostReplies (js "12 entrées") |}.

End Agent.

(* ===================================================================== *)
(** ** The vocabulary of the statements *)
(* ===================================================================== *)

Local Open Scope N_scope.

(** A group that no alternative can skip. *)
Fixpoint mandatory (n : nat) (r : regex) : bool :=
  match r with
  | Group k r1 => Nat.eqb k n || mandatory n r1
  | Cat r1 r2 => mandatory n r1 || mandatory n r2
  | _ => false
  end.

(** A pattern without groups captures nothing. *)
Fixpoint groupless (r : regex) : bool :=
  match r with
  | Group _ _ => false
  | Cat r1 r2 | Or r1 r2 => groupless r1 && groupless r2
  | _ => true
  end.

(** The four prefixes of a gaine. *)
Definition GAINE_PREFIXES : list str := [js "gsb"; js "gab"; js "gl"; js "gs"].

(** [^(gsb|gab|gl|gs)\d{1,5}$], read directly: one of the lower-case
    prefixes, then one to five digits, and nothing else. *)
Definition gaine_value_ok (v : str) : Prop :=
  exists p ds,
    In p GAINE_PREFIXES /\ v = p ++ ds /\
    (1 <= List.length ds <= 5)%nat /\ forallb is_digit ds = true.

(** The same for a gaine that may be absent. *)
Definition gaine_ok (o : option Gaine) : Prop :=
  match o with
  | Some g => gaine_value_ok (value_ g)
  | None => True
  end.

(** A space that is the plain space U+0020. *)
Definition only_plain_spaces (s : str) : Prop :=
  Forall (fun ch => is_space ch = true -> ch = 32) s.

(** What [/[\s\-]/g] leaves in place. *)
Definition keeps (ch : N) : bool := negb (class_match false (ISpace :: units "-") ch).

(** The units of a numeric token: digits, slash, dash. *)
Definition token_unit (ch : N) : bool := is_digit ch || (ch =? 47) || (ch =? 45).

(** Text of Basic Latin and the Latin-1 letters. *)
Definition plain (s : str) : Prop := Forall (fun ch => is_plain ch = true) s.

(** The shape [YYYY-MM-DD] of an ISO calendar date. *)
Definition iso_shape (s : str) : bool := test false RE_ISO s.

(** What the resolver is to return: [null], or a string of the shape of an
    ISO calendar date (the bounds of the day and the month are not checked). *)
Definition null_or_date {R : Runtime} (fr : str) : Prop :=
  parseFrenchDatePhrase fr = Normal None \/
  exists r, parseFrenchDatePhrase fr = Normal (Some r) /\ iso_shape r = true.

(** A letter of the Basic Latin and Latin-1 Supplement blocks. *)
Definition is_letter (ch : N) : bool :=
  is_lower_latin ch || is_upper_latin ch || (ch =? 223) || (ch =? 255).

(** A lower-case Latin-1 letter without its accent. *)
Definition fold_accent (ch : N) : N :=
  if in_range 224 229 ch then 97
  else if ch =? 231 then 99
  else if in_range 232 235 ch then 101
  else if in_range 236 239 ch then 105
  else if ch =? 241 then 110
  else if in_range 242 246 ch then 111
  else if in_range 249 252 ch then 117
  else if (ch =? 253) || (ch =? 255) then 121
  else ch.

(** Some word of [s] starts with [stem]; [inside] tells whether the unit
    before [s] is a letter. *)
Fixpoint starts_a_word (stem : str) (inside : bool) (s : str) : bool :=
  (negb inside && startsWith s stem) ||
  match s with
  | [] => false
  | ch :: s' => starts_a_word stem (is_letter ch) s'
  end.

(** The intent lookup as the specification words it: the first stem, entr
    before sort before stock, that some word of the text starts with, case
    and accents folded. *)
Definition detectIntent_by_word_prefix {R : Runtime} (t : str) : option Intent :=
  let folded := map fold_accent (toLowerCase t) in
  if starts_a_word (js "entr") false folded then Some entrees
  else if starts_a_word (js "sort") false folded then Some sorties
  else if starts_a_word (js "stock") false folded then Some stock
  else None.

(** [stem] occurs in [s]. *)
Definition occurs (stem s : str) : Prop := exists pre post, s = pre ++ stem ++ post.

(** The payload made of a strategy's result. *)
Definition payload_of (phone : str) (q : Query) : Payload :=
  {| mode := js "audio_nlp"; phone := phone; query := q |}.

(** Units that are all of a word, or all outside words. *)
Definition of_one_kind (g : str) : Prop :=
  Forall (fun ch => is_word ch = true) g \/ Forall (fun ch => is_word ch = false) g.

(** The candidates of a lazy run before [\b], each checked for the boundary. *)
Definition bounded (prev : option N) (wr : str * str) : list (str * str) :=
  if xorb (word_at (after prev (fst wr))) (word_at (hd_error (snd wr))) then [wr] else [].

(** A month as the textual form reads it once lower-cased: one or more of
    the letters [[a-zéûôîùàâç]]. *)
Definition month_word (k : str) : bool :=
  forallb (class_match false month_letter) k && negb (Nat.eqb (List.length k) 0).

(** A day as the textual form reads it: "1er", "premier", or one or two digits. *)
Definition day_word (d : str) : Prop :=
  d = js "1er" \/ d = js "premier" \/
  (forallb is_digit d = true /\ (1 <= List.length d <= 2)%nat).

(** The two digits written for a day word. *)
Definition day_of (d : str) : str :=
  if str_eqb d (js "1er") || str_eqb d (js "premier") then js "01" else padStart0 2 d.

(** A unit that is no white space. *)
Definition no_space (ch : N) : bool := negb (is_space ch).

(** Every run of white space turned into one space U+0020; [in_run] tells
    whether the unit before was white space. *)
Fixpoint squeeze (in_run : bool) (s : str) : str :=
  match s with
  | [] => []
  | ch :: s' =>
    if is_space ch then (if in_run then squeeze true s' else 32 :: squeeze true s')
    else ch :: squeeze false s'
  end.

(** White space only as single spaces U+0020, none right after [in_run]. *)
Fixpoint squeezed (in_run : bool) (s : str) : bool :=
  match s with
  | [] => true
  | ch :: s' =>
    if is_space ch then (ch =? 32) && negb in_run && squeezed true s'
    else squeezed false s'
  end.

(** The longest run of white space at the head of a string, and what follows. *)
Fixpoint span_spaces (s : str) : str * str :=
  match s with
  | ch :: s' =>
    if is_space ch then (ch :: fst (span_spaces s'), snd (span_spaces s')) else ([], s)
  | [] => ([], [])
  end.

(** A string that does not start with white space. *)
Definition clean_head (s : str) : Prop :=
  match s with ch :: _ => is_space ch = false | [] => True end.

(** The normal form of a plain string: lower case, single spaces, no space
    at either end. *)
Definition normal_form (s : str) : str := trim (squeeze false (map lower_unit s)).

Local Close Scope N_scope.

Module Retry.

Import Gate.

Local Open Scope Z_scope.

(** The sleeps before retries, latest first. *)
Fixpoint backoffs (tr : list Event) : list Z :=
  match tr with
  | [] => []
  | BackoffSleep ms :: tr' => ms :: backoffs tr'
  | _ :: tr' => backoffs tr'
  end.

(** A failure classified as rate or quota. *)
Definition rate_limited (r : response) : bool :=
  match r with
  | Rejects status message => is429 status message
  | Resolves _ => false
  end.

(** What the last request of a call decides of its result. *)
Definition settles (r : response) (result : str) : Prop :=
  match r with
  | Resolves (Some text) => result = trim text
  | Resolves None => result = []
  | Rejects _ _ => result = []
  end.

(** The delays of the first [n] retries of a call that starts with
    [attempt] retries behind it and [d] draws of the jitter made. *)
Definition delays (w : World) (attempt d n : nat) : list Z :=
  map (fun j => backoff_base (attempt + j) + jitter w (d + j)) (seq 0 n).

(** The iterations left at [attempt]. *)
Definition left (cfg : Config) (attempt : nat) : nat :=
  match MAX_RETRIES cfg with
  | Int n => S (Z.to_nat (n - Z.of_nat attempt))
  | _ => 1
  end.

End Retry.

(* ===================================================================== *)
(** ** The matcher: what a way of matching tells *)
(* ===================================================================== *)

Module RegexFacts.

Local Open Scope N_scope.

Lemma runs_sound (p : N -> bool) (rest : str) :
  forall hi u rest',
    In (u, rest') (runs p hi rest) ->
    rest = u ++ rest' /\ forallb p u = true /\
    match hi with Some h => (List.length u <= h)%nat | None => True end.
Proof.
  induction rest as [|ch rest IH]; intros hi u rest' Hin; simpl in Hin.
  - destruct Hin as [Heq|[]]. inversion Heq; subst.
    repeat split. destruct hi; simpl; auto with arith.
  - destruct Hin as [Heq|Hin].
    + inversion Heq; subst. repeat split. destruct hi; simpl; auto with arith.
    + destruct (p ch) eqn:Hp; simpl in Hin; [|contradiction].
      destruct (allows hi) eqn:Ha; simpl in Hin; [|contradiction].
      apply in_map_iff in Hin. destruct Hin as [[u0 r0] [Heq Hin]].
      simpl in Heq. inversion Heq; subst.
      apply IH in Hin. destruct Hin as (-> & Hall & Hlen).
      repeat split.
      * simpl. now rewrite Hp, Hall.
      * destruct hi as [[|h]|]; simpl in *; try discriminate; auto with arith.
Qed.

(** A way through a quantifier. *)
Lemma ways_quant ic cs lo hi greedy prev rest u rest' c :
  In (u, rest', c) (ways ic (Quant cs lo hi greedy) prev rest) ->
  rest = u ++ rest' /\ c = [] /\ forallb (class_match ic cs) u = true /\
  (lo <= List.length u)%nat /\
  match hi with Some h => (List.length u <= h)%nat | None => True end.
Proof.
  simpl. intros Hin. apply in_map_iff in Hin.
  destruct Hin as [[u0 r0] [Heq Hin]]. simpl in Heq. inversion Heq; subst.
  assert (Hin' : In (u, rest') (filter (long_enough lo) (runs (class_match ic cs) hi rest))).
  { destruct greedy; [apply in_rev in Hin|]; exact Hin. }
  apply filter_In in Hin'. destruct Hin' as [Hr Hlo].
  apply runs_sound in Hr. destruct Hr as (-> & Hall & Hhi).
  unfold long_enough in Hlo. simpl in Hlo. apply Nat.leb_le in Hlo.
  repeat split; assumption.
Qed.

Lemma ways_class ic cs prev rest u rest' c :
  In (u, rest', c) (ways ic (Class cs) prev rest) ->
  exists ch, rest = ch :: rest' /\ u = [ch] /\ c = [] /\ class_match ic cs ch = true.
Proof.
  simpl. destruct rest as [|ch rest]; [intros []|].
  destruct (class_match ic cs ch) eqn:Hm; [|intros []].
  intros [Heq|[]]. inversion Heq; subst. exists ch. auto.
Qed.

Lemma ways_cat ic r1 r2 prev rest u rest' c :
  In (u, rest', c) (ways ic (Cat r1 r2) prev rest) ->
  exists u1 rest1 c1 u2 c2,
    In (u1, rest1, c1) (ways ic r1 prev rest) /\
    In (u2, rest', c2) (ways ic r2 (after prev u1) rest1) /\
    u = u1 ++ u2 /\ c = c2 ++ c1.
Proof.
  simpl. intros Hin. apply in_flat_map in Hin.
  destruct Hin as [[[u1 rest1] c1] [H1 H2]].
  apply in_map_iff in H2. destruct H2 as [[[u2 rest2] c2] [Heq H2]].
  inversion Heq; subst. exists u1, rest1, c1, u2, c2. auto.
Qed.

Lemma ways_or ic r1 r2 prev rest x :
  In x (ways ic (Or r1 r2) prev rest) ->
  In x (ways ic r1 prev rest) \/ In x (ways ic r2 prev rest).
Proof. simpl. apply in_app_or. Qed.

Lemma ways_group ic n r prev rest u rest' c :
  In (u, rest', c) (ways ic (Group n r) prev rest) ->
  exists c1, In (u, rest', c1) (ways ic r prev rest) /\ c = (n, u) :: c1.
Proof.
  simpl. intros Hin. apply in_map_iff in Hin.
  destruct Hin as [[[u1 rest1] c1] [Heq H1]]. inversion Heq; subst. eauto.
Qed.

Lemma ways_empty ic prev rest u rest' c :
  In (u, rest', c) (ways ic Empty prev rest) -> u = [] /\ rest' = rest /\ c = [].
Proof. simpl. intros [Heq|[]]. inversion Heq; auto. Qed.

Lemma ways_wordb ic prev rest u rest' c :
  In (u, rest', c) (ways ic WordB prev rest) ->
  u = [] /\ rest' = rest /\ c = [] /\ xorb (word_at prev) (word_at (hd_error rest)) = true.
Proof.
  simpl. destruct (xorb _ _); [|intros []]. intros [Heq|[]]. inversion Heq; auto.
Qed.

Lemma ways_bos ic prev rest u rest' c :
  In (u, rest', c) (ways ic Bos prev rest) -> u = [] /\ rest' = rest /\ c = [] /\ prev = None.
Proof.
  simpl. destruct prev; [intros []|]. intros [Heq|[]]. inversion Heq; auto.
Qed.

Lemma ways_eos ic prev rest u rest' c :
  In (u, rest', c) (ways ic Eos prev rest) -> u = [] /\ rest' = [] /\ c = [] /\ rest = [].
Proof.
  simpl. destruct rest; [|intros []]. intros [Heq|[]]. inversion Heq; auto.
Qed.

(** What a way consumes is a prefix of the input. *)
Lemma ways_prefix ic r :
  forall prev rest u rest' c,
    In (u, rest', c) (ways ic r prev rest) -> rest = u ++ rest'.
Proof.
  induction r; intros prev rest u rest' c Hin.
  - apply ways_empty in Hin. now destruct Hin as (-> & -> & _).
  - apply ways_class in Hin. destruct Hin as (ch & -> & -> & _). reflexivity.
  - apply ways_cat in Hin.
    destruct Hin as (u1 & rest1 & c1 & u2 & c2 & H1 & H2 & -> & _).
    apply IHr1 in H1. apply IHr2 in H2. subst. now rewrite app_assoc.
  - apply ways_or in Hin. destruct Hin; eauto.
  - apply ways_quant in Hin. tauto.
  - apply ways_group in Hin. destruct Hin as (c1 & H1 & _). eauto.
  - apply ways_wordb in Hin. now destruct Hin as (-> & -> & _).
  - apply ways_bos in Hin. now destruct Hin as (-> & -> & _).
  - apply ways_eos in Hin. now destruct Hin as (-> & -> & _ & ->).
Qed.

Lemma capture_app n c2 c1 :
  capture n (c2 ++ c1) =
  match capture n c2 with Some g => Some g | None => capture n c1 end.
Proof.
  induction c2 as [|[k g] c2 IH]; simpl; [reflexivity|].
  destruct (Nat.eqb k n); auto.
Qed.

Lemma ways_mandatory ic n r :
  mandatory n r = true ->
  forall prev rest u rest' c,
    In (u, rest', c) (ways ic r prev rest) -> exists g, capture n c = Some g.
Proof.
  induction r; simpl; intros Hm prev rest u rest' c Hin; try discriminate.
  - apply in_flat_map in Hin. destruct Hin as [[[u1 rest1] c1] [H1 H2]].
    apply in_map_iff in H2. destruct H2 as [[[u2 rest2] c2] [Heq H2]].
    inversion Heq; subst. rewrite capture_app.
    destruct (capture n c2) eqn:E2; [eauto|].
    apply orb_true_iff in Hm. destruct Hm as [Hm|Hm].
    + eapply IHr1; eauto.
    + destruct (IHr2 Hm _ _ _ _ _ H2) as [g Hg]. congruence.
  - apply in_map_iff in Hin. destruct Hin as [[[u1 rest1] c1] [Heq H1]].
    inversion Heq; subst. simpl.
    destruct (Nat.eqb n0 n) eqn:E; [eauto|].
    simpl in Hm. eapply IHr; eauto.
Qed.

Lemma ways_groupless ic r :
  groupless r = true ->
  forall prev rest u rest' c, In (u, rest', c) (ways ic r prev rest) -> c = [].
Proof.
  induction r; simpl groupless; intros Hg prev rest u rest' c Hin; try discriminate.
  - apply ways_empty in Hin. tauto.
  - apply ways_class in Hin. destruct Hin as (ch & _ & _ & -> & _). reflexivity.
  - apply andb_true_iff in Hg. destruct Hg as [Hg1 Hg2].
    apply ways_cat in Hin.
    destruct Hin as (u1 & rest1 & c1 & u2 & c2 & H1 & H2 & _ & ->).
    apply (IHr1 Hg1) in H1. apply (IHr2 Hg2) in H2. now subst.
  - apply andb_true_iff in Hg. destruct Hg as [Hg1 Hg2].
    apply ways_or in Hin. destruct Hin; eauto.
  - apply ways_quant in Hin. tauto.
  - apply ways_wordb in Hin. tauto.
  - apply ways_bos in Hin. tauto.
  - apply ways_eos in Hin. tauto.
Qed.

(** A successful search is a way of matching at some position of the input. *)
Lemma search_way ic r :
  forall rest prev i m,
    search ic r prev rest i = Some m ->
    exists prev' pre suf rest',
      rest = pre ++ suf /\ In (whole m, rest', groups m) (ways ic r prev' suf).
Proof.
  induction rest as [|ch rest IH]; intros prev i m Hs; simpl in Hs.
  - destruct (ways ic r prev []) as [|[[u r0] c] l] eqn:E; [discriminate|].
    inversion Hs; subst; simpl. exists prev, [], [], r0. split; [reflexivity|].
    rewrite E. now left.
  - destruct (ways ic r prev (ch :: rest)) as [|[[u r0] c] l] eqn:E.
    + apply IH in Hs. destruct Hs as (prev' & pre & suf & rest' & -> & Hin).
      exists prev', (ch :: pre), suf, rest'. auto.
    + inversion Hs; subst; simpl. exists prev, [], (ch :: rest), r0.
      split; [reflexivity|]. rewrite E. now left.
Qed.

Lemma exec_way ic r s m :
  exec ic r s = Some m ->
  exists prev' pre suf rest',
    s = pre ++ suf /\ In (whole m, rest', groups m) (ways ic r prev' suf).
Proof. apply search_way. Qed.

(** After a match every mandatory group is defined. *)
Lemma exec_mandatory ic r s m n :
  exec ic r s = Some m -> mandatory n r = true -> exists g, group m n = Some g.
Proof.
  intros He Hm. apply exec_way in He.
  destruct He as (prev' & pre & suf & rest' & _ & Hin).
  unfold group. eapply ways_mandatory; eauto.
Qed.

(** An anchored pattern matches at the start only. *)
Lemma search_bos ic r :
  forall rest ch i, search ic (Cat Bos r) (Some ch) rest i = None.
Proof.
  induction rest as [|c rest IH]; intros ch i; simpl; auto.
Qed.

End RegexFacts.

Import RegexFacts.
(* ===================================================================== *)
(** ** No extractor throws *)
(* ===================================================================== *)

Section Returns.

Context {R : Runtime}.

Lemma toLowerCase_of_mandatory ic r s m n :
  exec ic r s = Some m -> mandatory n r = true ->
  exists p, toLowerCase_of (group m n) = Normal p /\ exists g, group m n = Some g /\ p = toLowerCase g.
Proof.
  intros He Hm. destruct (exec_mandatory _ _ _ n He Hm) as [g Hg].
  rewrite Hg. simpl. eauto.
Qed.

Lemma parseFrenchDatePhrase_of_returns s0 :
  exists r, parseFrenchDatePhrase_of s0 = Normal r.
Proof.
  unfold parseFrenchDatePhrase_of.
  destruct (test false RE_ISO _); [eauto|].
  destruct (test false RE_DMY _); [eauto|].
  destruct (exec true RE_TEXTUAL _) as [m|] eqn:He; [|eauto].
  destruct (toLowerCase_of_mandatory _ _ _ 1 He eq_refl) as (d & -> & _).
  destruct (toLowerCase_of_mandatory _ _ _ 2 He eq_refl) as (k & -> & _).
  simpl. destruct (truthy _); eauto.
Qed.

Lemma parseFrenchDatePhrase_returns fr :
  exists r, parseFrenchDatePhrase fr = Normal r.
Proof.
  destruct fr; simpl; [eauto|apply parseFrenchDatePhrase_of_returns].
Qed.

Lemma parseFrenchDatePhrase_opt_returns o :
  exists r, parseFrenchDatePhrase_opt o = Normal r.
Proof.
  destruct o; simpl; [apply parseFrenchDatePhrase_returns|eauto].
Qed.

Lemma extractGaine_returns t :
  exists r, extractGaine t = Normal r.
Proof.
  unfold extractGaine.
  destruct (exec true RE_GAINE t) as [m|] eqn:He; [|eauto].
  destruct (toLowerCase_of_mandatory _ _ _ 1 He eq_refl) as (p & -> & _). simpl. eauto.
Qed.

Lemma extractTime_returns t :
  exists r, extractTime t = Normal r.
Proof.
  unfold extractTime.
  assert (Hd : exists d, match exec true RE_TEXTUAL t with
                         | Some singleM => parseFrenchDatePhrase (whole singleM)
                         | None => Normal None
                         end = Normal d).
  { destruct (exec true RE_TEXTUAL t); [apply parseFrenchDatePhrase_returns|eauto]. }
  destruct Hd as [d ->]. simpl.
  destruct (present d); [eauto|].
  destruct (match_all false DATE_TOKEN_RE t); [eauto|].
  destruct (test false RE_DMY _); eauto.
Qed.

Lemma anchor_intent_returns t : exists r, anchor_intent t = Normal r.
Proof.
  unfold anchor_intent.
  destruct (exec true RE_INTENT t) as [m|] eqn:He; [|eauto].
  destruct (toLowerCase_of_mandatory _ _ _ 1 He eq_refl) as (p & -> & _). simpl. eauto.
Qed.

Lemma anchor_gaine_returns t : exists r, anchor_gaine t = Normal r.
Proof.
  unfold anchor_gaine.
  destruct (exec true RE_DE_GAINE t) as [m|] eqn:He; [|eauto].
  destruct (toLowerCase_of_mandatory _ _ _ 1 He eq_refl) as (p & -> & _). simpl. eauto.
Qed.

Lemma anchor_time_returns t : exists r, anchor_time t = Normal r.
Proof.
  unfold anchor_time.
  destruct (exec true RE_DU_AU t) as [m|].
  - destruct (parseFrenchDatePhrase_opt_returns (group m 1)) as [d1 ->].
    destruct (parseFrenchDatePhrase_opt_returns (group m 2)) as [d2 ->]. simpl. eauto.
  - destruct (exec true RE_LE_DATE t) as [m|]; [|eauto].
    destruct (parseFrenchDatePhrase_opt_returns (group m 1)) as [d ->]. simpl. eauto.
Qed.

(** [extractByAnchors] in terms of its three anchors. *)
Lemma extractByAnchors_shape text :
  exists i g t,
    anchor_intent (normKeepAccents text) = Normal i /\
    anchor_gaine (normKeepAccents text) = Normal g /\
    anchor_time (normKeepAccents text) = Normal t /\
    extractByAnchors text =
    match i, g with
    | Some _, Some _ => Normal (Some {| intent := i; gaine := g; time := t |})
    | _, _ => Normal None
    end.
Proof.
  unfold extractByAnchors.
  destruct (anchor_intent_returns (normKeepAccents text)) as [i Hi].
  destruct (anchor_gaine_returns (normKeepAccents text)) as [g Hg].
  destruct (anchor_time_returns (normKeepAccents text)) as [t Ht].
  exists i, g, t. cbv zeta. rewrite Hi, Hg, Ht. simpl. auto.
Qed.

Lemma extractByAnchors_returns text :
  exists r, extractByAnchors text = Normal r.
Proof.
  destruct (extractByAnchors_shape text) as (i & g & t & _ & _ & _ & ->).
  destruct i, g; eauto.
Qed.

End Returns.
(* ===================================================================== *)
(** ** Classes of units *)
(* ===================================================================== *)

Module Units.

Local Open Scope N_scope.

(** Under the [i] flag a lower-case ASCII letter of a pattern matches itself
    and its capital, and nothing else. *)
Lemma letter_match a ch :
  in_range 97 122 a = true ->
  class_match true [ILit a] ch = true ->
  lower_unit ch = a /\ (ch <? 256) = true.
Proof.
  intros Ha Hm. unfold class_match, item_match, canonicalize in Hm. simpl in Hm.
  rewrite orb_false_r in Hm. apply N.eqb_eq in Hm.
  unfold in_range in Ha. apply andb_true_iff in Ha. destruct Ha as [Ha1 Ha2].
  apply N.leb_le in Ha1, Ha2.
  assert (Hu : upper_unit a = a - 32).
  { unfold upper_unit, is_lower_latin, in_range.
    destruct (N.leb_spec 97 a); destruct (N.leb_spec a 122); simpl; try lia; reflexivity. }
  rewrite Hu in Hm. clear Hu.
  unfold upper_unit, lower_unit, is_lower_latin, is_upper_latin, in_range in *.
  split.
  - destruct (N.leb_spec 97 ch); destruct (N.leb_spec ch 122);
    destruct (N.leb_spec 224 ch); destruct (N.leb_spec ch 254);
    destruct (N.eqb_spec ch 247);
    destruct (N.leb_spec 65 ch); destruct (N.leb_spec ch 90);
    destruct (N.leb_spec 192 ch); destruct (N.leb_spec ch 222);
    destruct (N.eqb_spec ch 215); simpl in *; lia.
  - apply N.ltb_lt.
    destruct (N.leb_spec 97 ch); destruct (N.leb_spec ch 122);
    destruct (N.leb_spec 224 ch); destruct (N.leb_spec ch 254);
    destruct (N.eqb_spec ch 247); simpl in *; lia.
Qed.

(** Without the flag a literal matches itself only. *)
Lemma literal_match a ch : class_match false [ILit a] ch = true -> ch = a.
Proof.
  unfold class_match, item_match, canonicalize. simpl. rewrite orb_false_r.
  intros H. apply N.eqb_eq in H. now symmetry.
Qed.

Lemma digit_match ic ch : class_match ic [IDigit] ch = is_digit ch.
Proof. unfold class_match. simpl. apply orb_false_r. Qed.

Lemma space_match ic ch : class_match ic [ISpace] ch = is_space ch.
Proof. unfold class_match. simpl. apply orb_false_r. Qed.

Lemma digit_facts ch :
  is_digit ch = true ->
  lower_unit ch = ch /\ (ch <? 256) = true /\ is_space ch = false /\ ch <> 45 /\
  is_plain ch = true.
Proof.
  intros H. unfold is_digit, in_range in H. apply andb_true_iff in H.
  destruct H as [H1 H2]. apply N.leb_le in H1, H2.
  repeat split.
  - unfold lower_unit, is_upper_latin, in_range.
    destruct (N.leb_spec 65 ch); destruct (N.leb_spec ch 90);
    destruct (N.leb_spec 192 ch); simpl; try lia; reflexivity.
  - apply N.ltb_lt. lia.
  - unfold is_space, in_range.
    repeat match goal with
           | |- context [N.eqb ?a ?b] => destruct (N.eqb_spec a b); try lia
           | |- context [N.leb ?a ?b] => destruct (N.leb_spec a b); try lia
           end; reflexivity.
  - lia.
  - unfold is_plain. destruct (N.ltb_spec ch 128); [reflexivity|lia].
Qed.

End Units.

Import Units.
(* ===================================================================== *)
(** ** The shape of a gaine value *)
(* ===================================================================== *)

Local Open Scope N_scope.

(** Takes a hypothesis on the ways of a pattern apart, down to its units. *)
Ltac ways_inv :=
  repeat
    (match goal with
     | H : In _ (ways _ (Cat _ _) _ _) |- _ =>
       apply ways_cat in H; destruct H as (? & ? & ? & ? & ? & ? & ? & ? & ?)
     | H : In _ (ways _ (Or _ _) _ _) |- _ =>
       apply ways_or in H; destruct H as [H|H]
     | H : In _ (ways _ (Group _ _) _ _) |- _ =>
       apply ways_group in H; destruct H as (? & ? & ?)
     | H : In _ (ways _ (Class _) _ _) |- _ =>
       apply ways_class in H; destruct H as (? & ? & ? & ? & ?)
     | H : In _ (ways _ (Quant _ _ _ _) _ _) |- _ =>
       apply ways_quant in H; destruct H as (? & ? & ? & ? & ?)
     | H : In _ (ways _ WordB _ _) |- _ =>
       apply ways_wordb in H; destruct H as (? & ? & ? & ?)
     | H : In _ (ways _ Bos _ _) |- _ =>
       apply ways_bos in H; destruct H as (? & ? & ? & ?)
     | H : In _ (ways _ Eos _ _) |- _ =>
       apply ways_eos in H; destruct H as (? & ? & ? & ?)
     | H : In _ (ways _ Empty _ _) |- _ =>
       apply ways_empty in H; destruct H as (? & ? & ?)
     end; subst).

(** Replaces a pattern by its syntax tree. *)
Ltac unfold_re re H :=
  let r := eval vm_compute in re in change re with r in H.

Ltac letters :=
  repeat match goal with
         | H : class_match true [ILit ?a] ?ch = true |- _ =>
           apply (@letter_match a ch eq_refl) in H; destruct H as [? ?]
         | H : class_match false [ILit ?a] ?ch = true |- _ =>
           apply literal_match in H
         end.

Ltac in_prefixes :=
  unfold GAINE_PREFIXES; simpl In; repeat first [left; reflexivity | right].

Lemma forallb_digit ic l : forallb (class_match ic [IDigit]) l = forallb is_digit l.
Proof. induction l as [|a l IH]; [reflexivity|]. cbn [forallb]. now rewrite digit_match, IH. Qed.

Lemma forallb_space ic l : forallb (class_match ic [ISpace]) l = forallb is_space l.
Proof. induction l as [|a l IH]; [reflexivity|]. cbn [forallb]. now rewrite space_match, IH. Qed.

(** [(?:gsb|gab|gl|gs)] under the [i] flag. *)
Lemma prefix_ways_i prev rest u rest' c :
  In (u, rest', c) (ways true (alt [lit "gsb"; lit "gab"; lit "gl"; lit "gs"]) prev rest) ->
  In (map lower_unit u) GAINE_PREFIXES /\ forallb (fun ch => ch <? 256) u = true /\ c = [].
Proof.
  intros H.
  unfold_re (alt [lit "gsb"; lit "gab"; lit "gl"; lit "gs"]) H.
  ways_inv; letters; simpl;
    repeat match goal with H : lower_unit _ = _ |- _ => rewrite H; clear H end;
    repeat match goal with H : (_ <? 256) = true |- _ => rewrite H; clear H end;
    (split; [in_prefixes|split; reflexivity]).
Qed.

(** [(gs(?:b)?|gab|gl|gs)] under the [i] flag. *)
Lemma prefix_ways_b prev rest u rest' c :
  In (u, rest', c)
     (ways true (alt [cat [lit "gs"; opt (units "b")]; lit "gab"; lit "gl"; lit "gs"]) prev rest) ->
  In (map lower_unit u) GAINE_PREFIXES /\ forallb (fun ch => ch <? 256) u = true /\ c = [].
Proof.
  intros H.
  unfold_re (alt [cat [lit "gs"; opt (units "b")]; lit "gab"; lit "gl"; lit "gs"]) H.
  ways_inv; letters;
    try match goal with
        | H : (List.length ?l <= 1)%nat |- _ =>
          destruct l as [|? [|? ?]]; simpl in H; [| |lia];
          cbn [forallb] in *;
          repeat match goal with
                 | H : _ && true = true |- _ => rewrite andb_true_r in H
                 end
        end;
    letters; simpl.
  all: repeat match goal with H : lower_unit _ = _ |- _ => rewrite H; clear H end.
  all: repeat match goal with H : (_ <? 256) = true |- _ => rewrite H; clear H end.
  all: (split; [in_prefixes|split; reflexivity]).
Qed.

(** [(gsb|gab|gl|gs)] without the flag. *)
Lemma prefix_ways prev rest u rest' c :
  In (u, rest', c) (ways false (alt [lit "gsb"; lit "gab"; lit "gl"; lit "gs"]) prev rest) ->
  In u GAINE_PREFIXES /\ c = [].
Proof.
  intros H.
  unfold_re (alt [lit "gsb"; lit "gab"; lit "gl"; lit "gs"]) H.
  ways_inv; letters; subst; simpl;
    (split; [in_prefixes|reflexivity]).
Qed.

Ltac unfold_quants H :=
  cbn [cat] in H;
  unfold star, opt, between, Regex.plus, plus_lazy, digits, slash_or_dash, d_, s_ in H.

Section GaineShape.

Context {R : Runtime}.

(** The fallback lookup. *)
Lemma extractGaine_ok t :
  match extractGaine t with
  | Normal o => gaine_ok o
  | Throw => True
  end.
Proof.
  unfold extractGaine.
  destruct (exec true RE_GAINE t) as [[i u c]|] eqn:He; [|exact I].
  apply exec_way in He. destruct He as (prev' & pre & suf & rest' & _ & Hin).
  cbn [whole groups] in Hin. unfold RE_GAINE in Hin. unfold_quants Hin.
  ways_inv.
  match goal with
  | H : In _ (ways true (alt _) _ _) |- _ =>
    apply prefix_ways_b in H; destruct H as (Hp & Hl & ->)
  end.
  unfold group. simpl.
  rewrite (toLowerCase_latin1 _ Hl).
  match goal with
  | Hp : In ?p GAINE_PREFIXES, H : forallb (class_match _ [IDigit]) ?ds = true |- _ =>
    rewrite forallb_digit in H; exists p, ds
  end.
  repeat split; auto.
Qed.

(** The normalizer of the language-model pass. *)
Lemma normalizeGaineValue_ok v x :
  normalizeGaineValue v = Normal (Some x) -> gaine_value_ok x.
Proof.
  unfold normalizeGaineValue.
  destruct v as [j|]; [|discriminate].
  destruct (truthy_json j); [|discriminate].
  destruct (ToString j) as [s0|]; [|discriminate]. simpl.
  destruct (exec false RE_GAINE_VALUE _) as [[i u c]|] eqn:He; [|discriminate].
  apply exec_way in He. destruct He as (prev' & pre & suf & rest' & _ & Hin).
  cbn [whole groups] in Hin. unfold RE_GAINE_VALUE in Hin. unfold_quants Hin.
  ways_inv.
  match goal with
  | H : In _ (ways false (alt _) _ _) |- _ =>
    apply prefix_ways in H; destruct H as (Hp & ->)
  end.
  unfold group. simpl. intros Hx. inversion Hx; subst.
  match goal with
  | Hp : In ?p GAINE_PREFIXES, H : forallb (class_match _ [IDigit]) ?ds = true |- _ =>
    rewrite forallb_digit in H; exists p, ds
  end.
  repeat split; auto.
Qed.

End GaineShape.

(** *** Replacing, trimming, normalizing *)

(** Deleting the units of a class is filtering them out. *)
Lemma replace_class ic cs :
  forall rest prev,
    replace_from ic (Class cs) [] prev rest 0 =
    filter (fun ch => negb (class_match ic cs ch)) rest.
Proof.
  induction rest as [|ch rest IH]; intros prev; [reflexivity|].
  simpl. destruct (class_match ic cs ch); simpl; now rewrite IH.
Qed.

(** Where [x+] has no way to match, the unit at hand is not in the class. *)
Lemma plus_no_way ic cs prev ch rest :
  ways ic (Regex.plus cs) prev (ch :: rest) = [] -> class_match ic cs ch = false.
Proof.
  intros Hw. destruct (class_match ic cs ch) eqn:Hm; [|reflexivity].
  assert (Hin : In ([ch], rest, @nil (nat * str)) (ways ic (Regex.plus cs) prev (ch :: rest))).
  { unfold Regex.plus. cbn [ways].
    apply in_map_iff. exists ([ch], rest). split; [reflexivity|].
    apply -> in_rev. apply filter_In. split; [|reflexivity].
    cbn [runs]. rewrite Hm. cbn [andb allows].
    right. apply in_map_iff. exists ([], rest). split; [reflexivity|].
    destruct rest; simpl; auto. }
  rewrite Hw in Hin. destruct Hin.
Qed.

Lemma replace_spaces_plain :
  forall rest prev skip,
    only_plain_spaces (replace_from false RE_SPACES (js " ") prev rest skip).
Proof.
  unfold only_plain_spaces.
  induction rest as [|ch rest IH]; intros prev skip.
  - destruct skip; simpl; [|constructor].
    destruct (ways false RE_SPACES prev []) as [|[[u r0] c] l]; [constructor|].
    repeat constructor.
  - destruct skip as [|k]; [|simpl; apply IH].
    cbn [replace_from].
    destruct (ways false RE_SPACES prev (ch :: rest)) as [|[[u r0] c] l] eqn:E.
    + constructor; [|apply IH].
      apply plus_no_way in E. rewrite space_match in E. congruence.
    + destruct u; (apply Forall_app; split; [repeat constructor|]);
        [constructor; [|apply IH]|apply IH].
      intros Hsp. exfalso.
      assert (Hin : In ([], r0, c) (ways false RE_SPACES prev (ch :: rest)))
        by (rewrite E; now left).
      apply ways_quant in Hin. simpl in Hin. lia.
Qed.

Lemma trimStart_suffix s : exists pre, s = pre ++ trimStart s.
Proof.
  induction s as [|ch s [pre IH]]; [exists []; reflexivity|].
  simpl. destruct (is_space ch).
  - exists (ch :: pre). simpl. now rewrite <- IH.
  - exists []. reflexivity.
Qed.

Lemma Forall_trim (P : N -> Prop) s : Forall P s -> Forall P (trim s).
Proof.
  intros H. unfold trim, trimEnd.
  apply Forall_rev.
  destruct (trimStart_suffix (rev (trimStart s))) as [pre Hpre].
  assert (H1 : Forall P (trimStart s)).
  { destruct (trimStart_suffix s) as [pre' Hpre']. rewrite Hpre' in H.
    apply Forall_app in H. tauto. }
  apply Forall_rev in H1. rewrite Hpre in H1. apply Forall_app in H1. tauto.
Qed.

Section NormFacts.

Context {R : Runtime}.

(** After [normKeepAccents] the only white space left is U+0020. *)
Lemma normKeepAccents_spaces s : only_plain_spaces (normKeepAccents s).
Proof.
  unfold normKeepAccents, only_plain_spaces. apply Forall_trim.
  apply replace_spaces_plain.
Qed.

End NormFacts.

(** *** The anchor's gaine *)

Lemma dash_match ic ch : class_match ic [ILit 45] ch = true -> ch = 45.
Proof.
  unfold class_match, item_match, canonicalize. simpl existsb. rewrite orb_false_r.
  intros H. apply N.eqb_eq in H. destruct ic; [|now symmetry].
  unfold upper_unit, is_lower_latin, in_range in H. simpl in H.
  destruct (N.leb_spec 97 ch); destruct (N.leb_spec ch 122);
  destruct (N.leb_spec 224 ch); destruct (N.leb_spec ch 254);
  destruct (N.eqb_spec ch 247); simpl in H; lia.
Qed.

Lemma filter_none (f : N -> bool) l :
  Forall (fun ch => f ch = false) l -> filter f l = [].
Proof.
  induction 1 as [|ch l Hch _ IH]; simpl; [reflexivity|]. now rewrite Hch.
Qed.

Lemma filter_all (f : N -> bool) l :
  Forall (fun ch => f ch = true) l -> filter f l = l.
Proof.
  induction 1 as [|ch l Hch _ IH]; simpl; [reflexivity|]. now rewrite Hch, IH.
Qed.

Lemma map_fixed (f : N -> N) l : Forall (fun ch => f ch = ch) l -> map f l = l.
Proof.
  induction 1 as [|ch l Hch _ IH]; simpl; [reflexivity|]. now rewrite Hch, IH.
Qed.

Lemma forallb_Forall (f : N -> bool) l : forallb f l = true <-> Forall (fun ch => f ch = true) l.
Proof. rewrite forallb_forall, Forall_forall. reflexivity. Qed.

(** The white space of normalized text, as the gaine pattern meets it. *)
Lemma spaces_plain ic l :
  forallb (class_match ic [ISpace]) l = true -> only_plain_spaces l ->
  Forall (fun ch => ch = 32) l.
Proof.
  rewrite forallb_space, forallb_Forall. unfold only_plain_spaces.
  intros H1 H2. rewrite Forall_forall in *. auto.
Qed.

Lemma dashes ic l :
  forallb (class_match ic [ILit 45]) l = true -> Forall (fun ch => ch = 45) l.
Proof.
  rewrite forallb_Forall. apply Forall_impl. intros ch. apply dash_match.
Qed.

Lemma digits_kept l :
  forallb is_digit l = true ->
  Forall (fun ch => keeps ch = true) l /\ Forall (fun ch => lower_unit ch = ch) l /\
  Forall (fun ch => (ch <? 256) = true) l.
Proof.
  rewrite forallb_Forall. intros H.
  repeat split; eapply Forall_impl; try exact H; intros ch Hd;
    destruct (digit_facts _ Hd) as (H1 & H2 & H3 & H4 & _); auto.
  unfold keeps. change (units "-") with [ILit 45]. unfold class_match.
  cbn [existsb item_match canonicalize]. rewrite H3.
  rewrite (proj2 (N.eqb_neq 45 ch)) by congruence. reflexivity.
Qed.

Lemma prefixes_kept p : In p GAINE_PREFIXES -> filter keeps p = p.
Proof.
  unfold GAINE_PREFIXES. simpl In.
  intros [<-|[<-|[<-|[<-|[]]]]]; reflexivity.
Qed.

Section AnchorGaine.

Context {R : Runtime}.

Lemma anchor_gaine_ok t :
  only_plain_spaces t ->
  match anchor_gaine t with
  | Normal o => gaine_ok o
  | Throw => True
  end.
Proof.
  intros Hplain. unfold anchor_gaine.
  destruct (exec true RE_DE_GAINE t) as [[i u c]|] eqn:He; [|exact I].
  apply exec_way in He. destruct He as (prev' & pre & suf & rest' & Ht & Hin).
  rewrite Ht in Hplain. apply Forall_app in Hplain. destruct Hplain as [_ Hplain].
  cbn [whole groups] in Hin. unfold RE_DE_GAINE in Hin. unfold_quants Hin.
  change (units "-") with [ILit 45] in Hin.
  ways_inv.
  match goal with
  | H : In _ (ways true (alt _) _ _) |- _ =>
    pose proof (ways_prefix _ _ _ _ _ _ _ H);
    apply prefix_ways_i in H; destruct H as (Hp & Hl & ->)
  end.
  match goal with
  | H : In _ (ways true (lit "de") _ _) |- _ =>
    pose proof (ways_prefix _ _ _ _ _ _ _ H);
    apply ways_groupless in H; [|reflexivity]
  end.
  subst.
  unfold only_plain_spaces in Hplain.
  repeat rewrite Forall_app in Hplain.
  destruct Hplain as (_ & _ & _ & Hs1 & _ & Hs2 & _ & _).
  repeat match goal with
         | H : forallb (class_match _ [ISpace]) ?l = true, H' : Forall _ ?l |- _ =>
           apply spaces_plain in H; [clear H'|exact H']
         | H : forallb (class_match _ [ILit 45]) _ = true |- _ => apply dashes in H
         | H : forallb (class_match _ [IDigit]) _ = true |- _ =>
           rewrite forallb_digit in H
         end.
  unfold group. simpl.
  match goal with
  | H : forallb is_digit ?ds = true |- _ =>
    destruct (digits_kept _ H) as (Hk & Hlow & Hlt)
  end.
  rewrite toLowerCase_latin1.
  - unfold replace_all, RE_SPACE_DASH. rewrite replace_class. fold keeps.
    repeat rewrite map_app. repeat rewrite filter_app.
    rewrite (prefixes_kept Hp).
    match goal with
    | Hp : In ?p GAINE_PREFIXES, H : forallb is_digit ?ds = true |- _ => exists p, ds
    end.
    repeat split; auto.
    f_equal.
    repeat match goal with
           | H : Forall (fun ch => ch = _) ?l |- context [map lower_unit ?l] =>
             rewrite (@map_fixed lower_unit l) by
                 (eapply Forall_impl; [|exact H]; intros ? ->; reflexivity)
           end.
    rewrite (@map_fixed lower_unit _ Hlow).
    repeat match goal with
           | H : Forall (fun ch => ch = _) ?l |- context [filter keeps ?l] =>
             rewrite (@filter_none keeps l) by
                 (eapply Forall_impl; [|exact H]; intros ? ->; reflexivity)
           end.
    simpl. now rewrite (@filter_all keeps _ Hk).
  - repeat rewrite forallb_app. rewrite Hl.
    repeat match goal with
           | H : Forall (fun ch => ch = _) ?l |- context [forallb ?f ?l] =>
             replace (forallb f l) with true by
                 (symmetry; apply forallb_Forall; eapply Forall_impl; [|exact H];
                  intros ? ->; reflexivity)
           end.
    simpl. now apply forallb_Forall.
Qed.

End AnchorGaine.

(** *** The language-model pass *)

Section LlmShape.

Context {R : Runtime}.
Variable sv : Services.

(** What [llmAnchorsParse] returns, when it returns a query: both required
    fields, the gaine being a normalized value. *)
Lemma llmAnchorsParse_some text q :
  llmAnchorsParse sv text = Some q ->
  exists i v t raw,
    q = {| intent := Some i; gaine := Some {| type := js "prefix"; value_ := v |}; time := t |} /\
    normalizeGaineValue raw = Normal (Some v).
Proof.
  unfold llmAnchorsParse, llmAnchorsParse_try.
  destruct (negb (USE_LLM_ANCHORS sv)); [discriminate|].
  destruct (chat sv text) as [|content]; [discriminate|].
  destruct (negb (present (option_map trim content))); [discriminate|].
  destruct (JSON_parse sv _) as [obj|]; [|discriminate].
  destruct (prop obj (js "intent")) as [i|]; [|discriminate]. cbn [bind].
  destruct (normalizeIntent i) as [oi|]; [|discriminate]. cbn [bind].
  destruct (normalizeGaineValue _) as [gv|] eqn:Hg; [|discriminate]. cbn [bind].
  destruct (prop obj (js "time")) as [t|]; [|discriminate]. cbn [bind].
  destruct (normalizeTime _) as [tm|]; [|discriminate]. cbn [bind].
  destruct oi as [i'|]; [|discriminate].
  destruct gv as [[|ch v]|]; try discriminate. cbn [present show].
  intros Hq. inversion Hq; subst. eauto 10.
Qed.

Lemma llmAnchorsParse_gaine_ok text :
  match llmAnchorsParse sv text with
  | Some q => gaine_ok (gaine q)
  | None => True
  end.
Proof.
  destruct (llmAnchorsParse sv text) as [q|] eqn:E; [|exact I].
  apply llmAnchorsParse_some in E. destruct E as (i & v & t & raw & -> & Hv).
  simpl. eapply normalizeGaineValue_ok; eauto.
Qed.

End LlmShape.

(* ===================================================================== *)
(** ** The claims *)
(* ===================================================================== *)

(** A well-formed gaine value is in lower case: lower-casing leaves it as it is. *)
Lemma gaine_value_lowercase {R : Runtime} v : gaine_value_ok v -> toLowerCase v = v.
Proof.
  intros (p & ds & Hp & -> & _ & Hd).
  destruct (digits_kept _ Hd) as (_ & Hlow & Hlt).
  rewrite toLowerCase_latin1.
  - rewrite map_app, (@map_fixed lower_unit _ Hlow). f_equal.
    unfold GAINE_PREFIXES in Hp. simpl In in Hp.
    destruct Hp as [<-|[<-|[<-|[<-|[]]]]]; reflexivity.
  - rewrite forallb_app. apply andb_true_iff. split; [|now apply forallb_Forall].
    unfold GAINE_PREFIXES in Hp. simpl In in Hp.
    destruct Hp as [<-|[<-|[<-|[<-|[]]]]]; reflexivity.
Qed.

(** C2. For every text, [extractByAnchors] and [llmAnchorsParse] each return
    either [null] or a query whose [intent] and [gaine] are both present;
    neither throws, and neither returns a query that misses one of the two. *)
Theorem extractors_all_or_nothing :
  forall (R : Runtime) (sv : Services) (text : str),
    (extractByAnchors text = Normal None \/
     exists i g t,
       extractByAnchors text =
       Normal (Some {| intent := Some i; gaine := Some g; time := t |})) /\
    (llmAnchorsParse sv text = None \/
     exists i g t,
       llmAnchorsParse sv text = Some {| intent := Some i; gaine := Some g; time := t |}).
Proof.
  intros R sv text. split.
  - destruct (extractByAnchors_shape text) as (i & g & t & _ & _ & _ & ->).
    destruct i as [i|]; [|now left]. destruct g as [g|]; [|now left].
    right. eauto.
  - destruct (llmAnchorsParse sv text) as [q|] eqn:E; [|now left].
    right. apply llmAnchorsParse_some in E. destruct E as (i & v & t & raw & -> & _).
    eauto.
Qed.

(** C3. Whenever one of the three extraction paths produces a gaine (the
    anchor match of [extractByAnchors], the fallback [extractGaine], the
    normalization of [llmAnchorsParse]), its value is one of the prefixes gsb,
    gab, gl, gs followed by one to five digits and nothing else, and it is in
    lower case. *)
Theorem gaine_value_shape :
  forall (R : Runtime) (sv : Services) (text : str),
    match extractByAnchors text with
    | Normal (Some q) => gaine_ok (gaine q)
    | _ => True
    end /\
    match extractGaine text with
    | Normal o => gaine_ok o
    | Throw => True
    end /\
    match llmAnchorsParse sv text with
    | Some q => gaine_ok (gaine q)
    | None => True
    end /\
    (forall v, gaine_value_ok v -> toLowerCase v = v).
Proof.
  intros R sv text. repeat split.
  - destruct (extractByAnchors_shape text) as (i & g & t & _ & Hg & _ & ->).
    pose proof (anchor_gaine_ok (normKeepAccents_spaces text)) as Hok.
    rewrite Hg in Hok. destruct i, g; simpl; auto.
  - apply extractGaine_ok.
  - apply llmAnchorsParse_gaine_ok.
  - intros v. apply gaine_value_lowercase.
Qed.

(** The three paths do produce gaines. *)
Example gaine_value_samples :
  @extractByAnchors latin1 (js "Les SORTIES de GSB - 11 le 01-10-2025") =
    Normal (Some {| intent := Some sorties;
                    gaine := Some {| type := js "prefix"; value_ := js "gsb11" |};
                    time := OnDate (js "2025-10-01") |}) /\
  @extractGaine latin1 (js "stock GL-90") =
    Normal (Some {| type := js "prefix"; value_ := js "gl90" |}) /\
  @normalizeGaineValue latin1 (Some (JString (js "GAB 22"))) = Normal (Some (js "gab22")).
Proof. vm_compute. auto. Qed.
(* ===================================================================== *)
(** ** Numeric date tokens *)
(* ===================================================================== *)

Local Open Scope N_scope.

Lemma after_some ch w : after (Some ch) w <> None.
Proof. revert ch. induction w as [|a w IH]; intros ch; simpl; [discriminate|apply IH]. Qed.

Lemma after_none prev w : after prev w = None -> w = [] /\ prev = None.
Proof.
  destruct w as [|a w]; simpl; [auto|]. intros H. now apply after_some in H.
Qed.

(** A successful search, with the unit before the match. *)
Lemma search_at ic r :
  forall rest prev i m,
    search ic r prev rest i = Some m ->
    exists pre suf rest',
      rest = pre ++ suf /\ In (whole m, rest', groups m) (ways ic r (after prev pre) suf).
Proof.
  induction rest as [|ch rest IH]; intros prev i m Hs; simpl in Hs.
  - destruct (ways ic r prev []) as [|[[u r0] c] l] eqn:E; [discriminate|].
    inversion Hs; subst; simpl. exists [], [], r0. split; [reflexivity|].
    simpl. rewrite E. now left.
  - destruct (ways ic r prev (ch :: rest)) as [|[[u r0] c] l] eqn:E.
    + apply IH in Hs. destruct Hs as (pre & suf & rest' & -> & Hin).
      exists (ch :: pre), suf, rest'. auto.
    + inversion Hs; subst; simpl. exists [], (ch :: rest), r0.
      split; [reflexivity|]. simpl. rewrite E. now left.
Qed.

Lemma slash_dash_match ch :
  class_match false [ILit 47; ILit 45] ch = true -> ch = 47 \/ ch = 45.
Proof.
  unfold class_match, item_match, canonicalize. cbn [existsb]. rewrite orb_false_r.
  intros H. apply orb_true_iff in H.
  destruct H as [H|H]; apply N.eqb_eq in H; auto.
Qed.

Lemma token_unit_facts ch :
  token_unit ch = true ->
  lower_unit ch = ch /\ (ch <? 256) = true /\ is_plain ch = true /\ is_space ch = false.
Proof.
  unfold token_unit. intros H.
  apply orb_true_iff in H. destruct H as [H|H].
  - apply orb_true_iff in H. destruct H as [H|H].
    + destruct (digit_facts _ H) as (? & ? & ? & ? & ?). auto.
    + apply N.eqb_eq in H. subst. repeat split; reflexivity.
  - apply N.eqb_eq in H. subst. repeat split; reflexivity.
Qed.

Lemma digits_token l : forallb is_digit l = true -> forallb token_unit l = true.
Proof.
  intros H. apply forallb_forall. intros ch Hin.
  rewrite forallb_forall in H. unfold token_unit. now rewrite (H _ Hin).
Qed.

(** What [^\d{1,2}[\/-]\d{1,2}[\/-]\d{2,4}$] accepts. *)
Lemma dmy_shape s :
  test false RE_DMY s = true ->
  exists d1 s1 d2 s2 d3,
    s = d1 ++ s1 :: d2 ++ s2 :: d3 /\
    forallb is_digit d1 = true /\ (1 <= List.length d1 <= 2)%nat /\
    (s1 = 47 \/ s1 = 45) /\
    forallb is_digit d2 = true /\ (1 <= List.length d2 <= 2)%nat /\
    (s2 = 47 \/ s2 = 45) /\
    forallb is_digit d3 = true /\ (2 <= List.length d3 <= 4)%nat.
Proof.
  unfold test, exec.
  destruct (search false RE_DMY None s 0) as [[i u c]|] eqn:E; [|discriminate].
  intros _. apply search_at in E. destruct E as (pre & suf & rest' & -> & Hin).
  cbn [whole groups] in Hin. unfold RE_DMY in Hin. unfold_quants Hin.
  change (units "/-") with [ILit 47; ILit 45] in Hin.
  ways_inv.
  match goal with H : after None _ = None |- _ => apply after_none in H; destruct H as [-> _] end.
  repeat match goal with
         | H : forallb (class_match _ [IDigit]) _ = true |- _ => rewrite forallb_digit in H
         | H : class_match false [ILit 47; ILit 45] _ = true |- _ => apply slash_dash_match in H
         end.
  simpl.
  match goal with
  | |- exists d1 s1 d2 s2 d3, ?a ++ ?x :: ?b ++ ?y :: ?d ++ [] = _ /\ _ =>
    exists a, x, b, y, d
  end.
  rewrite app_nil_r. repeat split; auto; lia.
Qed.

Lemma dmy_token s : test false RE_DMY s = true -> forallb token_unit s = true /\ s <> [].
Proof.
  intros H. apply dmy_shape in H.
  destruct H as (d1 & s1 & d2 & s2 & d3 & -> & H1 & L1 & Hs1 & H2 & L2 & Hs2 & H3 & L3).
  split.
  - rewrite forallb_app. cbn [forallb]. rewrite forallb_app. cbn [forallb].
    rewrite !digits_token by assumption.
    assert (token_unit s1 = true) by (destruct Hs1; subst; reflexivity).
    assert (token_unit s2 = true) by (destruct Hs2; subst; reflexivity).
    repeat (apply andb_true_iff; split); auto.
  - destruct d1; simpl in *; [lia|discriminate].
Qed.

(** A numeric token is no ISO date: its third unit at the latest is a separator. *)
Lemma dmy_not_iso s : test false RE_DMY s = true -> test false RE_ISO s = false.
Proof.
  intros H. apply dmy_shape in H.
  destruct H as (d1 & s1 & d2 & s2 & d3 & -> & H1 & L1 & Hs1 & H2 & L2 & Hs2 & H3 & L3).
  unfold test, exec.
  destruct (search false RE_ISO None _ 0) as [[i u c]|] eqn:E; [|reflexivity].
  exfalso. apply search_at in E. destruct E as (pre & suf & rest' & Heq & Hin).
  cbn [whole groups] in Hin. unfold RE_ISO in Hin. unfold_quants Hin.
  ways_inv.
  match goal with H : after None _ = None |- _ => apply after_none in H; destruct H as [-> _] end.
  match goal with
  | H : forallb (class_match false [IDigit]) ?l = true, Hl : (4 <= List.length ?l)%nat |- _ =>
    rewrite forallb_digit in H; rename H into Hd4; rename Hl into Hl4; rename l into l4
  end.
  destruct l4 as [|e1 [|e2 [|e3 [|e4 l']]]]; simpl in Hl4; try lia.
  cbn [forallb] in Hd4.
  assert (Hsep : forall x, x = 47 \/ x = 45 -> is_digit x = false)
    by (intros x [->| ->]; reflexivity).
  destruct d1 as [|a [|b [|? ?]]]; simpl in L1; try lia; simpl in Heq;
    inversion Heq; subst;
    repeat match goal with
           | H : _ && _ = true |- _ => apply andb_true_iff in H; destruct H
           end;
    match goal with
    | H : is_digit ?x = true, Hx : ?x = 47 \/ ?x = 45 |- _ =>
      rewrite (Hsep _ Hx) in H; discriminate
    end.
Qed.

(** *** Normalization leaves a token alone *)

Lemma trimStart_id s : Forall (fun ch => is_space ch = false) s -> trimStart s = s.
Proof. destruct 1 as [|ch s Hch _]; simpl; [reflexivity|]. now rewrite Hch. Qed.

Lemma trim_id s : Forall (fun ch => is_space ch = false) s -> trim s = s.
Proof.
  intros H. unfold trim, trimEnd. rewrite (trimStart_id H).
  rewrite trimStart_id by now apply Forall_rev. apply rev_involutive.
Qed.

(** Where no unit is white space, neither [/\s+/g] nor [/\sle\s+/g] finds a match. *)
Lemma replace_spaces_id by_ :
  forall rest prev,
    Forall (fun ch => is_space ch = false) rest ->
    replace_from false RE_SPACES by_ prev rest 0 = rest.
Proof.
  induction rest as [|ch rest IH]; intros prev H; [reflexivity|].
  inversion H as [|? ? Hch Hrest]; subst.
  cbn [replace_from].
  assert (E : ways false RE_SPACES prev (ch :: rest) = []).
  { unfold RE_SPACES, Regex.plus, s_. cbn [ways runs]. rewrite space_match, Hch. reflexivity. }
  rewrite E. now rewrite IH.
Qed.

Lemma replace_le_id by_ :
  forall rest prev,
    Forall (fun ch => is_space ch = false) rest ->
    replace_from false RE_LE by_ prev rest 0 = rest.
Proof.
  induction rest as [|ch rest IH]; intros prev H; [reflexivity|].
  inversion H as [|? ? Hch Hrest]; subst.
  cbn [replace_from].
  assert (E : ways false RE_LE prev (ch :: rest) = []).
  { unfold RE_LE, s_. cbn [cat ways]. rewrite space_match, Hch. reflexivity. }
  rewrite E. now rewrite IH.
Qed.

Section Tokens.

Context {R : Runtime}.

Lemma token_normalized s :
  forallb token_unit s = true -> cleaned s = s.
Proof.
  intros H. unfold cleaned. rewrite forallb_Forall in H.
  assert (Hlow : Forall (fun ch => lower_unit ch = ch) s)
    by (eapply Forall_impl; [|exact H]; intros ch Hc; now apply token_unit_facts in Hc).
  assert (Hlt : forallb (fun ch => ch <? 256) s = true)
    by (apply forallb_Forall; eapply Forall_impl; [|exact H]; intros ch Hc;
        now apply token_unit_facts in Hc).
  assert (Hpl : forallb is_plain s = true)
    by (apply forallb_Forall; eapply Forall_impl; [|exact H]; intros ch Hc;
        now apply token_unit_facts in Hc).
  assert (Hsp : Forall (fun ch => is_space ch = false) s)
    by (eapply Forall_impl; [|exact H]; intros ch Hc; now apply token_unit_facts in Hc).
  unfold normKeepAccents.
  rewrite (toLowerCase_latin1 _ Hlt), (@map_fixed lower_unit _ Hlow).
  rewrite (normalizeNFKC_plain _ Hpl).
  unfold replace_all. rewrite (replace_spaces_id _ _ Hsp), (trim_id Hsp).
  rewrite (replace_le_id _ _ Hsp). apply (trim_id Hsp).
Qed.

Lemma numeric_date_token_date s : numeric_date s = token_date s.
Proof.
  unfold numeric_date, token_date.
  destruct (map parseInt (split _ s)) as [|d [|m [|y l]]]; reflexivity.
Qed.

(** A numeric token is resolved by the numeric branch. *)
Lemma numeric_token_resolves s :
  test false RE_DMY s = true -> parseFrenchDatePhrase s = Normal (Some (numeric_date s)).
Proof.
  intros H. destruct (dmy_token _ H) as [Htok Hne].
  unfold parseFrenchDatePhrase. destruct s as [|ch s']; [congruence|].
  unfold parseFrenchDatePhrase_of. rewrite (token_normalized _ Htok).
  now rewrite (dmy_not_iso _ H), H.
Qed.

End Tokens.

(** C10. For every token [s] that matches the numeric pattern
    [^\d{1,2}[\/-]\d{1,2}[\/-]\d{2,4}$], the conversion [extractTime] writes out
    for its first token yields the very string [parseFrenchDatePhrase]
    returns for [s]: the resolver does not throw, does not return [null],
    and returns that string. *)
Theorem token_date_agrees :
  forall (R : Runtime) (s : str),
    test false RE_DMY s = true ->
    parseFrenchDatePhrase s = Normal (Some (token_date s)).
Proof.
  intros R s H.
  destruct (dmy_token _ H) as [Htok Hne].
  unfold parseFrenchDatePhrase. destruct s as [|ch s']; [congruence|].
  unfold parseFrenchDatePhrase_of. rewrite (token_normalized _ Htok).
  rewrite (dmy_not_iso _ H), H. now rewrite numeric_date_token_date.
Qed.

Lemma token_date_agrees_witness :
  test false RE_DMY (js "01-10-2025") = true /\
  @parseFrenchDatePhrase latin1 (js "01-10-2025") = Normal (Some (token_date (js "01-10-2025"))) /\
  token_date (js "01-10-2025") = js "2025-10-01".
Proof.
  split; [reflexivity|].
  split; [apply (@token_date_agrees latin1 (js "01-10-2025")); reflexivity|reflexivity].
Defined.
(* ===================================================================== *)
(** ** Plain text: every runtime agrees *)
(* ===================================================================== *)

Local Open Scope N_scope.

Lemma is_plain_latin1 ch : is_plain ch = true -> (ch <? 256) = true.
Proof.
  unfold is_plain, in_range. intros H. apply N.ltb_lt.
  destruct (N.ltb_spec ch 128); [lia|]. simpl in H.
  apply andb_true_iff in H. destruct H as [_ H]. apply N.leb_le in H. lia.
Qed.

Lemma is_plain_lower ch : is_plain ch = true -> is_plain (lower_unit ch) = true.
Proof.
  unfold is_plain, lower_unit, is_upper_latin, in_range.
  destruct (N.ltb_spec ch 128); destruct (N.leb_spec 65 ch); destruct (N.leb_spec ch 90);
    destruct (N.leb_spec 192 ch); destruct (N.leb_spec ch 222); destruct (N.eqb_spec ch 215);
    destruct (N.leb_spec ch 255); simpl; intros Hp; try discriminate;
    repeat match goal with
           | |- context [N.ltb ?a ?b] => destruct (N.ltb_spec a b); try lia
           | |- context [N.leb ?a ?b] => destruct (N.leb_spec a b); try lia
           end; auto.
Qed.

Lemma plain_lower s : plain s -> plain (map lower_unit s).
Proof.
  unfold plain. intros H. apply Forall_map.
  eapply Forall_impl; [|exact H]. apply is_plain_lower.
Qed.

(** What a replacement yields is made of the input and of the replacement. *)
Lemma replace_from_Forall (P : N -> Prop) ic r by_ :
  Forall P by_ ->
  forall rest prev skip,
    Forall P rest -> Forall P (replace_from ic r by_ prev rest skip).
Proof.
  intros Hby. induction rest as [|ch rest IH]; intros prev skip H.
  - destruct skip; simpl; [|constructor].
    destruct (ways ic r prev []) as [|[[u r0] c] l]; [constructor|assumption].
  - inversion H as [|? ? Hch Hrest]; subst.
    destruct skip as [|k]; [|simpl; now apply IH].
    cbn [replace_from].
    destruct (ways ic r prev (ch :: rest)) as [|[[u r0] c] l].
    + constructor; auto.
    + destruct u; apply Forall_app; split; auto.
Qed.

(** What a way consumes and captures is made of the input. *)
Lemma ways_Forall (P : N -> Prop) ic r :
  forall prev rest u rest' c,
    Forall P rest ->
    In (u, rest', c) (ways ic r prev rest) ->
    Forall P u /\ Forall P rest' /\ Forall (fun kg => Forall P (snd kg)) c.
Proof.
  induction r; intros prev rest u rest' c HP Hin.
  - apply ways_empty in Hin. destruct Hin as (-> & -> & ->). auto.
  - apply ways_class in Hin. destruct Hin as (ch & -> & -> & -> & _).
    inversion HP; subst. auto.
  - apply ways_cat in Hin.
    destruct Hin as (u1 & rest1 & c1 & u2 & c2 & H1 & H2 & -> & ->).
    destruct (IHr1 _ _ _ _ _ HP H1) as (Hu1 & Hr1 & Hc1).
    destruct (IHr2 _ _ _ _ _ Hr1 H2) as (Hu2 & Hr2 & Hc2).
    repeat split; auto; apply Forall_app; auto.
  - apply ways_or in Hin. destruct Hin; eauto.
  - apply ways_quant in Hin. destruct Hin as (-> & -> & _).
    apply Forall_app in HP. destruct HP. auto.
  - apply ways_group in Hin. destruct Hin as (c1 & H1 & ->).
    destruct (IHr _ _ _ _ _ HP H1) as (Hu & Hr & Hc). auto.
  - apply ways_wordb in Hin. destruct Hin as (-> & -> & -> & _). auto.
  - apply ways_bos in Hin. destruct Hin as (-> & -> & -> & _). auto.
  - apply ways_eos in Hin. destruct Hin as (-> & -> & -> & _). auto.
Qed.

Lemma capture_Forall (P : N -> Prop) n c g :
  Forall (fun kg => Forall P (snd kg)) c -> capture n c = Some g -> Forall P g.
Proof.
  induction 1 as [|[k w] c Hw _ IH]; simpl; [discriminate|].
  destruct (Nat.eqb k n); [|exact IH]. intros E. inversion E; subst. exact Hw.
Qed.

Lemma exec_Forall (P : N -> Prop) ic r s m :
  Forall P s -> exec ic r s = Some m ->
  Forall P (whole m) /\ forall n g, group m n = Some g -> Forall P g.
Proof.
  intros HP He. apply exec_way in He.
  destruct He as (prev' & pre & suf & rest' & -> & Hin).
  apply Forall_app in HP. destruct HP as [_ HP].
  destruct (@ways_Forall P ic r _ _ _ _ _ HP Hin) as (Hu & _ & Hc).
  split; [exact Hu|]. intros n g. unfold group. now apply capture_Forall.
Qed.

Section AnyRuntime.

Context {R : Runtime}.

Lemma plain_forallb s : plain s -> forallb is_plain s = true /\ forallb (fun ch => ch <? 256) s = true.
Proof.
  unfold plain. intros H. split; apply forallb_Forall; [exact H|].
  eapply Forall_impl; [|exact H]. apply is_plain_latin1.
Qed.

Lemma toLowerCase_plain s : plain s -> toLowerCase s = map lower_unit s.
Proof. intros H. apply toLowerCase_latin1. now apply plain_forallb. Qed.

Lemma toLowerCase_of_plain o :
  (forall g, o = Some g -> plain g) -> toLowerCase_of o = @toLowerCase_of latin1 o.
Proof.
  destruct o as [g|]; [|reflexivity]. intros H. simpl.
  now rewrite toLowerCase_plain by auto.
Qed.

Lemma normKeepAccents_plain s :
  plain s -> normKeepAccents s = @normKeepAccents latin1 s /\ plain (normKeepAccents s).
Proof.
  intros H. unfold normKeepAccents.
  rewrite (@toLowerCase_plain s H).
  rewrite normalizeNFKC_plain by (apply plain_forallb; now apply plain_lower).
  split; [reflexivity|].
  apply Forall_trim. apply replace_from_Forall; [repeat constructor|now apply plain_lower].
Qed.

Lemma parseFrenchDatePhrase_of_plain s0 :
  plain s0 -> parseFrenchDatePhrase_of s0 = @parseFrenchDatePhrase_of latin1 s0.
Proof.
  intros H. unfold parseFrenchDatePhrase_of, cleaned.
  destruct (@normKeepAccents_plain s0 H) as [-> Hn].
  set (s := trim _).
  assert (Hs : plain s).
  { apply Forall_trim. apply replace_from_Forall; [repeat constructor|].
    exact Hn. }
  destruct (test false RE_ISO s); [reflexivity|].
  destruct (test false RE_DMY s); [reflexivity|].
  destruct (exec true RE_TEXTUAL s) as [m|] eqn:He; [|reflexivity].
  destruct (@exec_Forall _ _ _ _ _ Hs He) as [_ Hg].
  rewrite !toLowerCase_of_plain by (intros g; apply Hg). reflexivity.
Qed.

Lemma parseFrenchDatePhrase_plain fr :
  plain fr -> parseFrenchDatePhrase fr = @parseFrenchDatePhrase latin1 fr.
Proof.
  intros H. destruct fr; [reflexivity|]. now apply parseFrenchDatePhrase_of_plain.
Qed.

Lemma parseFrenchDatePhrase_opt_plain o :
  (forall g, o = Some g -> plain g) ->
  parseFrenchDatePhrase_opt o = @parseFrenchDatePhrase_opt latin1 o.
Proof.
  destruct o as [g|]; [|reflexivity]. intros H. simpl.
  now apply parseFrenchDatePhrase_plain; auto.
Qed.

(** On plain text [extractByAnchors] does not depend on the runtime. *)
Lemma extractByAnchors_plain text :
  plain text -> extractByAnchors text = @extractByAnchors latin1 text.
Proof.
  intros H. unfold extractByAnchors.
  destruct (@normKeepAccents_plain text H) as [-> Ht].
  set (t := @normKeepAccents latin1 text) in *. cbv zeta.
  assert (Hi : anchor_intent t = @anchor_intent latin1 t).
  { unfold anchor_intent. destruct (exec true RE_INTENT t) as [m|] eqn:He; [|reflexivity].
    destruct (@exec_Forall _ _ _ _ _ Ht He) as [_ Hg].
    now rewrite toLowerCase_of_plain by (intros g; apply Hg). }
  assert (Hg : anchor_gaine t = @anchor_gaine latin1 t).
  { unfold anchor_gaine. destruct (exec true RE_DE_GAINE t) as [m|] eqn:He; [|reflexivity].
    destruct (@exec_Forall _ _ _ _ _ Ht He) as [_ Hg].
    now rewrite toLowerCase_of_plain by (intros g; apply Hg). }
  assert (Htm : anchor_time t = @anchor_time latin1 t).
  { unfold anchor_time. destruct (exec true RE_DU_AU t) as [m|] eqn:He.
    - destruct (@exec_Forall _ _ _ _ _ Ht He) as [_ Hg'].
      now rewrite !parseFrenchDatePhrase_opt_plain by (intros g; apply Hg').
    - destruct (exec true RE_LE_DATE t) as [m|] eqn:He'; [|reflexivity].
      destruct (@exec_Forall _ _ _ _ _ Ht He') as [_ Hg'].
      now rewrite parseFrenchDatePhrase_opt_plain by (intros g; apply Hg'). }
  now rewrite Hi, Hg, Htm.
Qed.

End AnyRuntime.
Local Open Scope N_scope.

Ltac plain_text := apply forallb_Forall; reflexivity.

(** C1. On the second scenario of the specification,
    "les entrées de gab22 du 1er mars 2025 au 15 mars 2025", the range pattern
    captures "1er mars 2025" for A but only "15" for B: its last group is the
    lazy [(.+?)] before [\b], which stops at the first word boundary.  "15"
    resolves to [null], so [extractByAnchors] returns the intent and the
    gaine with the empty time [{}], although both date expressions of the
    phrase resolve when the resolver is given them whole. *)
Theorem range_scenario_loses_its_dates :
  forall R : Runtime,
    let text := js "les entrées de gab22 du 1er mars 2025 au 15 mars 2025" in
    extractByAnchors text =
      Normal (Some {| intent := Some entrees;
                      gaine := Some {| type := js "prefix"; value_ := js "gab22" |};
                      time := NoTime |}) /\
    option_map (fun m => (group m 1, group m 2)) (exec true RE_DU_AU (normKeepAccents text)) =
      Some (Some (js "1er mars 2025"), Some (js "15")) /\
    parseFrenchDatePhrase (js "15") = Normal None /\
    parseFrenchDatePhrase (js "1er mars 2025") = Normal (Some (js "2025-03-01")) /\
    parseFrenchDatePhrase (js "15 mars 2025") = Normal (Some (js "2025-03-15")).
Proof.
  intros R text. unfold text.
  rewrite (@extractByAnchors_plain R) by plain_text.
  rewrite !(@parseFrenchDatePhrase_plain R) by plain_text.
  destruct (@normKeepAccents_plain R (js "les entrées de gab22 du 1er mars 2025 au 15 mars 2025"))
    as [-> _]; [plain_text|].
  vm_compute. auto.
Qed.

(** [parseFrenchDatePhrase] accepts a numeric token whose two separators
    differ: [split] then yields two parts only, the year is [undefined], and
    the resolver returns the string "undefined-02-01" for "1/2-2025" (and
    "345-02-01" for the three-digit year of "1/2/345"): there it returns
    neither [null] nor a string of the shape [YYYY-MM-DD]. *)
Theorem resolver_mixed_separators :
  forall R : Runtime,
    parseFrenchDatePhrase (js "1/2-2025") = Normal (Some (js "undefined-02-01")) /\
    iso_shape (js "undefined-02-01") = false /\
    parseFrenchDatePhrase (js "1/2/345") = Normal (Some (js "345-02-01")) /\
    iso_shape (js "345-02-01") = false.
Proof.
  intros R. rewrite !(@parseFrenchDatePhrase_plain R) by plain_text.
  vm_compute. auto.
Qed.
(* ===================================================================== *)
(** ** The fallback intent *)
(* ===================================================================== *)

Local Open Scope N_scope.

Lemma startsWith_spec s p : startsWith s p = true <-> exists post, s = p ++ post.
Proof.
  revert s. induction p as [|a p IH]; intros s; simpl.
  - split; [intros _; now exists s|intros _; destruct s; reflexivity].
  - destruct s as [|b s]; simpl.
    + split; [discriminate|]. intros [post H]. discriminate.
    + rewrite andb_true_iff, IH, N.eqb_eq. split.
      * intros [-> [post ->]]. now exists post.
      * intros [post H]. inversion H; subst. eauto.
Qed.

Lemma includes_spec s p : includes s p = true <-> occurs p s.
Proof.
  unfold occurs. induction s as [|b s IH]; cbn [includes].
  - rewrite orb_false_r, startsWith_spec. split.
    + intros [post H]. exists [], post. exact H.
    + intros (pre & post & H). destruct pre; simpl in H; [eauto|discriminate].
  - rewrite orb_true_iff, startsWith_spec, IH. split.
    + intros [[post H]|(pre & post & H)].
      * exists [], post. exact H.
      * exists (b :: pre), post. simpl. now rewrite H.
    + intros (pre & post & H). destruct pre as [|c pre]; simpl in H.
      * left. eauto.
      * right. inversion H; subst. eauto.
Qed.

Lemma includes_not s p : includes s p = false <-> ~ occurs p s.
Proof.
  rewrite <- includes_spec. destruct (includes s p); split; congruence.
Qed.

(** C7, as the code has it.  [detectIntent] returns the first stem, entr
    before sort before stock, that occurs anywhere in the normalized text
    (lower-cased, accents kept), inside a word as well as at its start, and
    [null] when none occurs; two texts with the same lower-case form get the
    same answer. *)
Theorem detectIntent_substring :
  forall (R : Runtime) (t : str),
    let low := normKeepAccents t in
    (occurs (js "entr") low -> detectIntent t = Some entrees) /\
    (~ occurs (js "entr") low -> occurs (js "sort") low -> detectIntent t = Some sorties) /\
    (~ occurs (js "entr") low -> ~ occurs (js "sort") low -> occurs (js "stock") low ->
     detectIntent t = Some stock) /\
    (~ occurs (js "entr") low -> ~ occurs (js "sort") low -> ~ occurs (js "stock") low ->
     detectIntent t = None) /\
    (forall t', toLowerCase t' = toLowerCase t -> detectIntent t' = detectIntent t).
Proof.
  intros R t low. unfold detectIntent. fold low.
  repeat split.
  - intros H. apply includes_spec in H. now rewrite H.
  - intros H1 H2. apply includes_not in H1. apply includes_spec in H2. now rewrite H1, H2.
  - intros H1 H2 H3. apply includes_not in H1, H2. apply includes_spec in H3.
    now rewrite H1, H2, H3.
  - intros H1 H2 H3. apply includes_not in H1, H2, H3. now rewrite H1, H2, H3.
  - intros t' H. unfold low, normKeepAccents. now rewrite H.
Qed.

(** C7, as the specification words it, fails.  In "stock du centre gl90" no
    word starts with entr and one starts with stock, yet [detectIntent]
    answers entrees, for the entr inside "centre"; and "SÓRTIES" starts with
    sort once accents are folded, yet [detectIntent] answers [null]. *)
Lemma detectIntent_not_by_word_prefix :
  @detectIntent latin1 (js "stock du centre gl90") = Some entrees /\
  @detectIntent_by_word_prefix latin1 (js "stock du centre gl90") = Some stock /\
  @detectIntent latin1 (js "SÓRTIES") = None /\
  @detectIntent_by_word_prefix latin1 (js "SÓRTIES") = Some sorties.
Proof. vm_compute. auto. Qed.

(* ===================================================================== *)
(** ** The orchestrator *)
(* ===================================================================== *)

Section Decisions.

Context {R : Runtime}.
Variable sv : Services.

Lemma resolve_returns text phone : exists payload, resolve sv text phone = Normal payload.
Proof.
  unfold resolve, resolve_over.
  destruct (if USE_LLM_ANCHORS sv then llmAnchorsParse sv text else None); [eauto|].
  unfold buildAudioPayload_over.
  destruct (extractByAnchors_returns text) as [a ->]. cbn [bind].
  destruct a; [eauto|].
  destruct (extractGaine_returns text) as [g ->].
  destruct (extractTime_returns text) as [t ->]. simpl. eauto.
Qed.

End Decisions.

(** C8. [handleAudioSmart] settles on a payload (it does not throw), and what
    it does next depends on the presence of [intent] and [gaine] alone:
    without an intent it returns the intent prompt and posts nothing; with
    an intent and no gaine it returns the gaine prompt and posts nothing; with
    both it posts that payload to the router, whatever its [time] is, the
    empty [{}] included. *)
Theorem decision_by_intent_and_gaine :
  forall (R : Runtime) (sv : Services) (text phone : str),
    (exists payload,
        resolve sv text phone = Normal payload /\
        handleAudioSmart sv text phone = Normal (answer sv payload)) /\
    (forall (mode phone : str) (i : option Intent) (g : option Gaine) (t : Time),
        let payload := {| mode := mode; phone := phone;
                          query := {| intent := i; gaine := g; time := t |} |} in
        match i, g with
        | None, _ => answer sv payload = {| posted := []; reply := ASK_INTENT |}
        | Some _, None => answer sv payload = {| posted := []; reply := ASK_GAINE |}
        | Some _, Some _ => posted (answer sv payload) = [payload]
        end).
Proof.
  intros R sv text phone. split.
  - destruct (resolve_returns sv text phone) as [payload H].
    exists payload. split; [exact H|]. unfold handleAudioSmart. now rewrite H.
  - intros md ph i g t. destruct i, g; reflexivity.
Qed.

(** C9. When the language-model pass is enabled and returns a query, or
    else when [extractByAnchors] returns one, the payload is made of that
    query alone, field by field, and it is the same whatever the three
    fallback lookups are: they are not evaluated and nothing of theirs is
    merged in. *)
Theorem first_strategy_wins :
  forall (R : Runtime) (sv : Services)
         (lookIntent : str -> option Intent)
         (lookGaine : str -> completion (option Gaine))
         (lookTime : str -> completion Time)
         (text phone : str),
    match (if USE_LLM_ANCHORS sv then llmAnchorsParse sv text else None) with
    | Some llm =>
      resolve_over sv lookIntent lookGaine lookTime text phone = Normal (payload_of phone llm) /\
      resolve sv text phone = Normal (payload_of phone llm)
    | None =>
      match extractByAnchors text with
      | Normal (Some anchored) =>
        resolve_over sv lookIntent lookGaine lookTime text phone =
          Normal (payload_of phone anchored) /\
        resolve sv text phone = Normal (payload_of phone anchored) /\
        buildAudioPayload text phone = Normal (payload_of phone anchored)
      | _ => True
      end
    end.
Proof.
  intros R sv li lg lt text phone.
  unfold resolve, resolve_over, buildAudioPayload, buildAudioPayload_over, payload_of.
  destruct (if USE_LLM_ANCHORS sv then llmAnchorsParse sv text else None) as [[i g t]|].
  - split; reflexivity.
  - destruct (extractByAnchors text) as [[[i g t]|]|]; simpl; auto.
Qed.

(** A text on which the anchors answer, with fallback lookups that throw. *)
Example first_strategy_sample :
  let sv := {| USE_LLM_ANCHORS := false; chat := fun _ => ChatRejects;
               JSON_parse := fun _ => None; post := fun _ => PostFails |} in
  @resolve_over latin1 sv (fun _ => None) (fun _ => Throw) (fun _ => Throw)
                (js "les sorties de gsb11 le 01-10-2025") (js "212600000000") =
  Normal (payload_of (js "212600000000")
            {| intent := Some sorties;
               gaine := Some {| type := js "prefix"; value_ := js "gsb11" |};
               time := OnDate (js "2025-10-01") |}).
Proof. vm_compute. reflexivity. Qed.
(* ===================================================================== *)
(** ** The retry loop *)
(* ===================================================================== *)

Module RetryFacts.

Import Gate Retry.

Local Open Scope Z_scope.

Lemma delays_S w attempt d n :
  delays w attempt d (S n) =
  (backoff_base attempt + jitter w d) :: delays w (S attempt) (S d) n.
Proof.
  unfold delays. cbn [seq map]. rewrite !Nat.add_0_r. f_equal.
  rewrite <- seq_shift, map_map. apply map_ext. intros j.
  now rewrite !Nat.add_succ_r.
Qed.

Section Loop.

Variable cfg : Config.
Variable w : World.

Lemma loop_policy :
  forall fuel attempt m,
    (left cfg attempt <= fuel)%nat ->
    exists result m' k,
      transcribe_loop cfg w fuel attempt m = Some (result, m') /\
      calls m' = (calls m + k)%nat /\
      (k <= left cfg attempt)%nat /\
      (upto (Z.of_nat attempt) (MAX_RETRIES cfg) = true -> (1 <= k)%nat) /\
      (upto (Z.of_nat attempt) (MAX_RETRIES cfg) = false -> k = 0%nat) /\
      (forall j, (S j < k)%nat -> rate_limited (service w (calls m + j)) = true) /\
      (forall j, k = S j -> settles (service w (calls m + j)) result) /\
      (forall j, k = S j -> rate_limited (service w (calls m + j)) = true ->
                 MAX_RETRIES cfg = Int (Z.of_nat (attempt + j))) /\
      (k = 0%nat -> result = []) /\
      backoffs (trace m') = rev (delays w attempt (draws m) (pred k)) ++ backoffs (trace m).
Proof.
  induction fuel as [|fuel IH]; intros attempt m Hfuel.
  - unfold left in Hfuel. destruct (MAX_RETRIES cfg); lia.
  - cbn [transcribe_loop].
    destruct (upto (Z.of_nat attempt) (MAX_RETRIES cfg)) eqn:Hup.
    2:{ exists [], m, 0%nat. repeat split; auto; try lia; try discriminate. }
    assert (Hbk : backoffs (trace (waitForTranscribeSlot cfg w m)) = backoffs (trace m)).
    { unfold waitForTranscribeSlot. cbn [trace].
      destruct (slot_wait cfg _ _); reflexivity. }
    assert (Hcalls : calls (waitForTranscribeSlot cfg w m) = calls m) by reflexivity.
    assert (Hdraws : draws (waitForTranscribeSlot cfg w m) = draws m) by reflexivity.
    rewrite ?Hcalls.
    destruct (service w (calls m)) as [text|status message] eqn:Hsv.
    + eexists _, _, 1%nat. split; [reflexivity|]. cbn [calls trace backoffs pred].
      rewrite ?Hcalls, ?Hbk.
      repeat split; auto; try lia.
      * unfold left. destruct (MAX_RETRIES cfg); lia.
      * intros j Hj. inversion Hj; subst. rewrite Nat.add_0_r, Hsv.
        destruct text; reflexivity.
      * intros j Hj. inversion Hj; subst. rewrite Nat.add_0_r, Hsv. discriminate.
    + destruct (is429 status message && under (Z.of_nat attempt) (MAX_RETRIES cfg)) eqn:Hretry.
      * apply andb_true_iff in Hretry. destruct Hretry as [H429 Hunder].
        unfold under in Hunder. destruct (MAX_RETRIES cfg) as [| |n| |] eqn:Hmax; try discriminate.
        apply Z.ltb_lt in Hunder.
        match goal with
        | |- context [transcribe_loop cfg w fuel (S attempt) ?m3] =>
          destruct (IH (S attempt) m3) as
              (result & m' & k & Hrun & Hc & Hk & H1 & H0 & Hrate & Hlast & Hend & Hzero & Hb)
        end.
        { unfold left in Hfuel |- *. rewrite Hmax in Hfuel. rewrite Hmax. lia. }
        cbn [calls draws trace backoffs] in Hc, Hrate, Hlast, Hend, Hb.
        rewrite ?Hcalls in Hc, Hrate, Hlast, Hend. rewrite ?Hdraws, ?Hbk in Hb.
        assert (Hk1 : (1 <= k)%nat).
        { apply H1. unfold upto. apply Z.leb_le. lia. }
        exists result, m', (S k). rewrite Hrun.
        split; [reflexivity|].
        split; [lia|].
        split; [unfold left in Hk |- *; rewrite Hmax in Hk; rewrite Hmax; lia|].
        split; [intros _; lia|].
        split; [discriminate|].
        split.
        { intros j Hj. destruct j as [|j].
          - rewrite Nat.add_0_r, Hsv. exact H429.
          - replace (calls m + S j)%nat with (S (calls m) + j)%nat by lia.
            apply Hrate. lia. }
        split.
        { intros j Hj. inversion Hj; subst.
          destruct j as [|j]; [lia|].
          replace (calls m + S j)%nat with (S (calls m) + j)%nat by lia.
          now apply Hlast. }
        split.
        { intros j Hj Hr. inversion Hj; subst.
          destruct j as [|j]; [lia|].
          replace (calls m + S j)%nat with (S (calls m) + j)%nat in Hr by lia.
          rewrite (Hend j eq_refl Hr). do 2 f_equal. lia. }
        split; [discriminate|].
        cbn [pred]. rewrite Hb. destruct k as [|k]; [lia|]. cbn [pred].
        rewrite delays_S. cbn [rev]. now rewrite <- app_assoc.
      * eexists _, _, 1%nat. split; [reflexivity|]. cbn [calls trace backoffs pred].
        rewrite ?Hcalls, ?Hbk.
        repeat split; auto; try lia.
        -- unfold left. destruct (MAX_RETRIES cfg); lia.
        -- intros j Hj. inversion Hj; subst. rewrite Nat.add_0_r, Hsv. reflexivity.
        -- intros j Hj Hr. inversion Hj; subst. rewrite !Nat.add_0_r in *.
           rewrite Hsv in Hr. cbn [rate_limited] in Hr. rewrite Hr in Hretry.
           cbn [andb] in Hretry. unfold upto in Hup. unfold under in Hretry.
           destruct (MAX_RETRIES cfg) as [| |n| |]; try discriminate.
           apply Z.leb_le in Hup. apply Z.ltb_ge in Hretry. f_equal. lia.
Qed.

End Loop.

End RetryFacts.

Import Gate Retry RetryFacts.

(** C5. [transcribeAudio] returns every time (here with its result [Some],
    the loop never running out of fuel, and no exit that throws).  It makes
    [k] requests: at least one when [MAX_RETRIES] is an integer from 0 on, at
    most [MAX_RETRIES + 1], and none when [MAX_RETRIES] is negative or [NaN]
    (the strings of more than 308 digits, which [parseInt] reads as
    [Infinity], are left out of [Config]).  Every request but the last failed
    with a rate or quota failure, and each such failure with a retry left is
    followed by another request: a last request that failed that way is
    request number [MAX_RETRIES], the retries being used up.  A failure of
    another kind is the last request and the result is then the empty
    string; a last request that fails, a rate failure at the last allowed
    retry included, gives the empty string.  Between the requests the call
    slept, for the retry after attempt [j], [min(2000 * 2^j, 8000)]
    milliseconds plus the jitter drawn then. *)
Theorem transcribeAudio_retry_policy :
  forall (cfg : Config) (w : World) (m : Machine),
  exists (result : str) (m' : Machine) (k : nat),
    transcribeAudio cfg w m = Some (result, m') /\
    calls m' = (calls m + k)%nat /\
    match MAX_RETRIES cfg with
    | Int n => (Z.of_nat k <= Z.max 0 (n + 1))%Z /\ (0 <= n -> 1 <= Z.of_nat k)%Z
    | _ => k = 0%nat
    end /\
    (forall j, (S j < k)%nat -> rate_limited (service w (calls m + j)) = true) /\
    (forall j, (j < k)%nat -> rate_limited (service w (calls m + j)) = true ->
               (S j < k)%nat \/ MAX_RETRIES cfg = Int (Z.of_nat j)) /\
    (forall j, (j < k)%nat -> rate_limited (service w (calls m + j)) = false ->
               k = S j /\
               (forall status message,
                   service w (calls m + j) = Rejects status message -> result = [])) /\
    (forall j, k = S j -> settles (service w (calls m + j)) result) /\
    (k = 0%nat -> result = []) /\
    backoffs (trace m') =
      rev (map (fun j => (Z.min (2000 * 2 ^ Z.of_nat j) 8000 + jitter w (draws m + j))%Z)
               (seq 0 (pred k)))
      ++ backoffs (trace m).
Proof.
  intros cfg w m. unfold transcribeAudio.
  destruct (@loop_policy cfg w (enough cfg) 0 m) as
      (result & m' & k & Hrun & Hc & Hk & H1 & H0 & Hrate & Hlast & Hend & Hzero & Hb).
  { unfold left, enough. destruct (MAX_RETRIES cfg); simpl; lia. }
  exists result, m', k.
  split; [exact Hrun|]. split; [exact Hc|].
  split.
  { unfold left, upto in *. destruct (MAX_RETRIES cfg) as [| |n| |]; try (now apply H0).
    destruct (Z.leb_spec (Z.of_nat 0) n) as [Hn|Hn].
    - simpl in Hn. specialize (H1 eq_refl). lia.
    - rewrite (H0 eq_refl). simpl. lia. }
  split; [exact Hrate|].
  split.
  { intros j Hj Hr. destruct (Nat.eq_dec k (S j)) as [E|E]; [|left; lia].
    right. now apply (Hend j E Hr). }
  split.
  { intros j Hj Hnot.
    assert (Hkj : k = S j).
    { destruct (Nat.eq_dec k (S j)) as [E|E]; [exact E|].
      rewrite Hrate in Hnot by lia. discriminate. }
    split; [exact Hkj|]. intros status message Hs.
    specialize (Hlast j Hkj). rewrite Hs in Hlast. exact Hlast. }
  split; [exact Hlast|]. split; [exact Hzero|].
  rewrite Hb. reflexivity.
Qed.

(** A call that is throttled twice and then answered: three requests, the
    two backoff sleeps 2000 + 17 and 4000 + 203, the transcript trimmed. *)
Example transcribeAudio_sample :
  let cfg := {| API_MIN_INTERVAL := Int 1200; MAX_RETRIES := Int 3 |} in
  let w := {| clock := fun k => (1762041600000 + 1500 * Z.of_nat k)%Z;
              service := fun k => match k with
                                  | 0%nat => Rejects (Some 429%Z) (js "Too Many Requests")
                                  | 1%nat => Rejects None (js "Rate limit reached")
                                  | _ => Resolves (Some (js " stock gl90 "))
                                  end;
              jitter := fun k => match k with 0%nat => 17%Z | _ => 203%Z end |} in
  option_map (fun rm => (fst rm, rev (backoffs (trace (snd rm))), calls (snd rm)))
             (transcribeAudio cfg w start) =
  Some (js "stock gl90", [2017%Z; 4203%Z], 3%nat).
Proof. vm_compute. reflexivity. Qed.

(** C6. Three callers enter [waitForTranscribeSlot] in the same millisecond
    [T], as three voice messages handled at once do.  The first is granted
    at [T]; the second and the third both read the timestamp [T] the first
    one wrote, both sleep 1200 ms, and both are granted at [T + 1200]: two
    grants 0 ms apart, and three grants within 1200 ms instead of 2400. *)
Theorem overlapping_callers_share_a_slot :
  let cfg := {| API_MIN_INTERVAL := Int 1200; MAX_RETRIES := Int 3 |} in
  let T := 1762041600000%Z in
  exists g,
    schedule cfg (idle T)
             [Call 1 T; Call 2 T; Call 3 T; Wake 2 (T + 1200); Wake 3 (T + 1200)] = Some g /\
    grants g = [(3%nat, T + 1200); (2%nat, T + 1200); (1%nat, T)]%Z /\
    asleep g = [] /\
    ~ spaced 1200 (grants g).
Proof.
  intros cfg T. eexists. split; [vm_compute; reflexivity|].
  split; [reflexivity|]. split; [reflexivity|].
  simpl. unfold T. lia.
Qed.
(* ===================================================================== *)
(** ** What the resolver returns for tokens *)
(* ===================================================================== *)

Local Open Scope N_scope.

Lemma digit_cases ch :
  is_digit ch = true -> In ch [48; 49; 50; 51; 52; 53; 54; 55; 56; 57].
Proof.
  intros H. unfold is_digit, in_range in H. apply andb_true_iff in H.
  destruct H as [H1 H2]. apply N.leb_le in H1, H2.
  change [48; 49; 50; 51; 52; 53; 54; 55; 56; 57] with (map N.of_nat (seq 48 10)).
  apply in_map_iff. exists (N.to_nat ch). split; [apply N2Nat.id|].
  apply in_seq. lia.
Qed.

(** Splits a digit into its ten cases. *)
Ltac digit_enum H :=
  apply digit_cases in H; simpl In in H;
  repeat (destruct H as [H|H]; [subst|]); [..|destruct H].

Ltac split_digits :=
  repeat match goal with
         | H : _ && _ = true |- _ => apply andb_true_iff in H; destruct H
         end.

(** [pad2(parseInt(d, 10))] of one or two digits. *)
Lemma pad2_parseInt d :
  forallb is_digit d = true -> (1 <= List.length d <= 2)%nat ->
  pad2 (parseInt d) = padStart0 2 d.
Proof.
  intros Hd Hl. destruct d as [|a [|b [|c d]]]; simpl in Hl; try lia;
    cbn [forallb] in Hd; split_digits.
  - digit_enum H; reflexivity.
  - digit_enum H; digit_enum H0; reflexivity.
Qed.

(** A year of two digits is read as 20YY. *)
Lemma year_of_two y :
  forallb is_digit y = true -> List.length y = 2%nat ->
  below (parseInt y) 100 = true /\ String_ (add (parseInt y) 2000) = js "20" ++ y.
Proof.
  intros Hd Hl. destruct y as [|a [|b [|c y]]]; simpl in Hl; try lia.
  cbn [forallb] in Hd; split_digits.
  digit_enum H; digit_enum H0; split; reflexivity.
Qed.

Lemma split_app sep a b :
  Forall (fun ch => ch <> sep) a -> split sep (a ++ sep :: b) = a :: split sep b.
Proof.
  induction 1 as [|ch a Hch _ IH]; simpl.
  - now rewrite N.eqb_refl.
  - rewrite (proj2 (N.eqb_neq ch sep) Hch), IH. reflexivity.
Qed.

Lemma split_none sep a : Forall (fun ch => ch <> sep) a -> split sep a = [a].
Proof.
  induction 1 as [|ch a Hch _ IH]; simpl; [reflexivity|].
  rewrite (proj2 (N.eqb_neq ch sep) Hch), IH. reflexivity.
Qed.

Lemma includes_one_none ch s : Forall (fun x => x <> ch) s -> includes s [ch] = false.
Proof.
  induction 1 as [|x s Hx _ IH]; [reflexivity|].
  cbn [includes startsWith]. rewrite IH.
  rewrite (proj2 (N.eqb_neq ch x)) by congruence. reflexivity.
Qed.

Lemma digits_not ch l :
  is_digit ch = false -> forallb is_digit l = true -> Forall (fun x => x <> ch) l.
Proof.
  intros Hch Hl. apply forallb_Forall in Hl. eapply Forall_impl; [|exact Hl].
  intros x Hx ->. congruence.
Qed.

(** A run of digits before a unit that is none is determined by the string. *)
Lemma digit_run_unique a a' x x' r r' :
  forallb is_digit a = true -> forallb is_digit a' = true ->
  is_digit x = false -> is_digit x' = false ->
  a ++ x :: r = a' ++ x' :: r' -> a = a' /\ x = x' /\ r = r'.
Proof.
  revert a'. induction a as [|c a IH]; intros [|c' a'] Ha Ha' Hx Hx' E;
    simpl in *; inversion E; subst; split_digits; try congruence; auto.
  destruct (IH a') as (-> & -> & ->); auto.
Qed.

(** A year of four digits that does not start with 0 is kept as it is. *)
Lemma year_of_four y :
  forallb is_digit y = true -> List.length y = 4%nat -> hd 0 y <> 48 ->
  below (parseInt y) 100 = false /\ String_ (parseInt y) = y.
Proof.
  intros Hd Hl Hz. destruct y as [|a [|b [|c [|d [|e y]]]]]; simpl in Hl; try lia.
  cbn [forallb] in Hd; split_digits. simpl in Hz.
  digit_enum H; try congruence; digit_enum H0; digit_enum H1; digit_enum H2;
    split; reflexivity.
Qed.

Lemma iso_token s : test false RE_ISO s = true -> forallb token_unit s = true /\ s <> [].
Proof.
  unfold test, exec.
  destruct (search false RE_ISO None s 0) as [[i u c]|] eqn:E; [|discriminate].
  intros _. apply search_at in E. destruct E as (pre & suf & rest' & -> & Hin).
  cbn [whole groups] in Hin. unfold RE_ISO in Hin. unfold_quants Hin.
  change (lit "-") with (Class [ILit 45]) in Hin.
  ways_inv.
  match goal with H : after None _ = None |- _ => apply after_none in H; destruct H as [-> _] end.
  repeat match goal with
         | H : forallb (class_match _ [IDigit]) _ = true |- _ => rewrite forallb_digit in H
         | H : class_match false [ILit 45] _ = true |- _ => apply literal_match in H
         end.
  subst. simpl app. split.
  - repeat (rewrite forallb_app || cbn [forallb]).
    rewrite !digits_token by assumption. reflexivity.
  - match goal with
    | H : (4 <= List.length ?l)%nat |- ?l ++ _ <> [] => destruct l; simpl in H; [lia|discriminate]
    end.
Qed.

Section Resolver.

Context {R : Runtime}.

(** A canonical date is returned as it is. *)
Lemma resolver_canonical fr :
  test false RE_ISO fr = true -> parseFrenchDatePhrase fr = Normal (Some fr).
Proof.
  intros H. destruct (iso_token _ H) as [Htok Hne].
  unfold parseFrenchDatePhrase. destruct fr as [|ch fr']; [congruence|].
  unfold parseFrenchDatePhrase_of. rewrite (token_normalized _ Htok). now rewrite H.
Qed.

(** A numeric token with one kind of separator: the three parts. *)
Lemma numeric_parts d m y sep :
  forallb is_digit d = true -> forallb is_digit m = true -> forallb is_digit y = true ->
  sep = 47 \/ sep = 45 ->
  numeric_date (d ++ sep :: m ++ sep :: y) =
  ymd (if below (parseInt y) 100 then add (parseInt y) 2000 else parseInt y)
      (parseInt m) (parseInt d).
Proof.
  intros Hd Hm Hy Hsep. unfold numeric_date.
  assert (Hns : is_digit sep = false) by (destruct Hsep; subst; reflexivity).
  assert (Hsplit : split sep (d ++ sep :: m ++ sep :: y) = [d; m; y]).
  { rewrite split_app by now apply digits_not.
    rewrite split_app by now apply digits_not.
    rewrite split_none by now apply digits_not. reflexivity. }
  assert (Hinc : (if includes (d ++ sep :: m ++ sep :: y) (js "/") then 47 else 45) = sep).
  { change (js "/") with [47]. destruct Hsep; subst sep.
    - replace (includes _ [47]) with true; [reflexivity|].
      symmetry. apply includes_spec. exists d, (m ++ 47 :: y). reflexivity.
    - rewrite includes_one_none; [reflexivity|].
      apply Forall_app. split; [now apply (digits_not 47)|].
      constructor; [discriminate|].
      apply Forall_app. split; [now apply (digits_not 47)|].
      constructor; [discriminate|now apply (digits_not 47)]. }
  rewrite Hinc, Hsplit. reflexivity.
Qed.

End Resolver.

(** [parseFrenchDatePhrase] never throws; it returns [null] when none of
    the three forms matches the cleaned phrase; it returns a canonical
    [YYYY-MM-DD] input as it is; and it resolves a numeric token with one kind
    of separator to year, month and day joined by dashes, month and day padded
    to two digits, a two-digit year read as 20YY, without any check on the
    values of the day and the month. *)
Theorem resolver_total_unchecked :
  forall (R : Runtime) (fr : str),
    (exists r, parseFrenchDatePhrase fr = Normal r) /\
    (test false RE_ISO (cleaned fr) = false -> test false RE_DMY (cleaned fr) = false ->
     exec true RE_TEXTUAL (cleaned fr) = None -> parseFrenchDatePhrase fr = Normal None) /\
    (test false RE_ISO fr = true -> parseFrenchDatePhrase fr = Normal (Some fr)) /\
    (forall d m y sep,
        fr = d ++ sep :: m ++ sep :: y ->
        forallb is_digit d = true -> forallb is_digit m = true -> forallb is_digit y = true ->
        sep = 47 \/ sep = 45 ->
        test false RE_DMY fr = true ->
        (List.length y = 2%nat ->
         parseFrenchDatePhrase fr =
         Normal (Some (js "20" ++ y ++ js "-" ++ padStart0 2 m ++ js "-" ++ padStart0 2 d))) /\
        (List.length y = 4%nat -> hd 0 y <> 48 ->
         parseFrenchDatePhrase fr =
         Normal (Some (y ++ js "-" ++ padStart0 2 m ++ js "-" ++ padStart0 2 d)))).
Proof.
  intros R fr. split; [apply parseFrenchDatePhrase_returns|].
  split.
  { intros H1 H2 H3. destruct fr as [|ch fr']; [reflexivity|].
    unfold parseFrenchDatePhrase, parseFrenchDatePhrase_of. now rewrite H1, H2, H3. }
  split; [apply resolver_canonical|].
  intros d m y sep Hfr Hd Hm Hy Hsep Htest.
  assert (Hns : is_digit sep = false) by (destruct Hsep; subst sep; reflexivity).
  rewrite (@numeric_token_resolves R fr Htest).
  destruct (dmy_shape _ Htest) as
      (d1 & s1 & d2 & s2 & d3 & E & H1 & L1 & Hs1 & H2 & L2 & Hs2 & H3 & L3).
  rewrite Hfr in E.
  assert (Hn1 : is_digit s1 = false) by (destruct Hs1; subst s1; reflexivity).
  assert (Hn2 : is_digit s2 = false) by (destruct Hs2; subst s2; reflexivity).
  destruct (digit_run_unique d d1 sep s1 _ _ Hd H1 Hns Hn1 E) as (<- & <- & E').
  destruct (digit_run_unique m d2 sep s2 _ _ Hm H2 Hns Hn2 E') as (<- & _ & <-).
  rewrite Hfr, (numeric_parts _ _ _ Hd Hm Hy Hsep). unfold ymd.
  rewrite (pad2_parseInt _ Hd L1), (pad2_parseInt _ Hm L2).
  split.
  - intros Hl. destruct (year_of_two _ Hy Hl) as [-> ->]. now rewrite <- app_assoc.
  - intros Hl Hz. destruct (year_of_four _ Hy Hl Hz) as [-> ->]. reflexivity.
Qed.

(** Dates the resolver returns, out of range or not. *)
Example resolver_samples :
  @parseFrenchDatePhrase latin1 (js "99/99/2025") = Normal (Some (js "2025-99-99")) /\
  @parseFrenchDatePhrase latin1 (js "1-2-25") = Normal (Some (js "2025-02-01")) /\
  @parseFrenchDatePhrase latin1 (js "2025-13-45") = Normal (Some (js "2025-13-45")) /\
  @parseFrenchDatePhrase latin1 (js "le 1ER Août 2024") = Normal (Some (js "2024-08-01")) /\
  @parseFrenchDatePhrase latin1 (js "0 mars 2025") = Normal (Some (js "2025-03-00")) /\
  @parseFrenchDatePhrase latin1 (js "3 brumaire 2025") = Normal None /\
  @parseFrenchDatePhrase latin1 (js "demain") = Normal None.
Proof. vm_compute. repeat split. Qed.
(* ===================================================================== *)
(** ** The gate, one caller at a time *)
(* ===================================================================== *)

Module GateFacts.

Import Gate.

Local Open Scope Z_scope.

Lemma spaced_cons d id now l :
  spaced d l ->
  match l with (_, t) :: _ => t + d <= now | [] => True end ->
  spaced d ((id, now) :: l).
Proof. destruct l as [|[k t] l]; simpl; auto. Qed.

Lemma step_settled cfg d g s g' :
  API_MIN_INTERVAL cfg = Int d ->
  settled d g ->
  match s with Call _ _ => asleep g = [] | Wake _ _ => True end ->
  step cfg g s = Some g' ->
  settled d g'.
Proof.
  intros Hd (Hsp & Hlast & Hsleep) Hone Hstep.
  destruct s as [id now|id now]; simpl in Hstep.
  - destruct (now <? time_ g); [discriminate|].
    unfold slot_wait in Hstep. rewrite Hd in Hstep.
    destruct (Z.ltb_spec (now - last_at g) d) as [Hlt|Hge];
      inversion Hstep; subst; clear Hstep; unfold settled; cbn [grants last_at asleep].
    + split; [exact Hsp|]. split; [exact Hlast|].
      right. exists id, (now + (d - (now - last_at g))). rewrite Hone.
      split; [reflexivity|lia].
    + split.
      * apply spaced_cons; [exact Hsp|].
        destruct (grants g) as [|[k t] l]; [exact I|]. subst t. lia.
      * split; [reflexivity|]. left. exact Hone.
  - destruct (now <? time_ g); [discriminate|].
    destruct (due id (asleep g)) as [t|] eqn:Hdue; [|discriminate].
    destruct (Z.ltb_spec now t) as [Hlt|Hge]; [discriminate|].
    inversion Hstep; subst; clear Hstep. unfold settled; cbn [grants last_at asleep].
    destruct Hsleep as [Hnil|(id' & t' & Heq & Hle)].
    + rewrite Hnil in Hdue. discriminate.
    + rewrite Heq in Hdue |- *. simpl in Hdue.
      destruct (Nat.eqb id' id) eqn:Hid; [|discriminate].
      inversion Hdue; subst t'. split.
      * apply spaced_cons; [exact Hsp|].
        destruct (grants g) as [|[k t1] l]; [exact I|]. subst t1. lia.
      * split; [reflexivity|]. left. unfold without. simpl. now rewrite Hid.
Qed.

Lemma schedule_settled cfg d :
  API_MIN_INTERVAL cfg = Int d ->
  forall l g g',
    settled d g -> one_at_a_time cfg g l -> schedule cfg g l = Some g' -> settled d g'.
Proof.
  intros Hd. induction l as [|s l IH]; intros g g' Hg Hone Hrun; simpl in *.
  - inversion Hrun; subst. exact Hg.
  - destruct Hone as [Hs Hone].
    destruct (step cfg g s) as [g1|] eqn:Hstep; [|discriminate].
    eapply IH; [|exact Hone|exact Hrun].
    eapply step_settled; eauto.
Qed.

End GateFacts.

Import Gate GateFacts.

(** The gate does its work for callers that do not overlap: in a schedule
    where no caller enters [waitForTranscribeSlot] while another is asleep in
    it, consecutive grants are at least [API_MIN_INTERVAL] apart. *)
Theorem one_caller_at_a_time_spaced :
  forall (cfg : Gate.Config) (d t0 : Z) (l : list Gate.Step) (g : Gate.Shared),
    Gate.API_MIN_INTERVAL cfg = Int d ->
    one_at_a_time cfg (Gate.idle t0) l ->
    Gate.schedule cfg (Gate.idle t0) l = Some g ->
    Gate.spaced d (Gate.grants g).
Proof.
  intros cfg d t0 l g Hd Hone Hrun.
  destruct (@schedule_settled cfg d Hd l (Gate.idle t0) g) as (H & _); auto.
  unfold settled. simpl. auto.
Qed.

Lemma one_caller_at_a_time_spaced_witness :
  let cfg := {| Gate.API_MIN_INTERVAL := Int 1200; Gate.MAX_RETRIES := Int 3 |} in
  let T := 1762041600000%Z in
  Gate.spaced 1200
    (Gate.grants {| Gate.last_at := T + 2400; Gate.asleep := [];
                    Gate.grants := [(3%nat, T + 2400); (2%nat, T + 1200); (1%nat, T)]%Z;
                    Gate.time_ := T + 2400 |}).
Proof.
  intros cfg T.
  apply (@one_caller_at_a_time_spaced cfg 1200 T
           [Gate.Call 1 T; Gate.Call 2 T; Gate.Wake 2 (T + 1200);
            Gate.Call 3 (T + 1200); Gate.Wake 3 (T + 2400)]%Z).
  - reflexivity.
  - simpl. repeat split.
  - reflexivity.
Defined.

(* ===================================================================== *)
(** ** The range anchor: what its last group can hold *)
(* ===================================================================== *)

Local Open Scope N_scope.

Lemma flat_map_head {A B : Type} (f : A -> list B) :
  forall l x t, flat_map f l = x :: t -> exists a t', In a l /\ f a = x :: t'.
Proof.
  induction l as [|a l IH]; intros x t H; simpl in H; [discriminate|].
  destruct (f a) as [|y t'] eqn:E.
  - destruct (IH _ _ H) as (a' & t2 & Hin & Hf). exists a', t2. split; [now right|exact Hf].
  - simpl in H. inversion H; subst. exists a, t'. split; [now left|exact E].
Qed.

Lemma map_head {A B : Type} (f : A -> B) l x t :
  map f l = x :: t -> exists a t', l = a :: t' /\ x = f a.
Proof. destruct l as [|a l]; simpl; [discriminate|]. intros H. inversion H. eauto. Qed.

(** The first way through [r1 r2] ends with the first way through [r2]
    after some way through [r1]. *)
Lemma ways_cat_head ic r1 r2 prev rest u rest' c l :
  ways ic (Cat r1 r2) prev rest = (u, rest', c) :: l ->
  exists u1 rest1 c1 u2 c2 l2,
    In (u1, rest1, c1) (ways ic r1 prev rest) /\
    ways ic r2 (after prev u1) rest1 = (u2, rest', c2) :: l2 /\
    u = u1 ++ u2 /\ c = c2 ++ c1.
Proof.
  cbn [ways]. intros H. apply flat_map_head in H.
  destruct H as ([[u1 rest1] c1] & t' & Hin & H).
  apply map_head in H. destruct H as ([[u2 rest2] c2] & l2 & E & Hx).
  inversion Hx; subst. exists u1, rest1, c1, u2, c2, l2. auto.
Qed.

(** The first way of a search. *)
Lemma search_head ic r :
  forall rest prev i m,
    search ic r prev rest i = Some m ->
    exists pre suf rest' l,
      rest = pre ++ suf /\
      ways ic r (after prev pre) suf = (whole m, rest', groups m) :: l.
Proof.
  induction rest as [|ch rest IH]; intros prev i m Hs; simpl in Hs.
  - destruct (ways ic r prev []) as [|[[u r0] c] l] eqn:E; [discriminate|].
    inversion Hs; subst; simpl. exists [], [], r0, l. auto.
  - destruct (ways ic r prev (ch :: rest)) as [|[[u r0] c] l] eqn:E.
    + apply IH in Hs. destruct Hs as (pre & suf & rest' & l' & -> & Hw).
      exists (ch :: pre), suf, rest', l'. auto.
    + inversion Hs; subst; simpl. exists [], (ch :: rest), r0, l. auto.
Qed.

Lemma after_last (P : N -> Prop) prev w :
  w <> [] -> Forall P w -> exists x, after prev w = Some x /\ P x.
Proof.
  revert prev. induction w as [|a w IH]; intros prev Hne H; [congruence|].
  inversion H; subst. destruct w as [|b w].
  - exists a. auto.
  - simpl. apply (IH (Some a)); [discriminate|assumption].
Qed.

(** Extending a run of one kind up to the first word boundary keeps it of
    one kind. *)
Lemma first_boundary (p : N -> bool) (b : bool) prev :
  forall rest acc g r t,
    acc <> [] -> Forall (fun ch => is_word ch = b) acc ->
    flat_map (bounded prev) (map (fun wr => (acc ++ fst wr, snd wr)) (runs p None rest))
    = (g, r) :: t ->
    Forall (fun ch => is_word ch = b) g /\ g <> [].
Proof.
  induction rest as [|ch rest IH]; intros acc g r t Hne Hacc H.
  - cbn [runs map flat_map fst snd] in H. rewrite !app_nil_r in H.
    unfold bounded in H. cbn [fst snd] in H.
    destruct (xorb _ _); simpl in H; [|discriminate].
    inversion H; subst. auto.
  - cbn [runs map flat_map] in H. cbn [fst snd] in H.
    unfold bounded at 1 in H. cbn [fst snd] in H. rewrite app_nil_r in H.
    destruct (xorb (word_at (after prev acc)) (word_at (hd_error (ch :: rest)))) eqn:Hx.
    + simpl in H. inversion H; subst. auto.
    + cbn [app] in H.
      destruct (p ch && allows None) eqn:Hp; [|simpl in H; discriminate].
      rewrite map_map in H. cbn [fst snd less] in H.
      apply (IH (acc ++ [ch]) g r t).
      * destruct acc; discriminate.
      * apply Forall_app. split; [exact Hacc|]. constructor; [|constructor].
        destruct (after_last prev Hne Hacc) as (x & Hx1 & Hx2).
        rewrite Hx1 in Hx. simpl in Hx. rewrite Hx2 in Hx.
        destruct b, (is_word ch); simpl in Hx; congruence.
      * rewrite <- H. f_equal. apply map_ext. intros [w r']. simpl.
        now rewrite <- app_assoc.
Qed.

Lemma lazy_before_boundary ic cs n prev rest :
  ways ic (Cat (Group n (Quant cs 1 None false)) WordB) prev rest =
  map (fun wr => (fst wr ++ [], snd wr, [] ++ [(n, fst wr)]))
      (flat_map (bounded prev)
                (filter (long_enough 1) (runs (class_match ic cs) None rest))).
Proof.
  cbn [ways]. generalize (filter (long_enough 1) (runs (class_match ic cs) None rest)).
  induction l as [|[u r] l IH]; [reflexivity|].
  cbn [map flat_map]. rewrite IH. unfold bounded at 2. cbn [fst snd].
  destruct (xorb _ _); reflexivity.
Qed.

Lemma filter_nonempty_runs (X : list (str * str)) ch :
  filter (long_enough 1) (map (fun wr => (ch :: fst wr, snd wr)) X) =
  map (fun wr => ([ch] ++ fst wr, snd wr)) X.
Proof. induction X as [|[w r] X IH]; [reflexivity|]. simpl. now rewrite IH. Qed.

(** The last group of the range pattern, [(.+?)] before [\b], holds units
    of one kind: one word, or what stands between two words. *)
Lemma lazy_group_of_one_kind ic cs n prev rest g rest' c l :
  ways ic (Cat (Group n (Quant cs 1 None false)) WordB) prev rest = (g, rest', c) :: l ->
  exists g', g = g' ++ [] /\ c = [] ++ [(n, g')] /\ of_one_kind g' /\ g' <> [].
Proof.
  rewrite lazy_before_boundary. intros H.
  apply map_head in H. destruct H as ([g' r'] & t & H & Hx).
  cbn [fst snd] in Hx. inversion Hx; subst. clear Hx.
  exists g'. split; [reflexivity|]. split; [reflexivity|].
  destruct rest as [|ch rest]; [discriminate|].
  cbn [runs filter long_enough fst List.length Nat.leb] in H.
  destruct (class_match ic cs ch && allows None); [|discriminate].
  rewrite filter_nonempty_runs in H.
  destruct (@first_boundary (class_match ic cs) (is_word ch) prev rest [ch] g' r' t)
    as [Hg Hne]; auto; [discriminate|].
  split; [|exact Hne]. unfold of_one_kind.
  destruct (is_word ch); auto.
Qed.

(** Whatever the range pattern matches, its second group is of one kind. *)
Lemma range_second_group t m :
  exec true RE_DU_AU t = Some m ->
  exists g, group m 2 = Some g /\ of_one_kind g /\ g <> [].
Proof.
  unfold exec. intros H. apply search_head in H.
  destruct H as (pre & suf & rest' & l & _ & H).
  destruct m as [i u c]. cbn [whole groups] in H. unfold group. cbn [groups].
  unfold RE_DU_AU in H. unfold_quants H.
  repeat match goal with
         | H : ways _ (Cat _ (Cat _ _)) _ _ = _ :: _ |- _ =>
           apply ways_cat_head in H;
           destruct H as (? & ? & ? & ? & ? & ? & _ & H & ? & ?); subst
         end.
  apply lazy_group_of_one_kind in H. destruct H as (g & -> & -> & Hk & Hne).
  exists g. repeat rewrite capture_app. simpl. auto.
Qed.

Ltac units_crush :=
  repeat (match goal with
          | H : context [N.leb ?a ?b] |- _ => destruct (N.leb_spec a b)
          | H : context [N.eqb ?a ?b] |- _ => destruct (N.eqb_spec a b)
          | H : context [N.ltb ?a ?b] |- _ => destruct (N.ltb_spec a b)
          | |- context [N.leb ?a ?b] => destruct (N.leb_spec a b)
          | |- context [N.eqb ?a ?b] => destruct (N.eqb_spec a b)
          | |- context [N.ltb ?a ?b] => destruct (N.ltb_spec a b)
          end; cbn [andb orb negb] in *; try discriminate; try lia; try reflexivity).

Lemma is_word_range ch : is_word ch = true -> 48 <= ch <= 122.
Proof. unfold is_word, in_range. intros H. units_crush. Qed.

Lemma is_word_facts ch :
  is_word ch = true ->
  is_space ch = false /\ is_word (lower_unit ch) = true /\ is_plain ch = true /\
  ch <> 45 /\ ch <> 47.
Proof.
  intros H. pose proof (is_word_range _ H) as Hr.
  split; [unfold is_space, in_range; units_crush|].
  split; [revert H; unfold is_word, lower_unit, is_upper_latin, in_range; intros H; units_crush|].
  split; [unfold is_plain, in_range; units_crush|].
  split; lia.
Qed.

Lemma not_word_lower ch : is_word ch = false -> is_word (lower_unit ch) = false.
Proof.
  unfold is_word, lower_unit, is_upper_latin, in_range. intros H. units_crush.
Qed.

(** Each of the three forms needs a digit, and a unit that is in no word. *)
Lemma iso_needs s :
  test false RE_ISO s = true ->
  (exists x, In x s /\ is_digit x = true) /\ (exists x, In x s /\ is_word x = false).
Proof.
  unfold test, exec.
  destruct (search false RE_ISO None s 0) as [[i u c]|] eqn:E; [|discriminate].
  intros _. apply search_at in E. destruct E as (pre & suf & rest' & -> & Hin).
  cbn [whole groups] in Hin. unfold RE_ISO in Hin. unfold_quants Hin.
  change (lit "-") with (Class [ILit 45]) in Hin.
  ways_inv.
  repeat match goal with
         | H : forallb (class_match _ [IDigit]) _ = true |- _ => rewrite forallb_digit in H
         | H : class_match false [ILit 45] _ = true |- _ => apply literal_match in H
         end.
  subst.
  match goal with
  | H : (4 <= List.length ?l)%nat, Hd : forallb is_digit ?l = true |- _ =>
    destruct l as [|a l]; simpl in H; [lia|];
    cbn [forallb] in Hd; apply andb_true_iff in Hd; destruct Hd as [Ha _]
  end.
  split.
  - exists a. split; [|exact Ha]. apply in_or_app. right. simpl. auto.
  - exists 45. split; [|reflexivity].
    apply in_or_app. right. simpl. right. apply in_or_app. right. simpl. auto.
Qed.

Lemma dmy_needs s :
  test false RE_DMY s = true ->
  (exists x, In x s /\ is_digit x = true) /\ (exists x, In x s /\ is_word x = false).
Proof.
  intros H. apply dmy_shape in H.
  destruct H as (d1 & s1 & d2 & s2 & d3 & -> & H1 & L1 & Hs1 & _).
  destruct d1 as [|a d1]; simpl in L1; [lia|].
  cbn [forallb] in H1. apply andb_true_iff in H1. destruct H1 as [Ha _].
  split.
  - exists a. split; [now left|exact Ha].
  - exists s1. split; [|destruct Hs1; subst; reflexivity].
    apply in_or_app. right. now left.
Qed.

Lemma textual_needs s m :
  exec true RE_TEXTUAL s = Some m ->
  (exists x, In x s /\ is_digit x = true) /\ (exists x, In x s /\ is_word x = false).
Proof.
  intros E. destruct m as [i u c]. apply exec_way in E.
  destruct E as (prev' & pre & suf & rest' & -> & Hin).
  cbn [whole groups] in Hin. unfold RE_TEXTUAL in Hin. unfold_quants Hin.
  repeat match goal with
         | H : In _ (ways _ (Cat _ _) _ _) |- _ =>
           apply ways_cat in H; destruct H as (? & ? & ? & ? & ? & ? & H & ? & ?)
         | H : In _ (ways _ (Group _ (Quant _ _ _ _)) _ _) |- _ =>
           apply ways_group in H; destruct H as (? & H & ?)
         | H : In _ (ways _ (Quant _ _ _ _) _ _) |- _ =>
           apply ways_quant in H; destruct H as (? & ? & ? & ? & ?)
         | H : In _ (ways _ WordB _ _) |- _ =>
           apply ways_wordb in H; destruct H as (? & ? & ? & ?)
         end.
  repeat match goal with
         | H : In _ (ways _ (Group 1 _) _ _) |- _ => apply ways_prefix in H
         end.
  subst.
  repeat match goal with
         | H : forallb (class_match _ [IDigit]) _ = true |- _ => rewrite forallb_digit in H
         | H : forallb (class_match _ [ISpace]) _ = true |- _ => rewrite forallb_space in H
         end.
  split.
  - match goal with
    | H : (4 <= List.length ?l)%nat, Hd : forallb is_digit ?l = true |- _ =>
      destruct l as [|a l]; simpl in H; [lia|];
      cbn [forallb] in Hd; apply andb_true_iff in Hd; destruct Hd as [Ha _];
      exists a; split; [|exact Ha]
    end.
    rewrite !in_app_iff. simpl. auto 20.
  - match goal with
    | H : (1 <= List.length ?l)%nat, Hd : forallb is_space ?l = true |- _ =>
      destruct l as [|a l]; simpl in H; [lia|];
      cbn [forallb] in Hd; apply andb_true_iff in Hd; destruct Hd as [Ha _];
      exists a; split
    end.
    + rewrite !in_app_iff. simpl. auto 20.
    + destruct (is_word a) eqn:Hw; [|reflexivity].
      apply is_word_facts in Hw. destruct Hw as [Hs _]. congruence.
Qed.

Lemma digit_is_word ch : is_digit ch = true -> is_word ch = true.
Proof.
  unfold is_digit, is_word, in_range. intros H.
  apply andb_true_iff in H. destruct H as [H1 H2]. rewrite H1, H2.
  cbn [andb]. now rewrite orb_true_r.
Qed.

Section OneKind.

Context {R : Runtime}.

(** The phrase the three forms are tried on, for a plain string of word units:
    the string itself, in lower case. *)
Lemma cleaned_word_units g :
  Forall (fun ch => is_word ch = true) g -> cleaned g = map lower_unit g.
Proof.
  intros Hw.
  assert (Hp : plain g).
  { eapply Forall_impl; [|exact Hw]. intros ch H. now apply is_word_facts in H. }
  assert (Hs : Forall (fun ch => is_space ch = false) (map lower_unit g)).
  { apply Forall_map. eapply Forall_impl; [|exact Hw]. intros ch H.
    apply is_word_facts in H. destruct H as (_ & H & _).
    apply is_word_facts in H. tauto. }
  unfold cleaned, normKeepAccents.
  rewrite (toLowerCase_plain Hp).
  rewrite normalizeNFKC_plain by (apply plain_forallb; now apply plain_lower).
  unfold replace_all.
  rewrite (replace_spaces_id _ _ Hs), (trim_id Hs).
  now rewrite (replace_le_id _ _ Hs), (trim_id Hs).
Qed.

(** For a plain string without a word unit, that phrase has no word unit
    either. *)
Lemma cleaned_other_units g :
  plain g -> Forall (fun ch => is_word ch = false) g ->
  Forall (fun ch => is_word ch = false) (cleaned g).
Proof.
  intros Hp Hn. unfold cleaned, normKeepAccents.
  rewrite (toLowerCase_plain Hp).
  rewrite normalizeNFKC_plain by (apply plain_forallb; now apply plain_lower).
  unfold replace_all.
  apply Forall_trim. apply replace_from_Forall; [repeat constructor|].
  apply Forall_trim. apply replace_from_Forall; [repeat constructor|].
  apply Forall_map. eapply Forall_impl; [|exact Hn]. apply not_word_lower.
Qed.

(** No string of one kind resolves: every form needs a digit and a separator. *)
Lemma one_kind_no_date g :
  plain g -> of_one_kind g -> parseFrenchDatePhrase g = Normal None.
Proof.
  intros Hp Hk. destruct g as [|ch g]; [reflexivity|].
  cbn [parseFrenchDatePhrase]. unfold parseFrenchDatePhrase_of.
  set (s := cleaned (ch :: g)).
  assert (Hs : forall P : Prop,
             (exists x, In x s /\ is_digit x = true) /\
             (exists x, In x s /\ is_word x = false) -> P).
  { intros P [(x & Hx & Hd) (y & Hy & Hn)]. exfalso.
    destruct Hk as [Hw|Hw].
    - unfold s in Hy. rewrite (cleaned_word_units Hw) in Hy.
      apply in_map_iff in Hy. destruct Hy as (z & <- & Hz).
      rewrite Forall_forall in Hw. apply Hw in Hz.
      apply is_word_facts in Hz. destruct Hz as (_ & Hz & _). congruence.
    - pose proof (cleaned_other_units Hp Hw) as Hc. fold s in Hc.
      rewrite Forall_forall in Hc. apply Hc in Hx.
      apply digit_is_word in Hd. congruence. }
  destruct (test false RE_ISO s) eqn:E1; [apply Hs; now apply iso_needs|].
  destruct (test false RE_DMY s) eqn:E2; [apply Hs; now apply dmy_needs|].
  destruct (exec true RE_TEXTUAL s) as [m|] eqn:E3; [|reflexivity].
  apply Hs. eapply textual_needs; eauto.
Qed.

(** The anchors of a plain text yield a single date or none: the range anchor
    never yields a period. *)
Lemma anchor_time_no_range t :
  plain t ->
  forall tm, anchor_time t = Normal tm -> tm = NoTime \/ exists d, tm = OnDate d.
Proof.
  intros Hp tm. unfold anchor_time.
  destruct (exec true RE_DU_AU t) as [m|] eqn:He.
  - destruct (range_second_group _ He) as (g & Hg & Hk & _).
    destruct (@exec_Forall _ _ _ _ _ Hp He) as [_ Hpl].
    rewrite Hg. cbn [parseFrenchDatePhrase_opt].
    rewrite (one_kind_no_date (Hpl _ _ Hg) Hk).
    destruct (parseFrenchDatePhrase_opt (group m 1)) as [d1|]; simpl; [|discriminate].
    rewrite andb_false_r. intros E. inversion E. now left.
  - destruct (exec true RE_LE_DATE t) as [m|] eqn:He'.
    + destruct (parseFrenchDatePhrase_opt (group m 1)) as [d|]; simpl; [|discriminate].
      destruct (present d); intros E; inversion E; eauto.
    + intros E. inversion E. now left.
Qed.

End OneKind.

(** Whatever the runtime, the anchors of a plain text never yield a period
    [{from, to}]: the last group of the range pattern, the lazy [(.+?)] before
    [\b], holds units of one kind only (a run of word units, or a run of
    others), and no such string resolves to a date.  The time is a single date
    or [{}]. *)
Theorem anchors_yield_no_period :
  forall (R : Runtime) (text : str) (q : Query),
    plain text -> extractByAnchors text = Normal (Some q) ->
    time q = NoTime \/ exists d, time q = OnDate d.
Proof.
  intros R text q Hp. unfold extractByAnchors.
  destruct (@normKeepAccents_plain R text Hp) as [_ Ht].
  set (t := normKeepAccents text) in *. cbv zeta.
  destruct (anchor_intent t) as [i|]; simpl; [|discriminate].
  destruct (anchor_gaine t) as [g|]; simpl; [|discriminate].
  destruct (anchor_time t) as [tm|] eqn:Etm; simpl; [|discriminate].
  pose proof (anchor_time_no_range Ht Etm) as Hno.
  destruct i, g; intros E; inversion E; subst; exact Hno.
Qed.

Lemma anchors_yield_no_period_witness :
  let text := js "les entrées de gab22 du 1er mars 2025 au 15 mars 2025" in
  let q := {| intent := Some entrees;
              gaine := Some {| type := js "prefix"; value_ := js "gab22" |};
              time := NoTime |} in
  plain text /\ @extractByAnchors latin1 text = Normal (Some q) /\
  (time q = NoTime \/ exists d, time q = OnDate d).
Proof.
  intros text q.
  assert (Hp : plain text) by plain_text.
  assert (He : @extractByAnchors latin1 text = Normal (Some q)) by (vm_compute; reflexivity).
  split; [exact Hp|]. split; [exact He|].
  exact (@anchors_yield_no_period latin1 text q Hp He).
Defined.
(* ===================================================================== *)
(** ** The scenarios of the specification *)
(* ===================================================================== *)

Local Open Scope N_scope.

Section FallbackAnyRuntime.

Context {R : Runtime}.

Lemma detectIntent_plain t : plain t -> detectIntent t = @detectIntent latin1 t.
Proof.
  intros H. unfold detectIntent. now destruct (@normKeepAccents_plain R t H) as [-> _].
Qed.

Lemma extractGaine_plain t : plain t -> extractGaine t = @extractGaine latin1 t.
Proof.
  intros H. unfold extractGaine.
  destruct (exec true RE_GAINE t) as [m|] eqn:He; [|reflexivity].
  destruct (@exec_Forall _ _ _ _ _ H He) as [_ Hg].
  now rewrite toLowerCase_of_plain by (intros g; apply Hg).
Qed.

Lemma extractTime_plain t : plain t -> extractTime t = @extractTime latin1 t.
Proof.
  intros H. unfold extractTime.
  destruct (exec true RE_TEXTUAL t) as [m|] eqn:He; [|reflexivity].
  destruct (@exec_Forall _ _ _ _ _ H He) as [Hw _].
  now rewrite (@parseFrenchDatePhrase_plain R _ Hw).
Qed.

(** On plain text [buildAudioPayload] does not depend on the runtime. *)
Lemma buildAudioPayload_plain text phone :
  plain text -> buildAudioPayload text phone = @buildAudioPayload latin1 text phone.
Proof.
  intros H. unfold buildAudioPayload, buildAudioPayload_over.
  now rewrite (@extractByAnchors_plain R _ H), (detectIntent_plain H),
    (extractGaine_plain H), (extractTime_plain H).
Qed.

End FallbackAnyRuntime.

(** The first, third and fourth scenario of the specification, whatever the
    runtime.  "les sorties de gsb11 le 01-10-2025" is answered by the anchors,
    with the date 2025-10-01.  "stock gl90" has no anchor: the fallback
    lookups give stock, gl90 and the empty time.  "les sorties" has no gaine
    for the anchors nor for the fallback: [handleAudioSmart] then posts nothing
    and returns the gaine prompt. *)
Theorem scenarios_one_three_four :
  forall (R : Runtime) (sv : Services) (phone : str),
    extractByAnchors (js "les sorties de gsb11 le 01-10-2025") =
      Normal (Some {| intent := Some sorties; gaine := Some {| type := js "prefix"; value_ := js "gsb11" |};
                      time := OnDate (js "2025-10-01") |}) /\
    extractByAnchors (js "stock gl90") = Normal None /\
    buildAudioPayload (js "stock gl90") phone =
      Normal (payload_of phone {| intent := Some stock; gaine := Some {| type := js "prefix"; value_ := js "gl90" |};
                                  time := NoTime |}) /\
    extractByAnchors (js "les sorties") = Normal None /\
    buildAudioPayload (js "les sorties") phone =
      Normal (payload_of phone {| intent := Some sorties; gaine := None; time := NoTime |}) /\
    answer sv (payload_of phone {| intent := Some sorties; gaine := None; time := NoTime |}) =
      {| posted := []; reply := ASK_GAINE |}.
Proof.
  intros R sv phone.
  rewrite !(@extractByAnchors_plain R) by plain_text.
  rewrite !(@buildAudioPayload_plain R) by plain_text.
  unfold payload_of.
  repeat split; vm_compute; reflexivity.
Qed.

(* ===================================================================== *)
(** ** The matcher: how a way of matching is found *)
(* ===================================================================== *)

Module RegexFinds.

Local Open Scope N_scope.

(** A search answers with the first way at the first position that has one. *)
Lemma search_first ic r prev rest i u rest' c l :
  ways ic r prev rest = (u, rest', c) :: l -> search ic r prev rest i = Some (Found i u c).
Proof. intros H. destruct rest; simpl; now rewrite H. Qed.

Lemma search_here ic r prev rest i w :
  In w (ways ic r prev rest) ->
  exists u rest' c,
    search ic r prev rest i = Some (Found i u c) /\ In (u, rest', c) (ways ic r prev rest).
Proof.
  destruct (ways ic r prev rest) as [|[[u rest'] c] l] eqn:E; [intros []|]. intros _.
  exists u, rest', c. split; [eapply search_first; eauto|]. rewrite <- E.
  rewrite E. now left.
Qed.

(** Where no way starts, the search moves on. *)
Lemma search_next ic r prev ch rest i :
  ways ic r prev (ch :: rest) = [] ->
  search ic r prev (ch :: rest) i = search ic r (Some ch) rest (S i).
Proof. intros H. simpl. now rewrite H. Qed.

Lemma runs_complete (p : N -> bool) :
  forall u rest' hi,
    forallb p u = true ->
    match hi with Some h => (List.length u <= h)%nat | None => True end ->
    In (u, rest') (runs p hi (u ++ rest')).
Proof.
  induction u as [|ch u IH]; intros rest' hi Hp Hh.
  - destruct rest'; simpl; auto.
  - cbn [forallb] in Hp. apply andb_true_iff in Hp. destruct Hp as [Hch Hu].
    cbn [app runs]. right. rewrite Hch.
    assert (Ha : allows hi = true) by (destruct hi as [[|h]|]; simpl in *; auto; lia).
    rewrite Ha. cbn [andb].
    apply in_map_iff. exists (u, rest'). split; [reflexivity|].
    apply IH; [exact Hu|]. destruct hi as [h|]; simpl in *; auto; lia.
Qed.

Lemma in_quant ic cs lo hi greedy prev u rest' :
  forallb (class_match ic cs) u = true ->
  (lo <= List.length u)%nat ->
  match hi with Some h => (List.length u <= h)%nat | None => True end ->
  In (u, rest', []) (ways ic (Quant cs lo hi greedy) prev (u ++ rest')).
Proof.
  intros Hp Hlo Hhi. cbn [ways].
  apply in_map_iff. exists (u, rest'). split; [reflexivity|].
  assert (Hin : In (u, rest')
                   (filter (long_enough lo) (runs (class_match ic cs) hi (u ++ rest')))).
  { apply filter_In. split; [now apply runs_complete|].
    unfold long_enough. cbn [fst]. now apply Nat.leb_le. }
  destruct greedy; [now apply in_rev in Hin|exact Hin].
Qed.

Lemma in_class ic cs prev ch rest :
  class_match ic cs ch = true -> In ([ch], rest, []) (ways ic (Class cs) prev (ch :: rest)).
Proof. intros H. cbn [ways]. rewrite H. now left. Qed.

Lemma in_cat ic r1 r2 prev rest u1 rest1 c1 u2 rest2 c2 :
  In (u1, rest1, c1) (ways ic r1 prev rest) ->
  In (u2, rest2, c2) (ways ic r2 (after prev u1) rest1) ->
  In (u1 ++ u2, rest2, c2 ++ c1) (ways ic (Cat r1 r2) prev rest).
Proof.
  intros H1 H2. cbn [ways]. apply in_flat_map. exists (u1, rest1, c1).
  split; [exact H1|]. apply in_map_iff. exists (u2, rest2, c2). auto.
Qed.

Lemma in_group ic n r prev rest u rest' c :
  In (u, rest', c) (ways ic r prev rest) ->
  In (u, rest', (n, u) :: c) (ways ic (Group n r) prev rest).
Proof.
  intros H. cbn [ways]. apply in_map_iff. exists (u, rest', c). auto.
Qed.

Lemma in_wordb ic prev rest :
  xorb (word_at prev) (word_at (hd_error rest)) = true ->
  In ([], rest, []) (ways ic WordB prev rest).
Proof. intros H. cbn [ways]. rewrite H. now left. Qed.

Lemma in_bos ic rest : In ([], rest, []) (ways ic Bos None rest).
Proof. now left. Qed.

Lemma in_eos ic prev : In ([], [], []) (ways ic Eos prev []).
Proof. now left. Qed.

(** A literal word matches the units that canonicalize as its own do. *)
Lemma in_lit ic :
  forall l u prev rest,
    Forall2 (fun a ch => canonicalize ic a = canonicalize ic ch) l u ->
    In (u, rest, []) (ways ic (lit_units l) prev (u ++ rest)).
Proof.
  induction l as [|a l IH]; intros u prev rest H; inversion H as [|? ch ? u' Ha Hu]; subst.
  - now left.
  - assert (Hc : In ([ch], u' ++ rest, []) (ways ic (chr a) prev (ch :: u' ++ rest))).
    { apply in_class. unfold class_match, item_match. cbn [existsb].
      rewrite Ha, N.eqb_refl. reflexivity. }
    destruct l as [|b l].
    + inversion Hu; subst. exact Hc.
    + change (lit_units (a :: b :: l)) with (Cat (chr a) (lit_units (b :: l))).
      change (ch :: u') with ([ch] ++ u'). rewrite <- app_assoc.
      change (@nil (nat * str)) with (@nil (nat * str) ++ []).
      eapply in_cat; [exact Hc|]. now apply IH.
Qed.

Lemma in_lit_same ic l prev rest :
  In (l, rest, []) (ways ic (lit_units l) prev (l ++ rest)).
Proof.
  apply in_lit. induction l; constructor; auto.
Qed.

End RegexFinds.

Import RegexFinds.

(* ===================================================================== *)
(** ** Gaine values: the normal form *)
(* ===================================================================== *)

Local Open Scope N_scope.

(** Where no unit is white space or a dash, [/\s|-/g] finds no match. *)
Lemma replace_space_or_dash_id by_ :
  forall rest prev,
    Forall (fun ch => keeps ch = true) rest ->
    replace_from false RE_SPACE_OR_DASH by_ prev rest 0 = rest.
Proof.
  induction rest as [|ch rest IH]; intros prev H; [reflexivity|].
  inversion H as [|? ? Hch Hrest]; subst.
  cbn [replace_from].
  assert (E : ways false RE_SPACE_OR_DASH prev (ch :: rest) = []).
  { unfold keeps in Hch. apply negb_true_iff in Hch.
    change (units "-") with [ILit 45] in Hch.
    unfold class_match in Hch. cbn [existsb] in Hch.
    apply orb_false_iff in Hch. destruct Hch as [Hs Hd].
    unfold RE_SPACE_OR_DASH, s_. cbn [ways]. unfold class_match. cbn [existsb].
    rewrite Hs. cbn [orb app].
    change (lit "-") with (Class [ILit 45]). cbn [ways]. unfold class_match. cbn [existsb].
    now rewrite Hd. }
  rewrite E. now rewrite IH.
Qed.

Lemma gaine_value_kept v : gaine_value_ok v -> Forall (fun ch => keeps ch = true) v.
Proof.
  intros (p & ds & Hp & -> & _ & Hd).
  apply Forall_app. split; [|now apply digits_kept].
  unfold GAINE_PREFIXES in Hp. simpl In in Hp.
  destruct Hp as [<-|[<-|[<-|[<-|[]]]]]; repeat constructor.
Qed.

Lemma gaine_value_found v :
  gaine_value_ok v ->
  exists m, exec false RE_GAINE_VALUE v = Some m /\
            exists p ds, group m 1 = Some p /\ group m 2 = Some ds /\ v = p ++ ds.
Proof.
  intros (p & ds & Hp & -> & Hlen & Hd).
  assert (Hin : exists w, In w (ways false RE_GAINE_VALUE None (p ++ ds ++ []))).
  { assert (Hds : exists w, In w (ways false (Cat (Group 2 (between d_ 1 5)) Eos)
                                       (after None ([] ++ p)) (ds ++ []))).
    { eexists. eapply in_cat; [|apply in_eos].
      apply in_group. apply in_quant; [now rewrite forallb_digit|lia|lia]. }
    destruct Hds as [[[u2 rest2] c2] Hds].
    unfold RE_GAINE_VALUE. cbn [cat].
    unfold GAINE_PREFIXES in Hp. simpl In in Hp.
    destruct Hp as [<-|[<-|[<-|[<-|[]]]]]; eexists;
      (eapply in_cat; [apply in_bos|]); (eapply in_cat; [apply in_group|exact Hds]);
      cbn [alt ways]; rewrite !in_app_iff.
    - left. apply (@in_lit_same false (js "gsb")).
    - right. left. apply (@in_lit_same false (js "gab")).
    - right. right. left. apply (@in_lit_same false (js "gl")).
    - right. right. right. apply (@in_lit_same false (js "gs")). }
  rewrite app_nil_r in Hin. destruct Hin as [w Hin].
  destruct (@search_here false RE_GAINE_VALUE None (p ++ ds) 0%nat _ Hin)
    as (u & rest' & c & Hs & Hw).
  exists (Found 0 u c). split; [exact Hs|].
  clear Hin. pose proof (ways_prefix _ _ _ _ _ _ _ Hw) as Hpre.
  unfold RE_GAINE_VALUE in Hw. unfold_quants Hw.
  ways_inv.
  match goal with
  | H : In _ (ways false (alt _) _ _) |- _ =>
    apply prefix_ways in H; destruct H as (_ & ->)
  end.
  unfold group. simpl. simpl in Hpre. rewrite !app_nil_r in Hpre. eauto.
Qed.

Section Canonical.

Context {R : Runtime}.

(** A gaine value in normal form is a fixed point of [normalizeGaineValue]. *)
Lemma normalizeGaineValue_fixed v :
  gaine_value_ok v -> normalizeGaineValue (Some (JString v)) = Normal (Some v).
Proof.
  intros Hv. unfold normalizeGaineValue.
  assert (Hne : truthy_json (JString v) = true).
  { destruct Hv as (p & ds & Hp & -> & _).
    unfold GAINE_PREFIXES in Hp. simpl In in Hp.
    destruct Hp as [<-|[<-|[<-|[<-|[]]]]]; reflexivity. }
  rewrite Hne. cbn [ToString bind].
  rewrite (gaine_value_lowercase Hv). unfold replace_all.
  rewrite (replace_space_or_dash_id _ _ (gaine_value_kept Hv)).
  destruct (gaine_value_found Hv) as (m & -> & p & ds & -> & -> & Hv').
  simpl. now rewrite <- Hv'.
Qed.

End Canonical.

(** Every gaine value the extraction paths produce is in the normal form of
    the language-model pass, and normalizing is idempotent.  Whatever
    [normalizeGaineValue] returns, it returns again when given that string;
    so do the values of [extractByAnchors] and of [extractGaine], which
    [normalizeGaineValue] leaves as they are. *)
Theorem normalizeGaineValue_idempotent :
  forall (R : Runtime) (v : option json) (text : str),
    (forall x, normalizeGaineValue v = Normal (Some x) ->
               normalizeGaineValue (Some (JString x)) = Normal (Some x)) /\
    (forall q g, extractByAnchors text = Normal (Some q) -> gaine q = Some g ->
                 normalizeGaineValue (Some (JString (value_ g))) = Normal (Some (value_ g))) /\
    (forall g, extractGaine text = Normal (Some g) ->
               normalizeGaineValue (Some (JString (value_ g))) = Normal (Some (value_ g))).
Proof.
  intros R v text. split; [|split].
  - intros x Hx. apply normalizeGaineValue_fixed. eapply normalizeGaineValue_ok; eauto.
  - intros q g Hq Hg. apply normalizeGaineValue_fixed.
    destruct (extractByAnchors_shape text) as (i & g' & t & _ & Hag & _ & E).
    pose proof (anchor_gaine_ok (normKeepAccents_spaces text)) as Hok.
    rewrite Hag in Hok. rewrite Hq in E.
    destruct i, g'; inversion E; subst; simpl in Hg; inversion Hg; subst. exact Hok.
  - intros g Hg. apply normalizeGaineValue_fixed.
    pose proof (extractGaine_ok text) as H. rewrite Hg in H. exact H.
Qed.

(* ===================================================================== *)
(** ** Numeric tokens with two different separators *)
(* ===================================================================== *)

Local Open Scope N_scope.

(** [parseInt] stops at the first unit that is no digit. *)
Lemma digits_value_run d x r :
  forallb is_digit d = true -> is_digit x = false ->
  forall acc, digits_value acc (d ++ x :: r) = digits_value acc d.
Proof.
  intros Hd Hx. induction d as [|a d IH]; intros acc; simpl.
  - now rewrite Hx.
  - cbn [forallb] in Hd. apply andb_true_iff in Hd. destruct Hd as [Ha Hd].
    rewrite Ha. now apply IH.
Qed.

Lemma parseInt_run d x r :
  forallb is_digit d = true -> d <> [] -> is_digit x = false ->
  parseInt (d ++ x :: r) = parseInt d.
Proof.
  intros Hd Hne Hx. destruct d as [|a d]; [congruence|].
  cbn [forallb] in Hd. apply andb_true_iff in Hd. destruct Hd as [Ha Hd].
  assert (E : forall l, parseInt (a :: l) = Int (digits_value 0 (a :: l))).
  { intros l. pose proof (digit_cases _ Ha) as Hc. simpl In in Hc.
    repeat (destruct Hc as [<-|Hc]; [reflexivity|]). destruct Hc. }
  cbn [app]. rewrite !E.
  change (a :: d ++ x :: r) with ((a :: d) ++ x :: r).
  rewrite digits_value_run; [reflexivity| |exact Hx].
  cbn [forallb]. now rewrite Ha.
Qed.

(** The numeric pattern accepts two separators that differ. *)
Lemma dmy_accepts d s1 m s2 y :
  forallb is_digit d = true -> (1 <= List.length d <= 2)%nat ->
  forallb is_digit m = true -> (1 <= List.length m <= 2)%nat ->
  forallb is_digit y = true -> (2 <= List.length y <= 4)%nat ->
  s1 = 47 \/ s1 = 45 -> s2 = 47 \/ s2 = 45 ->
  test false RE_DMY (d ++ s1 :: m ++ s2 :: y) = true.
Proof.
  intros Hd Ld Hm Lm Hy Ly H1 H2.
  assert (Hsep : forall x, x = 47 \/ x = 45 -> class_match false (units "/-") x = true)
    by (intros x [->| ->]; reflexivity).
  assert (Hin : exists w, In w (ways false RE_DMY None (d ++ s1 :: m ++ s2 :: y ++ []))).
  { eexists. unfold RE_DMY. cbn [cat]. unfold between, slash_or_dash, d_.
    eapply in_cat; [apply in_bos|].
    eapply in_cat; [apply in_quant; [now rewrite forallb_digit|lia|lia]|].
    eapply in_cat; [apply in_class; now apply Hsep|].
    eapply in_cat; [apply in_quant; [now rewrite forallb_digit|lia|lia]|].
    eapply in_cat; [apply in_class; now apply Hsep|].
    eapply in_cat; [apply in_quant; [now rewrite forallb_digit|lia|lia]|].
    apply in_eos. }
  rewrite app_nil_r in Hin. destruct Hin as [w Hin].
  destruct (@search_here false RE_DMY None _ 0%nat _ Hin) as (u & rest' & c & Hs & _).
  unfold test, exec. now rewrite Hs.
Qed.

(** What begins with "undefined" has not the shape of a date. *)
Lemma undefined_no_date r : iso_shape (js "undefined-" ++ r) = false.
Proof.
  unfold iso_shape. destruct (test false RE_ISO _) eqn:E; [|reflexivity].
  apply iso_token in E. destruct E as [E _]. discriminate.
Qed.

(** The numeric pattern lets the two separators of a token differ, and a
    token with a slash is split at its slashes only.  Such a token has two
    parts, not three: the year is [undefined] and is written out as it is.
    With the slash first, "D/M-Y" resolves to "undefined-MM-DD"; with the
    dash first, "D-M/Y" resolves to "undefined-" followed by the digits after
    the slash read as a month, and the day.  Neither has the shape of a
    date. *)
Theorem mixed_separators_resolve_to_undefined :
  forall (R : Runtime) (d m y : str),
    forallb is_digit d = true -> (1 <= List.length d <= 2)%nat ->
    forallb is_digit m = true -> (1 <= List.length m <= 2)%nat ->
    forallb is_digit y = true -> (2 <= List.length y <= 4)%nat ->
    parseFrenchDatePhrase (d ++ js "/" ++ m ++ js "-" ++ y) =
      Normal (Some (js "undefined-" ++ padStart0 2 m ++ js "-" ++ padStart0 2 d)) /\
    parseFrenchDatePhrase (d ++ js "-" ++ m ++ js "/" ++ y) =
      Normal (Some (js "undefined-" ++ pad2 (parseInt y) ++ js "-" ++ padStart0 2 d)) /\
    forall r, iso_shape (js "undefined-" ++ r) = false.
Proof.
  intros R d m y Hd Ld Hm Lm Hy Ly.
  assert (Hnd : forall x, x = 47 \/ x = 45 -> is_digit x = false)
    by (intros x [->| ->]; reflexivity).
  assert (Hd47 := @digits_not 47 d eq_refl Hd).
  assert (Hm47 := @digits_not 47 m eq_refl Hm).
  assert (Hy47 := @digits_not 47 y eq_refl Hy).
  assert (Hdne : d <> []) by (destruct d; simpl in Ld; [lia|discriminate]).
  assert (Hmne : m <> []) by (destruct m; simpl in Lm; [lia|discriminate]).
  split; [|split; [|apply undefined_no_date]].
  - change (d ++ js "/" ++ m ++ js "-" ++ y) with (d ++ 47 :: m ++ 45 :: y).
    rewrite numeric_token_resolves by (apply dmy_accepts; auto).
    unfold numeric_date.
    assert (Hinc : includes (d ++ 47 :: m ++ 45 :: y) (js "/") = true).
    { apply includes_spec. exists d, (m ++ 45 :: y). reflexivity. }
    rewrite Hinc, split_app by exact Hd47.
    rewrite split_none.
    2:{ apply Forall_app. split; [exact Hm47|]. constructor; [discriminate|exact Hy47]. }
    cbn [map at_ nth below]. rewrite parseInt_run by auto.
    unfold ymd. rewrite !pad2_parseInt by auto. reflexivity.
  - change (d ++ js "-" ++ m ++ js "/" ++ y) with (d ++ 45 :: m ++ 47 :: y).
    rewrite numeric_token_resolves by (apply dmy_accepts; auto).
    unfold numeric_date.
    assert (Hinc : includes (d ++ 45 :: m ++ 47 :: y) (js "/") = true).
    { apply includes_spec. exists (d ++ 45 :: m), y. now rewrite <- app_assoc. }
    rewrite Hinc.
    replace (d ++ 45 :: m ++ 47 :: y) with ((d ++ 45 :: m) ++ 47 :: y)
      by now rewrite <- app_assoc.
    rewrite split_app.
    2:{ apply Forall_app. split; [exact Hd47|]. constructor; [discriminate|exact Hm47]. }
    rewrite split_none by exact Hy47.
    cbn [map at_ nth below]. rewrite parseInt_run by auto.
    unfold ymd. rewrite (pad2_parseInt _ Hd Ld). reflexivity.
Qed.

Lemma mixed_separators_resolve_to_undefined_witness :
  @parseFrenchDatePhrase latin1 (js "1/2-2025") = Normal (Some (js "undefined-02-01")) /\
  @parseFrenchDatePhrase latin1 (js "1-2/2025") = Normal (Some (js "undefined-2025-01")).
Proof.
  destruct (@mixed_separators_resolve_to_undefined latin1 (js "1") (js "2") (js "2025"))
    as (H1 & H2 & _); try reflexivity; try (simpl; lia).
  split; [exact H1|exact H2].
Defined.

(* ===================================================================== *)
(** ** The textual form of a date *)
(* ===================================================================== *)

Local Open Scope N_scope.

Lemma space_cases ch :
  is_space ch = true ->
  In ch [9; 10; 11; 12; 13; 32; 160; 5760; 8192; 8193; 8194; 8195; 8196; 8197; 8198; 8199;
         8200; 8201; 8202; 8232; 8233; 8239; 8287; 12288; 65279].
Proof.
  unfold is_space, in_range. intros H.
  repeat (apply orb_true_iff in H; destruct H as [H|H]);
    try (apply andb_true_iff in H; destruct H as [H1 H2]; apply N.leb_le in H1, H2);
    try apply N.eqb_eq in H; simpl In; lia.
Qed.

(** No white space matches a class [holds] none of the white-space units. *)
Lemma class_excludes_spaces ic cs :
  forallb (fun v => negb (class_match ic cs v))
          [9; 10; 11; 12; 13; 32; 160; 5760; 8192; 8193; 8194; 8195; 8196; 8197; 8198; 8199;
           8200; 8201; 8202; 8232; 8233; 8239; 8287; 12288; 65279] = true ->
  forall ch, class_match ic cs ch = true -> is_space ch = false.
Proof.
  intros Hall ch Hm. destruct (is_space ch) eqn:Hs; [|reflexivity].
  apply space_cases in Hs. rewrite forallb_forall in Hall.
  apply Hall in Hs. now rewrite Hm in Hs.
Qed.

(** A run of units up to the first one that is not of its kind is unique. *)
Lemma run_unique (p : N -> bool) a a' x x' r r' :
  forallb p a = true -> forallb p a' = true -> p x = false -> p x' = false ->
  a ++ x :: r = a' ++ x' :: r' -> a = a' /\ x = x' /\ r = r'.
Proof.
  revert a'. induction a as [|c a IH]; intros [|c' a'] Ha Ha' Hx Hx' E;
    simpl in *; inversion E; subst;
    repeat match goal with
           | H : _ && _ = true |- _ => apply andb_true_iff in H; destruct H
           end; try congruence; auto.
  destruct (IH a') as (-> & -> & ->); auto.
Qed.

Lemma day_ways prev rest u rest' c :
  In (u, rest', c) (ways true (alt [lit "1er"; lit "premier"; between d_ 1 2]) prev rest) ->
  forallb no_space u = true /\ u <> [] /\ c = [].
Proof.
  intros H. cbn [alt] in H. unfold between, d_ in H.
  assert (Hc : c = []) by (eapply ways_groupless; [|exact H]; reflexivity).
  split; [|split; [|exact Hc]].
  - change (lit "1er") with (cat [chr 49; chr 101; chr 114]) in H.
    change (lit "premier")
      with (cat [chr 112; chr 114; chr 101; chr 109; chr 105; chr 101; chr 114]) in H.
    cbn [cat] in H. unfold chr in H. ways_inv;
      repeat match goal with
             | H : class_match true [ILit _] _ = true |- _ =>
               apply class_excludes_spaces in H; [|reflexivity]
             end;
      cbn [forallb app]; unfold no_space;
      repeat match goal with H : is_space _ = false |- _ => rewrite H; clear H end;
      try reflexivity.
    apply forallb_forall. intros ch Hin.
    match goal with
    | H : forallb (class_match true [IDigit]) _ = true |- _ =>
      rewrite forallb_digit, forallb_forall in H; apply H in Hin
    end.
    apply digit_facts in Hin. destruct Hin as (_ & _ & -> & _). reflexivity.
  - change (lit "1er") with (cat [chr 49; chr 101; chr 114]) in H.
    change (lit "premier")
      with (cat [chr 112; chr 114; chr 101; chr 109; chr 105; chr 101; chr 114]) in H.
    cbn [cat] in H. unfold chr in H. ways_inv; try discriminate.
    match goal with
    | H : (1 <= List.length ?l)%nat |- ?l <> [] => destruct l; simpl in H; [lia|discriminate]
    end.
Qed.

Lemma month_ways prev rest u rest' c :
  In (u, rest', c) (ways true (Regex.plus month_letter) prev rest) ->
  forallb no_space u = true /\ u <> [] /\ c = [] /\ rest = u ++ rest'.
Proof.
  intros H. apply ways_quant in H. destruct H as (-> & -> & Hm & Hl & _).
  split; [|split; [|split]]; auto.
  - apply forallb_forall. intros ch Hin. rewrite forallb_forall in Hm.
    apply Hm in Hin. apply class_excludes_spaces in Hin; [|reflexivity].
    unfold no_space. now rewrite Hin.
  - destruct u; simpl in Hl; [lia|discriminate].
Qed.

Lemma class_match_ic cs ch : class_match false cs ch = true -> class_match true cs ch = true.
Proof.
  unfold class_match. induction cs as [|it cs IH]; simpl; [discriminate|].
  intros H. apply orb_true_iff in H. apply orb_true_iff. destruct H as [H|H]; [left|right; auto].
  destruct it; unfold item_match, canonicalize in *; auto.
  - apply N.eqb_eq in H. subst. apply N.eqb_refl.
  - cbn [andb] in H. rewrite orb_false_r in H. now rewrite H.
Qed.

Lemma day_word_facts d :
  day_word d ->
  forallb no_space d = true /\ d <> [] /\ forallb is_word d = true /\
  forallb (fun ch => ch <? 256) d = true /\ map lower_unit d = d /\
  exists w, forall prev rest,
      In (d, rest, w) (ways true (alt [lit "1er"; lit "premier"; between d_ 1 2]) prev (d ++ rest)).
Proof.
  intros [->|[->|[Hd Hl]]].
  - repeat split; try reflexivity; try discriminate.
    exists []. intros prev rest. cbn [alt ways]. rewrite !in_app_iff. left.
    apply (@in_lit_same true (js "1er")).
  - repeat split; try reflexivity; try discriminate.
    exists []. intros prev rest. cbn [alt ways]. rewrite !in_app_iff. right. left.
    apply (@in_lit_same true (js "premier")).
  - assert (Hf : Forall (fun ch => is_digit ch = true) d) by now apply forallb_Forall.
    split; [|split; [|split; [|split; [|split]]]].
    + apply forallb_Forall. eapply Forall_impl; [|exact Hf]. intros ch Hc.
      apply digit_facts in Hc. unfold no_space. destruct Hc as (_ & _ & -> & _). reflexivity.
    + destruct d; simpl in Hl; [lia|discriminate].
    + apply forallb_Forall. eapply Forall_impl; [|exact Hf]. apply digit_is_word.
    + apply forallb_Forall. eapply Forall_impl; [|exact Hf]. intros ch Hc.
      now apply digit_facts in Hc.
    + apply map_fixed. eapply Forall_impl; [|exact Hf]. intros ch Hc.
      now apply digit_facts in Hc.
    + exists []. intros prev rest. cbn [alt ways]. rewrite !in_app_iff. right. right.
      unfold between, d_. apply in_quant; [now rewrite forallb_digit|lia|lia].
Qed.

Lemma month_word_facts k :
  month_word k = true ->
  forallb no_space k = true /\ k <> [] /\
  forallb (fun ch => ch <? 256) k = true /\ map lower_unit k = k /\
  forallb (class_match true month_letter) k = true.
Proof.
  unfold month_word. intros H. apply andb_true_iff in H. destruct H as [Hm Hl].
  assert (Hf : Forall (fun ch => class_match false month_letter ch = true) k)
    by now apply forallb_Forall.
  assert (Hcases : forall ch, class_match false month_letter ch = true ->
                              97 <= ch <= 122 \/ In ch [233; 251; 244; 238; 249; 224; 226; 231]).
  { intros ch Hc. unfold class_match, month_letter in Hc. cbn [existsb] in Hc.
    apply orb_true_iff in Hc. destruct Hc as [Hc|Hc].
    - left. unfold item_match, in_range in Hc. cbn [andb orb] in Hc.
      rewrite orb_false_r in Hc.
      apply andb_true_iff in Hc. destruct Hc as [H1 H2]. apply N.leb_le in H1, H2. lia.
    - right. change (units "éûôîùàâç")
        with (map ILit [233; 251; 244; 238; 249; 224; 226; 231]) in Hc.
      apply existsb_exists in Hc. destruct Hc as (it & Hit & Hc).
      apply in_map_iff in Hit. destruct Hit as (a & <- & Ha).
      unfold item_match, canonicalize in Hc. apply N.eqb_eq in Hc. now subst. }
  assert (Hunit : forall ch, class_match false month_letter ch = true ->
                             no_space ch = true /\ (ch <? 256) = true /\ lower_unit ch = ch).
  { intros ch Hc. apply Hcases in Hc. destruct Hc as [Hc|Hc].
    - unfold no_space, is_space, lower_unit, is_upper_latin, in_range.
      repeat split; [| apply N.ltb_lt; lia |]; units_crush.
    - simpl In in Hc. repeat (destruct Hc as [<-|Hc]; [repeat split; reflexivity|]).
      destruct Hc. }
  split; [|split; [|split; [|split]]].
  - apply forallb_Forall. eapply Forall_impl; [|exact Hf]. intros ch Hc. now apply Hunit.
  - destruct k; [discriminate|discriminate].
  - apply forallb_Forall. eapply Forall_impl; [|exact Hf]. intros ch Hc. now apply Hunit.
  - apply map_fixed. eapply Forall_impl; [|exact Hf]. intros ch Hc. now apply Hunit.
  - apply forallb_Forall. eapply Forall_impl; [|exact Hf]. apply class_match_ic.
Qed.

Lemma spaces_before (sp r k r' : str) :
  forallb is_space sp = true -> forallb no_space k = true -> k <> [] ->
  sp ++ r = k ++ r' -> sp = [].
Proof.
  intros Hsp Hk Hne E. destruct sp as [|b sp]; [reflexivity|].
  destruct k as [|a k]; [congruence|]. simpl in E. inversion E; subst.
  cbn [forallb] in Hsp, Hk. unfold no_space in Hk.
  apply andb_true_iff in Hsp, Hk. destruct Hsp as [Hs _]. destruct Hk as [Hn _].
  rewrite Hs in Hn. discriminate.
Qed.

(** The textual pattern on "D M Y": the day, the month and the year are its
    three groups. *)
Lemma textual_found d k y :
  day_word d -> month_word k = true ->
  forallb is_digit y = true -> List.length y = 4%nat ->
  exists m, exec true RE_TEXTUAL (d ++ 32 :: k ++ 32 :: y) = Some m /\
            group m 1 = Some d /\ group m 2 = Some k /\ group m 3 = Some y.
Proof.
  intros Hd Hk Hy Ly.
  destruct (day_word_facts Hd) as (Hdn & Hdne & Hdw & _ & _ & wd & Hday).
  destruct (month_word_facts _ Hk) as (Hkn & Hkne & _ & _ & Hkm).
  assert (Hyw : Forall (fun ch => is_word ch = true) y).
  { apply forallb_Forall in Hy. eapply Forall_impl; [|exact Hy]. apply digit_is_word. }
  assert (Hyne : y <> []) by (destruct y; [discriminate|discriminate]).
  assert (Lk : (1 <= List.length k)%nat) by (destruct k; simpl; [now elim Hkne|lia]).
  assert (Hin : exists w, In w (ways true RE_TEXTUAL None (d ++ 32 :: k ++ 32 :: y))).
  { eexists. unfold RE_TEXTUAL. cbn [cat].
    eapply in_cat.
    { apply in_wordb. destruct d as [|a d']; [congruence|].
      cbn [forallb] in Hdw. apply andb_true_iff in Hdw. destruct Hdw as [Ha _].
      simpl. now rewrite Ha. }
    eapply in_cat; [apply in_group; apply Hday|].
    eapply in_cat; [apply (@in_quant true s_ 1 None true _ [32]); [reflexivity|simpl; lia|exact I]|].
    eapply in_cat; [apply in_group; apply (@in_quant true month_letter 1 None true _ k);
                    [exact Hkm|exact Lk|exact I]|].
    eapply in_cat; [apply (@in_quant true s_ 1 None true _ [32]); [reflexivity|simpl; lia|exact I]|].
    replace y with (y ++ []) at 1 by apply app_nil_r.
    eapply in_cat; [apply in_group; apply (@in_quant true d_ 4 (Some 4%nat) true _ y);
                    [now rewrite forallb_digit|lia|lia]|].
    apply in_wordb.
    match goal with
    | |- xorb (word_at (after ?p y)) _ = true =>
      destruct (@after_last (fun ch => is_word ch = true) p y Hyne Hyw) as (x & -> & Hx)
    end.
    simpl. now rewrite Hx. }
  destruct Hin as [w Hin].
  destruct (@search_here true RE_TEXTUAL None _ 0%nat _ Hin) as (u & rest' & c & Hs & Hw).
  exists (Found 0 u c). split; [exact Hs|]. clear Hin Hs w.
  unfold RE_TEXTUAL in Hw. cbn [cat] in Hw.
  repeat match goal with
         | H : In _ (ways _ (Cat _ _) _ _) |- _ =>
           apply ways_cat in H; destruct H as (? & ? & ? & ? & ? & ? & H & ? & ?)
         end.
  repeat match goal with
         | H : In _ (ways _ (Group _ _) _ _) |- _ =>
           apply ways_group in H; destruct H as (? & H & ?)
         end.
  repeat match goal with
         | H : In _ (ways _ WordB _ _) |- _ =>
           apply ways_wordb in H; destruct H as (? & ? & ? & _)
         end.
  subst.
  match goal with
  | H : In _ (ways _ (alt _) _ _) |- _ =>
    pose proof (ways_prefix _ _ _ _ _ _ _ H) as E1; apply day_ways in H;
      destruct H as (Hg1 & Hg1ne & ->)
  end.
  match goal with
  | H : In _ (ways _ (Regex.plus month_letter) _ _) |- _ =>
    apply month_ways in H; destruct H as (Hg2 & Hg2ne & -> & E3)
  end.
  match goal with
  | H : In _ (ways _ (digits 4) _ _) |- _ =>
    apply ways_quant in H; destruct H as (E5 & -> & Hg3 & Hl3 & Hl3')
  end.
  repeat match goal with
         | H : In _ (ways _ (Regex.plus s_) _ _) |- _ =>
           apply ways_quant in H; destruct H as (? & ? & ? & ? & _)
         end.
  subst. rewrite forallb_digit in Hg3.
  repeat match goal with
         | H : forallb (class_match _ s_) _ = true |- _ => unfold s_ in H; rewrite forallb_space in H
         end.
  match goal with
  | E : d ++ 32 :: k ++ 32 :: y = ?g1 ++ ?sp1 ++ ?g2 ++ ?sp2 ++ ?g3 ++ ?r |- _ =>
    rename g1 into g1'; rename sp1 into sp1'; rename g2 into g2'; rename sp2 into sp2';
      rename g3 into g3'; rename r into r'
  end.
  assert (Hyn : forallb no_space y = true).
  { apply forallb_Forall. apply forallb_Forall in Hy. eapply Forall_impl; [|exact Hy].
    intros ch Hc. apply digit_facts in Hc. unfold no_space.
    destruct Hc as (_ & _ & -> & _). reflexivity. }
  destruct sp1' as [|a sp1']; [simpl in *; lia|].
  destruct sp2' as [|b sp2']; [simpl in *; lia|].
  repeat match goal with
         | H : forallb is_space (_ :: _) = true |- _ =>
           cbn [forallb] in H; apply andb_true_iff in H; destruct H
         end.
  cbn [app] in E1.
  apply (@run_unique no_space) in E1; auto;
    [|unfold no_space; match goal with H : is_space a = true |- _ => now rewrite H end].
  destruct E1 as (<- & <- & E1).
  assert (sp1' = []) by (eapply spaces_before; [| |exact Hkne|symmetry; exact E1]; auto).
  subst sp1'. cbn [app] in E1.
  apply (@run_unique no_space) in E1; auto;
    [|unfold no_space; match goal with H : is_space b = true |- _ => now rewrite H end].
  destruct E1 as (<- & <- & E1).
  assert (sp2' = []).
  { apply (@spaces_before sp2' (g3' ++ r') y []); auto. now rewrite app_nil_r. }
  subst sp2'. cbn [app] in E1.
  assert (r' = []).
  { apply (f_equal (@List.length N)) in E1. rewrite length_app in E1.
    destruct r'; [reflexivity|simpl in E1; lia]. }
  subst r'. rewrite app_nil_r in E1. subst g3'.
  unfold group. simpl. auto.
Qed.

Lemma str_eqb_eq a b : str_eqb a b = true <-> a = b.
Proof. unfold str_eqb. destruct (list_eq_dec N.eq_dec a b); split; congruence. Qed.

Lemma own_months k mo : own k FR_MONTHS = Some mo -> (1 <= mo <= 12)%Z.
Proof.
  unfold own, FR_MONTHS.
  repeat match goal with
         | |- context [if str_eqb ?a k then _ else _] => destruct (str_eqb a k)
         end; intros E; inversion E; lia.
Qed.

(** Of the names an object inherits, a month word can only be "constructor". *)
Lemma month_word_inherits k :
  month_word k = true -> str_eqb k (js "constructor") = false -> Object_prototype k = Undefined.
Proof.
  intros Hk Hc. unfold Object_prototype. rewrite Hc.
  assert (Hno : forall n, month_word n = false -> str_eqb k n = false).
  { intros n Hn. destruct (str_eqb k n) eqn:E; [|reflexivity].
    apply str_eqb_eq in E. subst. congruence. }
  rewrite (Hno (js "__proto__")) by reflexivity.
  cbn [map existsb]. rewrite !Hno by reflexivity. reflexivity.
Qed.

Section Textual.

Context {R : Runtime}.

Lemma cleaned_nil : cleaned [] = [].
Proof.
  unfold cleaned, normKeepAccents.
  rewrite (toLowerCase_latin1 [] eq_refl). cbn [map].
  rewrite (normalizeNFKC_plain [] eq_refl). reflexivity.
Qed.

Lemma textual_resolves fr d k y :
  cleaned fr = d ++ 32 :: k ++ 32 :: y ->
  day_word d -> month_word k = true ->
  forallb is_digit y = true -> List.length y = 4%nat ->
  parseFrenchDatePhrase fr =
    if truthy (FR_MONTHS_at k)
    then Normal (Some (String_ (parseInt y) ++ js "-" ++ pad2 (FR_MONTHS_at k)
                         ++ js "-" ++ day_of d))
    else Normal None.
Proof.
  intros Hc Hd Hk Hy Ly.
  destruct fr as [|ch fr'].
  { rewrite cleaned_nil in Hc. destruct d; discriminate. }
  cbn [parseFrenchDatePhrase]. unfold parseFrenchDatePhrase_of. rewrite Hc.
  assert (Hnt : forallb token_unit (d ++ 32 :: k ++ 32 :: y) = false).
  { rewrite forallb_app. cbn [forallb].
    replace (token_unit 32) with false by reflexivity.
    cbn [andb]. now rewrite andb_false_r. }
  destruct (test false RE_ISO _) eqn:E1.
  { apply iso_token in E1. destruct E1 as [E1 _]. congruence. }
  destruct (test false RE_DMY _) eqn:E2.
  { apply dmy_token in E2. destruct E2 as [E2 _]. congruence. }
  destruct (@textual_found d k y Hd Hk Hy Ly) as (m & -> & -> & -> & ->).
  destruct (@day_word_facts d Hd) as (_ & _ & _ & Hd256 & Hdlow & _).
  destruct (month_word_facts _ Hk) as (_ & _ & Hk256 & Hklow & _).
  cbn [toLowerCase_of bind parseInt_opt].
  rewrite (toLowerCase_latin1 _ Hd256), (toLowerCase_latin1 _ Hk256), Hdlow, Hklow.
  assert (Hday : pad2 (parseInt (if str_eqb d (js "1er") || str_eqb d (js "premier")
                                 then js "1" else d)) = day_of d).
  { unfold day_of. destruct Hd as [->|[->|[Hdd Hdl]]]; [reflexivity|reflexivity|].
    assert (E : str_eqb d (js "1er") || str_eqb d (js "premier") = false).
    { apply orb_false_iff.
      split; (match goal with |- ?b = false => destruct b eqn:E end; [|reflexivity]);
        apply str_eqb_eq in E; subst d; discriminate. }
    rewrite E. now apply pad2_parseInt. }
  destruct (truthy (FR_MONTHS_at k)); [|reflexivity].
  unfold ymd. now rewrite Hday.
Qed.

End Textual.

(** On a phrase that is cleaned to "D M Y", a day word ("1er", "premier",
    one or two digits), a word of month letters and four digits, the resolver
    looks the word up in [FR_MONTHS].  For one of its fifteen names it
    returns the year as [parseInt] reads it (the four digits when the first
    is not 0), the month in two digits, 01 to 12, and the day in two digits,
    01 for "1er" and "premier".  For another word it returns [null], except
    for "constructor": that name is found on [Object.prototype], is truthy,
    and is written out as the month. *)
Theorem textual_form_resolves :
  forall (R : Runtime) (fr d k y : str),
    cleaned fr = d ++ js " " ++ k ++ js " " ++ y ->
    day_word d -> month_word k = true ->
    forallb is_digit y = true -> List.length y = 4%nat ->
    parseFrenchDatePhrase fr =
      Normal (match own k FR_MONTHS with
              | Some mo =>
                Some (String_ (parseInt y) ++ js "-" ++ pad2 (Int mo) ++ js "-" ++ day_of d)
              | None =>
                if str_eqb k (js "constructor")
                then Some (String_ (parseInt y) ++ js "-function Object() { [native code] }-"
                             ++ day_of d)
                else None
              end) /\
    (hd 0 y <> 48 -> String_ (parseInt y) = y) /\
    (forall mo, own k FR_MONTHS = Some mo -> (1 <= mo <= 12)%Z).
Proof.
  intros R fr d k y Hc Hd Hk Hy Ly.
  split; [|split; [intros H0; now apply year_of_four|apply own_months]].
  change (d ++ js " " ++ k ++ js " " ++ y) with (d ++ 32 :: k ++ 32 :: y) in Hc.
  rewrite (@textual_resolves R fr d k y Hc Hd Hk Hy Ly). unfold FR_MONTHS_at.
  destruct (own k FR_MONTHS) as [mo|] eqn:Eo.
  - apply own_months in Eo. unfold truthy.
    destruct (Z.eqb_spec mo 0); [lia|reflexivity].
  - destruct (str_eqb k (js "constructor")) eqn:Ec.
    + apply str_eqb_eq in Ec. subst k. cbn [Object_prototype truthy].
      replace (Object_prototype (js "constructor")) with (NativeFunction (js "Object"))
        by reflexivity.
      cbn [truthy]. reflexivity.
    + now rewrite (@month_word_inherits k Hk Ec).
Qed.

Lemma textual_form_resolves_witness :
  @parseFrenchDatePhrase latin1 (js "1ER   Août 2024") = Normal (Some (js "2024-08-01")) /\
  @parseFrenchDatePhrase latin1 (js "3 brumaire 2025") = Normal None /\
  @parseFrenchDatePhrase latin1 (js "2 constructor 2025") =
    Normal (Some (js "2025-function Object() { [native code] }-02")).
Proof.
  split; [|split].
  - destruct (@textual_form_resolves latin1 (js "1ER   Août 2024") (js "1er") (js "août")
                                     (js "2024")) as (H & _);
      [reflexivity|left; reflexivity|reflexivity|reflexivity|reflexivity|exact H].
  - destruct (@textual_form_resolves latin1 (js "3 brumaire 2025") (js "3") (js "brumaire")
                                     (js "2025")) as (H & _);
      [reflexivity|right; right; split; [reflexivity|simpl; lia]
       |reflexivity|reflexivity|reflexivity|exact H].
  - destruct (@textual_form_resolves latin1 (js "2 constructor 2025") (js "2")
                                     (js "constructor") (js "2025")) as (H & _);
      [reflexivity|right; right; split; [reflexivity|simpl; lia]
       |reflexivity|reflexivity|reflexivity|exact H].
Defined.

(* ===================================================================== *)
(** ** What [handleAudioSmart] posts and returns *)
(* ===================================================================== *)

Local Open Scope N_scope.

Section Replies.

Context {R : Runtime}.
Variable sv : Services.

Lemma resolve_payload text number p :
  resolve sv text number = Normal p -> mode p = js "audio_nlp" /\ phone p = number.
Proof.
  unfold resolve, resolve_over, buildAudioPayload_over.
  destruct (if USE_LLM_ANCHORS sv then llmAnchorsParse sv text else None) as [q|].
  - intros E. inversion E. auto.
  - destruct (extractByAnchors text) as [[a|]|]; cbn [bind]; try discriminate.
    + intros E. inversion E. auto.
    + destruct (extractGaine text) as [g|]; cbn [bind]; [|discriminate].
      destruct (extractTime text) as [t|]; cbn [bind]; [|discriminate].
      intros E. inversion E. auto.
Qed.

Lemma trim_nil_or s : trim s = [] \/ exists ch s', trim s = ch :: s'.
Proof. destruct (trim s) as [|ch s']; eauto. Qed.

End Replies.

(** [handleAudioSmart] returns a reply that is never empty: one of its four
    fixed messages, or the router's reply trimmed when something is left of
    it.  It posts at most one payload, always with mode "audio_nlp", the
    caller's phone, an intent and a gaine; a payload that lacks one of the two
    is never sent to the router. *)
Theorem handleAudioSmart_replies :
  forall (R : Runtime) (sv : Services) (text number : str),
  exists h,
    handleAudioSmart sv text number = Normal h /\
    reply h <> [] /\
    (In (reply h) [ASK_INTENT; ASK_GAINE; NO_CLEAR_REPLY; SERVER_TROUBLE] \/
     exists r p, posted h = [p] /\ post sv p = PostReplies r /\ reply h = trim r) /\
    (posted h = [] \/
     exists p i g,
       posted h = [p] /\ mode p = js "audio_nlp" /\ phone p = number /\
       intent (query p) = Some i /\ gaine (query p) = Some g).
Proof.
  intros R sv text number.
  destruct (resolve_returns sv text number) as [p Hp].
  destruct (resolve_payload sv text number Hp) as [Hm Hph].
  exists (answer sv p). split; [unfold handleAudioSmart; now rewrite Hp|].
  unfold answer.
  destruct (intent (query p)) as [i|] eqn:Ei.
  2:{ cbn [reply posted]. split; [discriminate|].
      split; [left; left; reflexivity|now left]. }
  destruct (gaine (query p)) as [g|] eqn:Eg.
  2:{ cbn [reply posted]. split; [discriminate|].
      split; [left; right; left; reflexivity|now left]. }
  cbn [reply posted].
  split; [|split].
  - destruct (post sv p) as [|r]; [discriminate|].
    destruct (trim r) eqn:Et; discriminate.
  - destruct (post sv p) as [|r] eqn:Epost;
      [left; right; right; right; left; reflexivity|].
    destruct (trim r) as [|ch s'] eqn:Et; [left; right; right; left; reflexivity|].
    right. exists r, p. rewrite Et. auto.
  - right. exists p, i, g. auto.
Qed.

(* ===================================================================== *)
(** ** The time of the language-model pass *)
(* ===================================================================== *)

Section TimeOfModel.

Context {R : Runtime}.

(** The second call of the resolver in [normalizeTime],
    [parseFrenchDatePhrase(String(single))], never changes the outcome. *)
Lemma second_call_redundant (single : option json) :
  truthy_opt single = true ->
  (iso1 <- parseFrenchDatePhrase_any single ;;
   iso <- (if present iso1 then Normal iso1
           else s0 <- match single with Some v => ToString v | None => Normal [] end ;;
                parseFrenchDatePhrase s0) ;;
   Normal (if present iso then OnDate (show iso) else NoTime)) =
  (iso1 <- parseFrenchDatePhrase_any single ;;
   Normal (if present iso1 then OnDate (show iso1) else NoTime)).
Proof.
  destruct single as [v|]; [|discriminate]. cbn [truthy_opt parseFrenchDatePhrase_any].
  intros Hv. rewrite Hv.
  destruct (ToString v) as [s0|]; cbn [bind]; [|reflexivity].
  destruct (parseFrenchDatePhrase_of s0) as [iso1|] eqn:E1; cbn [bind]; [|reflexivity].
  destruct (present iso1) eqn:Hp; cbn [bind]; [now rewrite Hp|].
  destruct s0 as [|ch s0']; cbn [parseFrenchDatePhrase bind]; [reflexivity|].
  rewrite E1. cbn [bind]. now rewrite Hp.
Qed.

End TimeOfModel.

(** [normalizeTime] on the [time] of the model's answer.  A truthy [date],
    or else a truthy [single], decides alone: the result is that date when it
    resolves and [{}] when it does not, whatever [from] and [to] hold, and the
    second call of the resolver on [String(single)] changes nothing.  A period
    is returned only without such a field, from a [from] and a [to] that both
    resolve; it is then made of the two resolved dates. *)
Theorem normalizeTime_single_first :
  forall (R : Runtime) (t : json),
    let single := or_else (prop_opt (Some t) (js "date")) (prop_opt (Some t) (js "single")) in
    (truthy_opt single = true ->
     normalizeTime t =
       (iso <- parseFrenchDatePhrase_any single ;;
        Normal (if present iso then OnDate (show iso) else NoTime)) /\
     forall f to', normalizeTime t <> Normal (FromTo f to')) /\
    (forall f to',
        normalizeTime t = Normal (FromTo f to') ->
        truthy_opt single = false /\ f <> [] /\ to' <> [] /\
        parseFrenchDatePhrase_any (prop_opt (Some t) (js "from")) = Normal (Some f) /\
        parseFrenchDatePhrase_any (prop_opt (Some t) (js "to")) = Normal (Some to')).
Proof.
  intros R t single.
  assert (Hsingle : truthy_opt single = true ->
                    normalizeTime t =
                    (iso <- parseFrenchDatePhrase_any single ;;
                     Normal (if present iso then OnDate (show iso) else NoTime))).
  { intros Hs. unfold normalizeTime. fold single.
    assert (Ht : negb (truthy_json t) || negb (is_object t) = false).
    { unfold single, or_else, prop_opt in Hs.
      destruct t; try (simpl in Hs; discriminate). reflexivity. }
    rewrite Ht, Hs. now apply second_call_redundant. }
  assert (Hno : truthy_opt single = true -> forall f to', normalizeTime t <> Normal (FromTo f to')).
  { intros Hs f to'. rewrite (Hsingle Hs).
    destruct (parseFrenchDatePhrase_any single) as [iso|]; cbn [bind]; [|discriminate].
    destruct (present iso); discriminate. }
  split; [intros Hs; split; [now apply Hsingle|now apply Hno]|].
  intros f to' H.
  destruct (truthy_opt single) eqn:Hs; [exfalso; now apply (Hno eq_refl f to')|].
  split; [reflexivity|].
  unfold normalizeTime in H. fold single in H. rewrite Hs in H.
  destruct (negb (truthy_json t) || negb (is_object t)); [discriminate|].
  destruct (truthy_opt (prop_opt (Some t) (js "from")) && truthy_opt (prop_opt (Some t) (js "to")));
    [|discriminate].
  destruct (parseFrenchDatePhrase_any (prop_opt (Some t) (js "from"))) as [a|];
    cbn [bind] in H; [|discriminate].
  destruct (parseFrenchDatePhrase_any (prop_opt (Some t) (js "to"))) as [b|];
    cbn [bind] in H; [|discriminate].
  destruct a as [[|x a]|], b as [[|z b]|]; cbn [present andb show] in H; inversion H; subst.
  repeat split; discriminate.
Qed.

(** A date beside a period: the date is returned; a date that does not
    resolve hides the period; a period of which one end does not resolve is
    dropped. *)
Example normalizeTime_samples :
  let period := [(js "from", JString (js "1/3/2025")); (js "to", JString (js "15 mars 2025"))] in
  @normalizeTime latin1 (JObject period) = Normal (FromTo (js "2025-03-01") (js "2025-03-15")) /\
  @normalizeTime latin1 (JObject ((js "date", JString (js "2025-02-01")) :: period)) =
    Normal (OnDate (js "2025-02-01")) /\
  @normalizeTime latin1 (JObject ((js "single", JString (js "demain")) :: period)) =
    Normal NoTime /\
  @normalizeTime latin1 (JObject [(js "from", JString (js "1/3/2025"));
                                  (js "to", JString (js "bientôt"))]) = Normal NoTime.
Proof. vm_compute. auto. Qed.

(* ===================================================================== *)
(** ** Normalization: what [normKeepAccents] computes *)
(* ===================================================================== *)

Local Open Scope N_scope.

Lemma span_spaces_app s : s = fst (span_spaces s) ++ snd (span_spaces s).
Proof.
  induction s as [|ch s IH]; [reflexivity|]. simpl.
  destruct (is_space ch); simpl; [now rewrite <- IH|reflexivity].
Qed.

Lemma span_spaces_run s : forallb is_space (fst (span_spaces s)) = true.
Proof.
  induction s as [|ch s IH]; [reflexivity|]. simpl.
  destruct (is_space ch) eqn:E; simpl; [now rewrite E|reflexivity].
Qed.

Lemma span_spaces_stop s :
  match snd (span_spaces s) with ch :: _ => is_space ch = false | [] => True end.
Proof.
  induction s as [|ch s IH]; [exact I|]. simpl.
  destruct (is_space ch) eqn:E; simpl; [exact IH|exact E].
Qed.

(** The runs of white space, longest first, start with the longest one. *)
Lemma runs_longest s :
  exists l, rev (runs is_space None s) = span_spaces s :: l.
Proof.
  induction s as [|ch s IH].
  - exists []. reflexivity.
  - cbn [runs span_spaces]. destruct (is_space ch) eqn:E; cbn [andb allows less rev].
    + destruct IH as [l IH]. rewrite <- (map_rev _ (runs is_space None s)). rewrite IH.
      cbn [map app fst snd].
      eexists. reflexivity.
    + exists []. reflexivity.
Qed.

(** The first way of [\s+] at a white-space unit takes the whole run. *)
Lemma spaces_first_way prev ch rest :
  is_space ch = true ->
  exists l, ways false RE_SPACES prev (ch :: rest) =
            (ch :: fst (span_spaces rest), snd (span_spaces rest), []) :: l.
Proof.
  intros E. unfold RE_SPACES, Regex.plus, s_. cbn [ways runs].
  rewrite space_match, E. cbn [andb allows less filter long_enough fst List.length Nat.leb].
  rewrite filter_nonempty_runs.
  replace (runs (class_match false [ISpace]) None rest) with (runs is_space None rest).
  2:{ clear. generalize (@None nat). induction rest as [|c rest IH]; intros hi; [reflexivity|].
      cbn [runs]. rewrite space_match. now rewrite IH. }
  destruct (runs_longest rest) as [l Hl].
  rewrite <- (map_rev _ (runs is_space None rest)). rewrite Hl.
  cbn [map app fst snd]. eexists. reflexivity.
Qed.

Lemma spaces_no_way prev ch rest :
  is_space ch = false -> ways false RE_SPACES prev (ch :: rest) = [].
Proof.
  intros E. unfold RE_SPACES, Regex.plus, s_. cbn [ways runs]. rewrite space_match, E. reflexivity.
Qed.

Lemma squeeze_run sp rest :
  forallb is_space sp = true -> squeeze true (sp ++ rest) = squeeze true rest.
Proof.
  induction sp as [|c sp IH]; [reflexivity|]. cbn [forallb]. intros H.
  apply andb_true_iff in H. destruct H as [Hc Hsp]. cbn [app squeeze]. rewrite Hc. auto.
Qed.

Lemma squeeze_after s :
  match s with ch :: _ => is_space ch = false | [] => True end ->
  squeeze true s = squeeze false s.
Proof. destruct s as [|ch s]; [reflexivity|]. intros H. simpl. now rewrite H. Qed.

(** [replace(/\s+/g, ' ')] squeezes every run of white space into one space. *)
Lemma replace_spaces_squeeze :
  forall rest,
    (forall prev, replace_from false RE_SPACES (js " ") prev rest 0 = squeeze false rest) /\
    (forall prev sp rest2,
        rest = sp ++ rest2 -> forallb is_space sp = true ->
        match rest2 with ch :: _ => is_space ch = false | [] => True end ->
        replace_from false RE_SPACES (js " ") prev rest (List.length sp) = squeeze true rest).
Proof.
  induction rest as [|ch rest [IH0 IHk]].
  - split.
    + intros prev. reflexivity.
    + intros prev sp rest2 E _ _. destruct sp; [reflexivity|discriminate].
  - assert (H0 : forall prev,
               replace_from false RE_SPACES (js " ") prev (ch :: rest) 0 =
               squeeze false (ch :: rest)).
    { intros prev. cbn [replace_from squeeze].
      destruct (is_space ch) eqn:E.
      - destruct (@spaces_first_way prev ch rest E) as [l ->].
        change (js " ") with [32]. cbn [app]. f_equal.
        apply (IHk _ (fst (span_spaces rest)) (snd (span_spaces rest))).
        + apply span_spaces_app.
        + apply span_spaces_run.
        + apply span_spaces_stop.
      - rewrite (@spaces_no_way prev ch rest E). f_equal. apply IH0. }
    split; [exact H0|].
    intros prev sp rest2 E Hsp Hstop.
    destruct sp as [|c sp].
    + cbn [List.length]. rewrite H0. simpl in E. subst rest2.
      symmetry. now apply squeeze_after.
    + cbn [app] in E. inversion E; subst. cbn [forallb] in Hsp.
      apply andb_true_iff in Hsp. destruct Hsp as [Hc Hsp].
      cbn [List.length replace_from squeeze]. rewrite Hc.
      now apply (IHk _ sp rest2).
Qed.

Lemma squeeze_squeezed : forall s b, squeezed b (squeeze b s) = true.
Proof.
  induction s as [|ch s IH]; intros b; [reflexivity|]. cbn [squeeze].
  destruct (is_space ch) eqn:E.
  - destruct b; [apply IH|]. cbn [squeezed].
    replace (is_space 32) with true by reflexivity. rewrite IH. reflexivity.
  - cbn [squeezed]. rewrite E. apply IH.
Qed.

Lemma squeezed_fixed : forall s b, squeezed b s = true -> squeeze b s = s.
Proof.
  induction s as [|ch s IH]; intros b H; [reflexivity|]. cbn [squeeze squeezed] in *.
  destruct (is_space ch) eqn:E.
  - apply andb_true_iff in H. destruct H as [H Hs].
    apply andb_true_iff in H. destruct H as [Hc Hb].
    apply N.eqb_eq in Hc. subst ch. destruct b; [discriminate|]. now rewrite IH.
  - now rewrite IH.
Qed.

Lemma squeezed_weaken s : squeezed true s = true -> squeezed false s = true.
Proof.
  destruct s as [|ch s]; [reflexivity|]. cbn [squeezed].
  destruct (is_space ch); [|auto]. cbn [negb]. rewrite andb_false_r. discriminate.
Qed.

Lemma squeezed_suffix : forall u b v, squeezed b (u ++ v) = true -> squeezed false v = true.
Proof.
  induction u as [|ch u IH]; intros b v H.
  - destruct b; [now apply squeezed_weaken|exact H].
  - cbn [app squeezed] in H. destruct (is_space ch).
    + apply andb_true_iff in H. destruct H as [_ H]. eapply IH; eauto.
    + eapply IH; eauto.
Qed.

Lemma squeezed_prefix : forall u b v, squeezed b (u ++ v) = true -> squeezed b u = true.
Proof.
  induction u as [|ch u IH]; intros b v H; [reflexivity|].
  cbn [app squeezed] in *. destruct (is_space ch).
  - apply andb_true_iff in H. destruct H as [H1 H2]. rewrite H1. cbn [andb]. eapply IH; eauto.
  - eapply IH; eauto.
Qed.

Lemma trimEnd_prefix s : exists post, s = trimEnd s ++ post.
Proof.
  unfold trimEnd. destruct (trimStart_suffix (rev s)) as [pre H].
  exists (rev pre). rewrite <- rev_app_distr, <- H. symmetry. apply rev_involutive.
Qed.

Lemma trim_squeezed s : squeezed false s = true -> squeezed false (trim s) = true.
Proof.
  intros H. unfold trim.
  destruct (trimStart_suffix s) as [pre Hpre].
  destruct (trimEnd_prefix (trimStart s)) as [post Hpost].
  rewrite Hpre in H. apply squeezed_suffix in H. rewrite Hpost in H.
  now apply squeezed_prefix in H.
Qed.

Lemma trimStart_clean s : clean_head (trimStart s).
Proof.
  induction s as [|ch s IH]; [exact I|]. cbn [trimStart].
  destruct (is_space ch) eqn:E; [exact IH|exact E].
Qed.

Lemma clean_trimStart s : clean_head s -> trimStart s = s.
Proof. destruct s as [|ch s]; [reflexivity|]. simpl. now intros ->. Qed.

(** [trim] is idempotent. *)
Lemma trim_trim s : trim (trim s) = trim s.
Proof.
  unfold trim. set (w := trimStart s).
  assert (Hw : clean_head w) by apply trimStart_clean.
  assert (Hv : clean_head (trimEnd w)).
  { destruct (trimEnd_prefix w) as [post Hpost].
    destruct (trimEnd w) as [|c v]; [exact I|].
    rewrite Hpost in Hw. exact Hw. }
  rewrite (clean_trimStart _ Hv). unfold trimEnd at 1.
  unfold trimEnd. rewrite rev_involutive.
  now rewrite (clean_trimStart _ (trimStart_clean (rev w))).
Qed.

Lemma squeeze_Forall (P : N -> Prop) :
  P 32 -> forall s b, Forall P s -> Forall P (squeeze b s).
Proof.
  intros H32. induction s as [|ch s IH]; intros b H; [constructor|].
  inversion H; subst. cbn [squeeze].
  destruct (is_space ch); [destruct b|]; auto.
Qed.

Lemma lower_unit_twice ch : lower_unit (lower_unit ch) = lower_unit ch.
Proof.
  unfold lower_unit. destruct (is_upper_latin ch) eqn:E; [|now rewrite E].
  assert (H : is_upper_latin (ch + 32) = false).
  { unfold is_upper_latin, in_range in *. units_crush. }
  now rewrite H.
Qed.

Lemma normal_form_facts s :
  plain s ->
  plain (normal_form s) /\ map lower_unit (normal_form s) = normal_form s /\
  squeezed false (normal_form s) = true.
Proof.
  intros Hp. unfold normal_form. split; [|split].
  - apply Forall_trim. apply squeeze_Forall; [reflexivity|]. now apply plain_lower.
  - apply map_fixed. apply Forall_trim. apply squeeze_Forall; [reflexivity|].
    apply Forall_map. apply Forall_forall. intros ch _. apply lower_unit_twice.
  - apply trim_squeezed. apply squeeze_squeezed.
Qed.

Lemma normal_form_twice s : plain s -> normal_form (normal_form s) = normal_form s.
Proof.
  intros Hp. destruct (normal_form_facts Hp) as (_ & Hlow & Hsq).
  unfold normal_form at 1. rewrite Hlow, (squeezed_fixed _ _ Hsq).
  unfold normal_form. apply trim_trim.
Qed.

Section Normalization.

Context {R : Runtime}.

Lemma normKeepAccents_normal_form s : plain s -> normKeepAccents s = normal_form s.
Proof.
  intros Hp. unfold normKeepAccents, normal_form.
  rewrite (toLowerCase_plain Hp).
  rewrite normalizeNFKC_plain by (apply plain_forallb; now apply plain_lower).
  unfold replace_all. destruct (replace_spaces_squeeze (map lower_unit s)) as [-> _].
  reflexivity.
Qed.

Lemma normKeepAccents_twice s :
  plain s -> normKeepAccents (normKeepAccents s) = normKeepAccents s.
Proof.
  intros Hp. rewrite (normKeepAccents_normal_form Hp).
  destruct (normal_form_facts Hp) as (Hpl & _).
  rewrite (normKeepAccents_normal_form Hpl). now apply normal_form_twice.
Qed.

Lemma parseFrenchDatePhrase_normalized s :
  plain s -> parseFrenchDatePhrase (normKeepAccents s) = parseFrenchDatePhrase s.
Proof.
  intros Hp.
  assert (Hof : parseFrenchDatePhrase_of (normKeepAccents s) = parseFrenchDatePhrase_of s).
  { unfold parseFrenchDatePhrase_of, cleaned. now rewrite (normKeepAccents_twice Hp). }
  assert (Hnil : forall x, cleaned x = [] -> parseFrenchDatePhrase_of x = Normal None).
  { intros x Hx. unfold parseFrenchDatePhrase_of. rewrite Hx. reflexivity. }
  destruct s as [|ch s'].
  - rewrite (normKeepAccents_normal_form Hp). reflexivity.
  - cbn [parseFrenchDatePhrase]. rewrite <- Hof.
    destruct (normKeepAccents (ch :: s')) as [|c t] eqn:E; [|reflexivity].
    cbn [parseFrenchDatePhrase]. symmetry. apply Hnil. apply cleaned_nil.
Qed.

End Normalization.

(** On plain text [normKeepAccents] computes the normal form: every letter
    in lower case, every run of white space turned into one space U+0020,
    and no white space at either end.  Its result is in lower case, its only
    white space is single spaces, and [trim] leaves it as it is. *)
Theorem normKeepAccents_is_normal_form :
  forall (R : Runtime) (s : str),
    plain s ->
    normKeepAccents s = normal_form s /\
    map lower_unit (normKeepAccents s) = normKeepAccents s /\
    squeezed false (normKeepAccents s) = true /\
    trim (normKeepAccents s) = normKeepAccents s.
Proof.
  intros R s Hp. rewrite (normKeepAccents_normal_form Hp).
  destruct (normal_form_facts Hp) as (_ & Hlow & Hsq).
  repeat split; auto. unfold normal_form. apply trim_trim.
Qed.

Lemma normKeepAccents_is_normal_form_witness :
  let s := js "  Les  ENTRÉES de   GSB 11 " in
  plain s /\ @normKeepAccents latin1 s = js "les entrées de gsb 11" /\
  squeezed false (@normKeepAccents latin1 s) = true.
Proof.
  intros s. assert (Hp : plain s) by plain_text.
  destruct (@normKeepAccents_is_normal_form latin1 s Hp) as (H1 & _ & H3 & _).
  split; [exact Hp|]. split; [reflexivity|exact H3].
Defined.

(** Normalizing plain text twice is normalizing it once, so the extractors
    give the same answer on a text and on its normalization: they do not
    depend on the case of the letters nor on how the white space is laid out. *)
Theorem normalizing_twice :
  forall (R : Runtime) (s : str),
    plain s ->
    normKeepAccents (normKeepAccents s) = normKeepAccents s /\
    extractByAnchors (normKeepAccents s) = extractByAnchors s /\
    detectIntent (normKeepAccents s) = detectIntent s /\
    parseFrenchDatePhrase (normKeepAccents s) = parseFrenchDatePhrase s.
Proof.
  intros R s Hp. pose proof (normKeepAccents_twice Hp) as H.
  split; [exact H|]. split; [|split].
  - unfold extractByAnchors. now rewrite H.
  - unfold detectIntent. now rewrite H.
  - now apply parseFrenchDatePhrase_normalized.
Qed.

Lemma normalizing_twice_witness :
  let s := js "  Les  ENTRÉES de   GSB 11  le 1ER  Mars 2025 " in
  plain s /\
  @extractByAnchors latin1 (@normKeepAccents latin1 s) = @extractByAnchors latin1 s /\
  @extractByAnchors latin1 s =
    Normal (Some {| intent := Some entrees;
                    gaine := Some {| type := js "prefix"; value_ := js "gsb11" |};
                    time := OnDate (js "2025-03-01") |}).
Proof.
  intros s. assert (Hp : plain s) by plain_text.
  destruct (@normalizing_twice latin1 s Hp) as (_ & H2 & _).
  split; [exact Hp|]. split; [exact H2|vm_compute; reflexivity].
Defined.

Import Agent.

(* ===================================================================== *)
(** ** The message handler *)
(* ===================================================================== *)

Local Open Scope N_scope.

Lemma has_spec ids mid : has ids mid = true <-> In mid ids.
Proof.
  unfold has. rewrite existsb_exists. split.
  - intros (x & Hx & E). apply str_eqb_eq in E. now subst.
  - intros H. exists mid. split; [exact H|]. now apply str_eqb_eq.
Qed.

Lemma take_in_grows ids msg ids' :
  take_in ids msg = Some ids' -> exists mid, ids' = mid :: ids /\ id_serialized msg = Some mid.
Proof.
  unfold take_in. destruct (fromMe msg); [discriminate|].
  destruct (id_serialized msg) as [[|c mid]|]; try discriminate.
  destruct (has ids (c :: mid)); [discriminate|]. intros E. inversion E. eauto.
Qed.

Lemma deliveries_keep l : forall ids mid, In mid ids -> In mid (deliveries ids l).
Proof.
  induction l as [|msg l IH]; intros ids mid H; [exact H|].
  cbn [deliveries]. apply IH.
  destruct (take_in ids msg) as [ids'|] eqn:E; [|exact H].
  apply take_in_grows in E. destruct E as (x & -> & _). now right.
Qed.

Lemma take_in_known ids msg mid :
  id_serialized msg = Some mid -> In mid ids -> take_in ids msg = None.
Proof.
  intros Hid Hin. unfold take_in. rewrite Hid.
  destruct (fromMe msg); [reflexivity|]. destruct mid as [|c mid]; [reflexivity|].
  apply has_spec in Hin. now rewrite Hin.
Qed.

(** A message is handled once: after a message that is not the account's
    own has arrived, whatever else arrives, a message with the same
    identifier changes nothing and has no effect.  (The identifier is looked up
    and recorded before the handler first gives the event loop back, so
    this holds however the handlers of several messages interleave.) *)
Theorem no_message_handled_twice :
  forall (R : Runtime) (e : Env) (sv : Services) (ids : list str)
         (l1 l2 : list Message) (m1 m2 : Message) (o : Outside) (mid : str),
    fromMe m1 = false -> id_serialized m1 = Some mid -> id_serialized m2 = Some mid ->
    on_message e sv (deliveries ids (l1 ++ m1 :: l2)) o m2 =
      (deliveries ids (l1 ++ m1 :: l2), []).
Proof.
  intros R e sv ids l1 l2 m1 m2 o mid Hme H1 H2.
  unfold on_message.
  destruct mid as [|c mid].
  { unfold take_in. rewrite H2. destruct (fromMe m2); reflexivity. }
  rewrite (@take_in_known _ m2 (c :: mid)); [reflexivity|exact H2|].
  assert (Hsplit : forall l ids0, deliveries ids0 (l ++ m1 :: l2) =
                                  deliveries (deliveries ids0 l) (m1 :: l2)).
  { induction l as [|x l IH]; intros ids0; [reflexivity|]. cbn [app deliveries]. apply IH. }
  rewrite Hsplit. cbn [deliveries]. apply deliveries_keep.
  unfold take_in. rewrite Hme, H1.
  destruct (has (deliveries ids l1) (c :: mid)) eqn:Hh; [now apply has_spec|now left].
Qed.

Lemma no_message_handled_twice_witness :
  let e := env_of None None in
  @on_message latin1 e a_router [] (an_outside "") a_text_message =
    ([js "false_212600000000@c.us_3A02"],
     [PostText (js "stock gl90") (js "212600000000");
      SendText (js "212600000000@c.us") (js "ok")]) /\
  @on_message latin1 e a_router (deliveries [] ([] ++ a_text_message :: []))
              (an_outside "") a_text_message =
    (deliveries [] ([] ++ a_text_message :: []), []).
Proof.
  intros e. split; [vm_compute; reflexivity|].
  apply (@no_message_handled_twice latin1 e a_router [] [] [] a_text_message a_text_message
           (an_outside "") (js "false_212600000000@c.us_3A02")); reflexivity.
Defined.

Lemma no_answer_in_posts l : filter is_answer (map PostAudio l) = [].
Proof. induction l; simpl; auto. Qed.

Lemma no_speech_in_posts l : filter is_speech (map PostAudio l) = [].
Proof. induction l; simpl; auto. Qed.

Ltac flow_cases :=
  repeat match goal with
         | |- context [match ?x with _ => _ end] =>
           lazymatch x with
           | context [match _ with _ => _ end] => fail
           | _ => destruct x eqn:?
           end
         end.

(** One message gets at most one answer that is delivered.  The handler
    sends at most one message with [sendMessage]; it replies with
    [msg.reply] at most once, and after a [sendMessage] only when that one was
    rejected.  And a sender is not left without an answer: for a message of a
    private chat with some text, or a voice message whose media could be
    downloaded or whose download failed, an answer is sent or tried. *)
Theorem answers_of_a_message :
  forall (R : Runtime) (e : Env) (sv : Services) (o : Outside) (msg : Message),
    let answers := filter is_answer (serve e sv o msg) in
    (List.length answers <= 2)%nat /\
    (sendMessage o = true -> (List.length answers <= 1)%nat) /\
    (forall x y, answers = [x; y] ->
                 (exists t, y = Reply t) /\
                 match x with SendText _ _ | SendVoice _ _ => True | _ => False end) /\
    (getChat o = Normal false ->
     trim (body msg) <> [] \/ (isAudioLike msg = true /\ downloadMedia o <> Normal None) ->
     answers <> []).
Proof.
  intros R e sv o msg answers. subst answers.
  unfold serve, audio_flow, text_flow, synthesizeTTS, saveTemp.
  split; [|split; [|split]].
  - flow_cases; cbn [filter is_answer app List.length];
      rewrite ?filter_app, ?no_answer_in_posts; cbn [filter is_answer app List.length]; lia.
  - intros Hs. rewrite Hs.
    flow_cases; cbn [filter is_answer app List.length];
      rewrite ?filter_app, ?no_answer_in_posts; cbn [filter is_answer app List.length]; lia.
  - intros x y.
    flow_cases; cbn [filter is_answer app];
      rewrite ?filter_app, ?no_answer_in_posts; cbn [filter is_answer app];
      intros E; inversion E; subst; (split; [eexists; reflexivity|exact I]).
  - intros Hchat Hsome. rewrite Hchat.
    destruct (isAudioLike msg) eqn:Ha.
    + destruct (downloadMedia o) as [[data|]|] eqn:Hd.
      * flow_cases; cbn [filter is_answer app];
          rewrite ?filter_app, ?no_answer_in_posts; cbn [filter is_answer app]; discriminate.
      * destruct Hsome as [Ht|[_ Hn]]; [|congruence].
        destruct (trim (body msg)); [congruence|].
        flow_cases; cbn [filter is_answer]; discriminate.
      * cbn [filter is_answer]. discriminate.
    + destruct Hsome as [Ht|[Hx _]]; [|discriminate].
      destruct (trim (body msg)); [congruence|].
      flow_cases; cbn [filter is_answer]; discriminate.
Qed.

(** Audio in, text out: speech is synthesized, and a voice message sent,
    only for a voice message and only when [FORCE_TEXT_ON_AUDIO] is set to
    something other than "true" and [ENABLE_TTS] is set to "true" exactly.
    With either variable left unset no speech is ever produced. *)
Theorem speech_only_when_configured :
  forall (R : Runtime) (e : Env) (sv : Services) (o : Outside) (msg : Message) (x : Effect),
    In x (serve e sv o msg) -> is_speech x = true ->
    isAudioLike msg = true /\
    ENABLE_TTS e = Some (js "true") /\
    exists v, FORCE_TEXT_ON_AUDIO e = Some v /\ v <> js "true".
Proof.
  intros R e sv o msg x Hin Hx.
  assert (Hcfg : negb (FORCE_TEXT_ON_AUDIO_BOOL e) && ENABLE_TTS_BOOL e = true ->
                 ENABLE_TTS e = Some (js "true") /\
                 exists v, FORCE_TEXT_ON_AUDIO e = Some v /\ v <> js "true").
  { unfold FORCE_TEXT_ON_AUDIO_BOOL, ENABLE_TTS_BOOL, or_default. intros H.
    apply andb_true_iff in H. destruct H as [Hf Ht]. apply negb_true_iff in Hf.
    split.
    - destruct (ENABLE_TTS e) as [v|]; [|discriminate].
      apply str_eqb_eq in Ht. now subst.
    - destruct (FORCE_TEXT_ON_AUDIO e) as [v|]; [|discriminate].
      exists v. split; [reflexivity|]. intros ->. discriminate. }
  assert (Hnone : forall l, In x l -> filter is_speech l = [] -> False).
  { intros l Hl Hf. assert (Hx' : In x (filter is_speech l)) by (apply filter_In; auto).
    rewrite Hf in Hx'. exact Hx'. }
  unfold serve, audio_flow, text_flow, synthesizeTTS, saveTemp in Hin.
  destruct (isAudioLike msg) eqn:Ha.
  - split; [reflexivity|].
    destruct (negb (FORCE_TEXT_ON_AUDIO_BOOL e) && ENABLE_TTS_BOOL e) eqn:Hc; [now apply Hcfg|].
    exfalso. apply (Hnone _ Hin). clear Hin.
    flow_cases; cbn [filter is_speech app];
      rewrite ?filter_app, ?no_speech_in_posts; reflexivity.
  - exfalso. apply (Hnone _ Hin). clear Hin.
    flow_cases; cbn [filter is_speech app]; reflexivity.
Qed.

(** A voice message answered by voice: both variables are set. *)
Lemma voice_run :
  @serve latin1 (env_of (Some (js "true")) (Some (js "false"))) a_router (an_outside "les sorties")
         a_voice_message =
  [React MICROPHONE; WriteTemp (js "/tmp/wa-1762041600000-k3x9.ogg");
   Convert (js "/tmp/wa-1762041600000-k3x9.ogg") (js "/tmp/wa-1762041600000-k3x9.mp3");
   Transcribe (js "/tmp/wa-1762041600000-k3x9.mp3");
   Synthesize ASK_GAINE; WriteTemp (js "/tmp/wa-1762041601000-q7.mp3");
   SendVoice (js "212600000000@c.us") (js "/tmp/wa-1762041601000-q7.mp3")].
Proof. vm_compute. reflexivity. Qed.

Lemma speech_only_when_configured_witness :
  let e := env_of (Some (js "true")) (Some (js "false")) in
  isAudioLike a_voice_message = true /\ ENABLE_TTS e = Some (js "true").
Proof.
  intros e.
  assert (Hin : In (Synthesize ASK_GAINE)
                   (@serve latin1 e a_router (an_outside "les sorties") a_voice_message))
    by (unfold e; rewrite voice_run; simpl; auto 10).
  pose proof (@speech_only_when_configured latin1 e a_router (an_outside "les sorties")
                a_voice_message (Synthesize ASK_GAINE) Hin eq_refl) as (H1 & H2 & _).
  split; [exact H1|exact H2].
Defined.

(** [/\.ogg$/] finds the extension at the very end, and nowhere before. *)
Lemma search_ogg :
  forall stem prev i,
    search false RE_OGG prev (stem ++ js ".ogg") i =
    Some (Found (i + List.length stem) (js ".ogg") []).
Proof.
  induction stem as [|c stem IH]; intros prev i.
  - cbn [app List.length]. rewrite Nat.add_0_r. reflexivity.
  - cbn [app]. rewrite search_next.
    + rewrite IH. cbn [List.length]. now rewrite Nat.add_succ_r.
    + destruct (ways false RE_OGG prev (c :: stem ++ js ".ogg")) as [|[[u r'] c0] l] eqn:E;
        [reflexivity|exfalso].
      assert (Hin : In (u, r', c0) (ways false RE_OGG prev (c :: stem ++ js ".ogg")))
        by (rewrite E; now left).
      pose proof (ways_prefix _ _ _ _ _ _ _ Hin) as Hpre.
      unfold RE_OGG in Hin. cbn [cat] in Hin.
      change (lit "ogg") with (cat [chr 111; chr 103; chr 103]) in Hin.
      cbn [cat] in Hin. unfold chr in Hin. ways_inv.
      apply (f_equal (@List.length N)) in Hpre.
      cbn [List.length app] in Hpre. rewrite length_app in Hpre. simpl in Hpre. lia.
Qed.

Lemma ogg_to_mp3 stem :
  replace_first false RE_OGG (js ".mp3") (stem ++ js ".ogg") = stem ++ js ".mp3".
Proof.
  unfold replace_first, exec. rewrite search_ogg. cbn [index whole Nat.add].
  rewrite firstn_app, firstn_all, Nat.sub_diag. cbn [firstn].
  rewrite app_nil_r. f_equal.
  rewrite skipn_all2; [now rewrite app_nil_r|].
  rewrite length_app. apply Nat.le_refl.
Qed.

(** The file a voice message is converted to.  The media is written to
    "/tmp/wa-<time>-<random>.ogg" and converted to the path with the same stem
    and the extension ".mp3", whatever the random part holds; that second
    path, which differs from the first, is the one transcribed. *)
Theorem converted_file_path :
  forall (R : Runtime) (e : Env) (sv : Services) (o : Outside) (msg : Message)
         (inPath outPath : str),
    In (Convert inPath outPath) (serve e sv o msg) ->
    let stem := js "/tmp/wa-" ++ Z_units (now_ms (ogg_disk o)) ++ js "-"
                   ++ random36 (ogg_disk o) in
    inPath = stem ++ js ".ogg" /\ outPath = stem ++ js ".mp3" /\ inPath <> outPath /\
    In (WriteTemp inPath) (serve e sv o msg) /\
    forall p, In (Transcribe p) (serve e sv o msg) -> p = outPath.
Proof.
  intros R e sv o msg inPath outPath Hin stem.
  assert (Hother : forall l, In (Convert inPath outPath) (map PostAudio l) -> False).
  { intros l H. apply in_map_iff in H. destruct H as (? & ? & _). discriminate. }
  assert (Hother' : forall p l, In (Transcribe p) (map PostAudio l) -> False).
  { intros p l H. apply in_map_iff in H. destruct H as (? & ? & _). discriminate. }
  set (a := (js "/tmp/wa-" ++ Z_units (now_ms (ogg_disk o)) ++ js "-"
                ++ random36 (ogg_disk o) ++ js "." ++ js "ogg")).
  assert (Ha : a = stem ++ js ".ogg") by (unfold a, stem; now rewrite <- !app_assoc).
  assert (Hb : replace_first false RE_OGG (js ".mp3") a = stem ++ js ".mp3")
    by (rewrite Ha; apply ogg_to_mp3).
  assert (Hneq : stem ++ js ".ogg" <> stem ++ js ".mp3")
    by (intros E; apply app_inv_head in E; discriminate).
  revert Hin. unfold serve, audio_flow, text_flow, synthesizeTTS, saveTemp. fold a.
  rewrite ?Hb.
  flow_cases; cbn [In app]; rewrite ?Hb; intros Hin;
    repeat match goal with
           | H : _ \/ _ |- _ => destruct H as [H|H]; try discriminate
           | H : False |- _ => destruct H
           | H : In _ (_ ++ _) |- _ => apply in_app_or in H
           | H : In _ (_ :: _) |- _ => cbn [In] in H
           | H : In _ [] |- _ => destruct H
           | H : In (Convert _ _) (map PostAudio _) |- _ => destruct (Hother _ H)
           end;
    match goal with
    | H : Convert _ _ = Convert _ _ |- _ => inversion H; subst inPath outPath
    end;
    (split; [exact Ha|]); (split; [reflexivity|]); (split; [now rewrite Ha|]);
    (split; [auto|]);
    intros p Hp;
    repeat match goal with
           | H : _ \/ _ |- _ => destruct H as [H|H]; try discriminate
           | H : False |- _ => destruct H
           | H : In _ (_ ++ _) |- _ => apply in_app_or in H
           | H : In _ (_ :: _) |- _ => cbn [In] in H
           | H : In _ [] |- _ => destruct H
           | H : In (Transcribe _) (map PostAudio _) |- _ => destruct (Hother' _ _ H)
           end;
    match goal with
    | H : Transcribe _ = Transcribe _ |- _ => now inversion H
    end.
Qed.

Lemma converted_file_path_witness :
  let effects := @serve latin1 (env_of (Some (js "true")) (Some (js "false"))) a_router
                        (an_outside "les sorties") a_voice_message in
  let inPath := js "/tmp/wa-1762041600000-k3x9.ogg" in
  let outPath := js "/tmp/wa-1762041600000-k3x9.mp3" in
  In (Convert inPath outPath) effects /\ inPath <> outPath /\ In (WriteTemp inPath) effects.
Proof.
  intros effects inPath outPath.
  assert (Hin : In (Convert inPath outPath) effects)
    by (unfold effects; rewrite voice_run; simpl; auto 10).
  destruct (@converted_file_path latin1 _ _ _ _ _ _ Hin) as (_ & _ & H3 & H4 & _).
  split; [exact Hin|]. split; [exact H3|exact H4].
Defined.

(** [s.split(sep)[0]]: what stands before the first separator. *)
Lemma split_head sep s :
  exists rest,
    s = hd [] (split sep s) ++ rest /\
    Forall (fun ch => ch <> sep) (hd [] (split sep s)) /\
    (rest = [] \/ exists r, rest = sep :: r).
Proof.
  induction s as [|c s IH].
  - exists []. simpl. auto.
  - cbn [split]. destruct (N.eqb_spec c sep) as [->|Hne].
    + exists (sep :: s). simpl. eauto.
    + destruct IH as (rest & Hs & Hf & Hr).
      destruct (split sep s) as [|p ps] eqn:E.
      * exists rest. cbn [hd app] in *. split; [now rewrite <- Hs|].
        split; [repeat constructor; auto|exact Hr].
      * exists rest. cbn [hd] in *. split; [cbn [app]; now rewrite <- Hs|].
        split; [constructor; auto|exact Hr].
Qed.

Section Routing.

Context {R : Runtime}.
Variable sv : Services.

Lemma posted_complete text number h p :
  handleAudioSmart sv text number = Normal h -> In p (posted h) ->
  mode p = js "audio_nlp" /\ phone p = number /\
  intent (query p) <> None /\ gaine (query p) <> None.
Proof.
  unfold handleAudioSmart.
  destruct (resolve sv text number) as [q|] eqn:Hq; cbn [bind]; [|discriminate].
  intros E. inversion E; subst h. clear E.
  destruct (resolve_payload sv text number Hq) as [Hm Hph].
  unfold answer.
  destruct (intent (query q)) eqn:Ei; [|intros []].
  destruct (gaine (query q)) eqn:Eg; [|intros []].
  cbn [posted]. intros [<-|[]]. rewrite Ei, Eg. repeat split; auto; discriminate.
Qed.

End Routing.

(** What reaches the router.  A text is posted only as the trimmed body of
    the message, when something is left of it, and never for a voice message
    whose media was downloaded.  A payload is posted only for a voice
    message, with the mode "audio_nlp", an intent and a gaine.  Both carry as
    phone what stands before the first "@" of the sender's address. *)
Theorem what_reaches_the_router :
  forall (R : Runtime) (e : Env) (sv : Services) (o : Outside) (msg : Message) (x : Effect),
    In x (serve e sv o msg) ->
    let number := hd [] (split 64 (from msg)) in
    (exists rest, from msg = number ++ rest /\ Forall (fun ch => ch <> 64) number /\
                  (rest = [] \/ exists r, rest = 64 :: r)) /\
    match x with
    | PostText text number' =>
      text = trim (body msg) /\ text <> [] /\ number' = number /\
      (isAudioLike msg = true -> downloadMedia o = Normal None)
    | PostAudio p =>
      isAudioLike msg = true /\ (exists data, downloadMedia o = Normal (Some data)) /\
      mode p = js "audio_nlp" /\ phone p = number /\
      intent (query p) <> None /\ gaine (query p) <> None
    | _ => True
    end.
Proof.
  intros R e sv o msg x Hin number. split; [apply split_head|].
  destruct x as [em|pa|ip op|tp|payload|text nb|st|to1 t1|to2 p2|rt]; try exact I.
  - (* PostAudio *)
    assert (Hno : forall l, In (PostAudio payload) l -> filter
                   (fun y => match y with PostAudio _ => true | _ => false end) l = [] -> False).
    { intros l Hl Hf.
      assert (Hx : In (PostAudio payload)
                      (filter (fun y => match y with PostAudio _ => true | _ => false end) l))
        by (apply filter_In; auto).
      rewrite Hf in Hx. exact Hx. }
    unfold serve in Hin.
    destruct (getChat o) as [[|]|]; try (exfalso; apply (Hno _ Hin); reflexivity).
    fold number in Hin.
    destruct (isAudioLike msg) eqn:Ha.
    2:{ exfalso. apply (Hno _ Hin). unfold text_flow. flow_cases; reflexivity. }
    destruct (downloadMedia o) as [[data|]|] eqn:Hd.
    2:{ exfalso. apply (Hno _ Hin). unfold text_flow. flow_cases; reflexivity. }
    2:{ exfalso. apply (Hno _ Hin). reflexivity. }
    split; [reflexivity|]. split; [eauto|].
    destruct (saveTemp (ogg_disk o) "ogg") as [inPath|];
      [|exfalso; apply (Hno _ Hin); reflexivity].
    unfold audio_flow in Hin.
    destruct (ffmpeg o); [|exfalso; apply (Hno _ Hin); reflexivity].
    destruct (transcript o) as [|c t] eqn:Ht; [exfalso; apply (Hno _ Hin); reflexivity|].
    destruct (handleAudioSmart sv (c :: t) number) as [h|] eqn:Hh;
      [|exfalso; apply (Hno _ Hin); reflexivity].
    assert (Hp : In payload (posted h)).
    { cbn [negb andb In] in Hin.
      repeat match goal with
             | H : _ \/ _ |- _ => destruct H as [H|H]; try discriminate
             end.
      apply in_app_or in Hin. destruct Hin as [Hin|Hin].
      - apply in_map_iff in Hin. destruct Hin as (p' & E & Hp'). now inversion E; subst.
      - exfalso. apply (Hno _ Hin). unfold synthesizeTTS. flow_cases; reflexivity. }
    apply (@posted_complete R sv (c :: t) number h payload Hh Hp).
  - (* PostText *)
    assert (Hno : forall l, In (PostText text nb) l -> filter
                   (fun y => match y with PostText _ _ => true | _ => false end) l = [] -> False).
    { intros l Hl Hf.
      assert (Hx : In (PostText text nb)
                      (filter (fun y => match y with PostText _ _ => true | _ => false end) l))
        by (apply filter_In; auto).
      rewrite Hf in Hx. exact Hx. }
    assert (Hnop : forall l, filter (fun y => match y with PostText _ _ => true | _ => false end)
                                    (map PostAudio l) = []).
    { induction l; simpl; auto. }
    assert (Htext : In (PostText text nb) (text_flow o (from msg) number (trim (body msg))) ->
                    text = trim (body msg) /\ text <> [] /\ nb = number).
    { unfold text_flow. destruct (trim (body msg)) as [|c t]; [intros []|].
      intros [E|H].
      - inversion E; subst. repeat split; auto. discriminate.
      - exfalso. apply (Hno _ H). flow_cases; reflexivity. }
    unfold serve in Hin.
    destruct (getChat o) as [[|]|]; try (exfalso; apply (Hno _ Hin); reflexivity).
    fold number in Hin.
    destruct (isAudioLike msg) eqn:Ha.
    2:{ destruct (Htext Hin) as (H1 & H2 & H3). repeat split; auto. discriminate. }
    destruct Hin as [Hin|Hin]; [discriminate|].
    destruct (downloadMedia o) as [[data|]|] eqn:Hd.
    2:{ destruct (Htext Hin) as (H1 & H2 & H3). repeat split; auto. }
    2:{ exfalso. apply (Hno _ Hin). reflexivity. }
    exfalso. apply (Hno _ Hin). unfold audio_flow, synthesizeTTS, saveTemp.
    flow_cases; cbn [filter app]; rewrite ?filter_app, ?Hnop; reflexivity.
Qed.

(** A voice message with an intent and a gaine: its payload is posted and
    the router's reply sent as text. *)
Lemma text_run :
  @serve latin1 (env_of None None) a_router (an_outside "les sorties de gsb11 le 01-10-2025")
         a_voice_message =
  [React MICROPHONE; WriteTemp (js "/tmp/wa-1762041600000-k3x9.ogg");
   Convert (js "/tmp/wa-1762041600000-k3x9.ogg") (js "/tmp/wa-1762041600000-k3x9.mp3");
   Transcribe (js "/tmp/wa-1762041600000-k3x9.mp3");
   PostAudio (payload_of (js "212600000000")
                {| intent := Some sorties;
                   gaine := Some {| type := js "prefix"; value_ := js "gsb11" |};
                   time := OnDate (js "2025-10-01") |});
   SendText (js "212600000000@c.us") (js "12 entrées")].
Proof. vm_compute. reflexivity. Qed.

Lemma what_reaches_the_router_witness :
  let p := payload_of (js "212600000000")
             {| intent := Some sorties;
                gaine := Some {| type := js "prefix"; value_ := js "gsb11" |};
                time := OnDate (js "2025-10-01") |} in
  In (PostAudio p)
     (@serve latin1 (env_of None None) a_router
             (an_outside "les sorties de gsb11 le 01-10-2025") a_voice_message) /\
  isAudioLike a_voice_message = true /\ phone p = js "212600000000".
Proof.
  intros p.
  assert (Hin : In (PostAudio p)
                   (@serve latin1 (env_of None None) a_router
                           (an_outside "les sorties de gsb11 le 01-10-2025") a_voice_message))
    by (rewrite text_run; simpl; auto 10).
  destruct (@what_reaches_the_router latin1 _ _ _ _ _ Hin) as (_ & H1 & _ & _ & H4 & _).
  split; [exact Hin|]. split; [exact H1|exact H4].
Defined.

(* ===================================================================== *)
(** ** The resolver: a date, [null], or what a slip lets through *)
(* ===================================================================== *)

Local Open Scope N_scope.

(** The canonical pattern accepts four digits, two digits and two digits
    joined by dashes. *)
Lemma iso_accepts y m d :
  forallb is_digit y = true -> List.length y = 4%nat ->
  forallb is_digit m = true -> List.length m = 2%nat ->
  forallb is_digit d = true -> List.length d = 2%nat ->
  iso_shape (y ++ js "-" ++ m ++ js "-" ++ d) = true.
Proof.
  intros Hy Ly Hm Lm Hd Ld.
  assert (Hin : exists w, In w (ways false RE_ISO None (y ++ 45 :: m ++ 45 :: d ++ []))).
  { eexists. unfold RE_ISO. cbn [cat]. unfold digits, d_.
    change (lit "-") with (Class [ILit 45]).
    eapply in_cat; [apply in_bos|].
    eapply in_cat; [apply in_quant; [now rewrite forallb_digit|lia|lia]|].
    eapply in_cat; [apply in_class; reflexivity|].
    eapply in_cat; [apply in_quant; [now rewrite forallb_digit|lia|lia]|].
    eapply in_cat; [apply in_class; reflexivity|].
    eapply in_cat; [apply in_quant; [now rewrite forallb_digit|lia|lia]|].
    apply in_eos. }
  rewrite app_nil_r in Hin. destruct Hin as [w Hin].
  destruct (@search_here false RE_ISO None _ 0%nat _ Hin) as (u & rest' & c & Hs & _).
  unfold iso_shape, test, exec.
  change (y ++ js "-" ++ m ++ js "-" ++ d) with (y ++ 45 :: m ++ 45 :: d).
  now rewrite Hs.
Qed.

Lemma padded_two d :
  forallb is_digit d = true -> (1 <= List.length d <= 2)%nat ->
  forallb is_digit (padStart0 2 d) = true /\ List.length (padStart0 2 d) = 2%nat.
Proof.
  intros Hd Ld. unfold padStart0.
  destruct d as [|a [|b [|c d]]]; simpl in Ld; try lia; cbn [List.length Nat.sub repeat app].
  - cbn [forallb] in *. rewrite Hd. auto.
  - auto.
Qed.

Lemma month_two mo :
  (1 <= mo <= 12)%Z ->
  forallb is_digit (pad2 (Int mo)) = true /\ List.length (pad2 (Int mo)) = 2%nat.
Proof.
  intros H.
  assert (E : (mo = 1 \/ mo = 2 \/ mo = 3 \/ mo = 4 \/ mo = 5 \/ mo = 6 \/ mo = 7 \/ mo = 8 \/
               mo = 9 \/ mo = 10 \/ mo = 11 \/ mo = 12)%Z) by lia.
  repeat (destruct E as [->|E]; [split; reflexivity|]). subst. split; reflexivity.
Qed.

Lemma day_two d :
  day_word d ->
  forallb is_digit (day_of d) = true /\ List.length (day_of d) = 2%nat.
Proof.
  intros [->|[->|[Hd Ld]]]; [split; reflexivity|split; reflexivity|].
  unfold day_of.
  destruct (str_eqb d (js "1er") || str_eqb d (js "premier")); [split; reflexivity|].
  now apply padded_two.
Qed.

(** The names of [FR_MONTHS] are month words. *)
Lemma own_month_word k mo : own k FR_MONTHS = Some mo -> month_word k = true.
Proof.
  unfold own, FR_MONTHS.
  repeat match goal with
         | |- context [if str_eqb ?a k then _ else _] =>
           let E := fresh "E" in
           destruct (str_eqb a k) eqn:E;
             [apply str_eqb_eq in E; subst k; intros _; reflexivity|]
         end.
  discriminate.
Qed.

Section Shapes.

Context {R : Runtime}.

Lemma numeric_token_shaped d m y sep :
  forallb is_digit d = true -> (1 <= List.length d <= 2)%nat ->
  forallb is_digit m = true -> (1 <= List.length m <= 2)%nat ->
  forallb is_digit y = true ->
  List.length y = 2%nat \/ (List.length y = 4%nat /\ hd 0 y <> 48) ->
  sep = 47 \/ sep = 45 ->
  exists r, parseFrenchDatePhrase (d ++ sep :: m ++ sep :: y) = Normal (Some r) /\
            iso_shape r = true.
Proof.
  intros Hd Ld Hm Lm Hy Ly Hsep.
  destruct (padded_two _ Hd Ld) as [Hpd Lpd].
  destruct (padded_two _ Hm Lm) as [Hpm Lpm].
  assert (Htest : test false RE_DMY (d ++ sep :: m ++ sep :: y) = true).
  { apply dmy_accepts; auto. destruct Ly as [->|[-> _]]; lia. }
  rewrite (numeric_token_resolves _ Htest), (numeric_parts _ _ _ Hd Hm Hy Hsep).
  unfold ymd. rewrite (pad2_parseInt _ Hd Ld), (pad2_parseInt _ Hm Lm).
  eexists. split; [reflexivity|].
  destruct Ly as [Ly|[Ly Hz]].
  - destruct (year_of_two _ Hy Ly) as [-> ->].
    apply iso_accepts; auto;
      change (js "20" ++ y) with (50 :: 48 :: y); cbn [List.length forallb];
      rewrite ?Hy, ?Ly; reflexivity.
  - destruct (year_of_four _ Hy Ly Hz) as [-> ->].
    apply iso_accepts; auto.
Qed.

Lemma textual_shaped fr d k mo y :
  cleaned fr = d ++ 32 :: k ++ 32 :: y ->
  day_word d -> own k FR_MONTHS = Some mo ->
  forallb is_digit y = true -> List.length y = 4%nat -> hd 0 y <> 48 ->
  exists r, parseFrenchDatePhrase fr = Normal (Some r) /\ iso_shape r = true.
Proof.
  intros Hc Hd Hk Hy Ly Hz.
  rewrite (@textual_resolves R fr d k y Hc Hd (own_month_word _ Hk) Hy Ly).
  unfold FR_MONTHS_at. rewrite Hk.
  pose proof (own_months _ Hk) as Hmo.
  assert (Ht : truthy (Int mo) = true).
  { unfold truthy. destruct (Z.eqb_spec mo 0); [lia|reflexivity]. }
  rewrite Ht. eexists. split; [reflexivity|].
  destruct (year_of_four _ Hy Ly Hz) as [_ ->].
  destruct (month_two Hmo) as [Hm Lm]. destruct (day_two Hd) as [Hdd Ldd].
  now apply iso_accepts.
Qed.

End Shapes.

(** C4. [parseFrenchDatePhrase] is total and never throws, and it returns
    [null] when none of its three forms matches the cleaned phrase.  On the
    forms as the comments of the code name them it returns a string of the
    shape [YYYY-MM-DD]: a canonical date as it is; "D/M/Y" or "D-M-Y" with one
    kind of separator and a year of two digits, or of four not starting with
    0; "D month Y" with a name of [FR_MONTHS].  But the numeric pattern also
    lets through two separators that differ and a year of three digits, and
    the month lookup finds "constructor" on [Object.prototype]: there the
    resolver returns "undefined-02-01", "345-02-01" and a string with the
    source text of a function in it, neither [null] nor a date. *)
Theorem resolver_total_date_shape_slips :
  forall R : Runtime,
    (forall fr, exists r, parseFrenchDatePhrase fr = Normal r) /\
    (forall fr,
        test false RE_ISO (cleaned fr) = false -> test false RE_DMY (cleaned fr) = false ->
        exec true RE_TEXTUAL (cleaned fr) = None -> parseFrenchDatePhrase fr = Normal None) /\
    (forall fr, iso_shape fr = true -> parseFrenchDatePhrase fr = Normal (Some fr)) /\
    (forall d m y sep,
        forallb is_digit d = true -> (1 <= List.length d <= 2)%nat ->
        forallb is_digit m = true -> (1 <= List.length m <= 2)%nat ->
        forallb is_digit y = true ->
        List.length y = 2%nat \/ (List.length y = 4%nat /\ hd 0 y <> 48) ->
        sep = 47 \/ sep = 45 ->
        null_or_date (d ++ sep :: m ++ sep :: y)) /\
    (forall fr d k mo y,
        cleaned fr = d ++ js " " ++ k ++ js " " ++ y ->
        day_word d -> own k FR_MONTHS = Some mo ->
        forallb is_digit y = true -> List.length y = 4%nat -> hd 0 y <> 48 ->
        null_or_date fr) /\
    parseFrenchDatePhrase (js "1/2-2025") = Normal (Some (js "undefined-02-01")) /\
    ~ null_or_date (js "1/2-2025") /\
    parseFrenchDatePhrase (js "1/2/345") = Normal (Some (js "345-02-01")) /\
    ~ null_or_date (js "1/2/345") /\
    parseFrenchDatePhrase (js "2 constructor 2025") =
      Normal (Some (js "2025-function Object() { [native code] }-02")) /\
    ~ null_or_date (js "2 constructor 2025").
Proof.
  intros R.
  assert (Hno : forall fr r, parseFrenchDatePhrase fr = Normal (Some r) ->
                             iso_shape r = false -> ~ null_or_date fr).
  { intros fr r E Hs [H|(r' & H & Hs')]; rewrite E in H; [discriminate|].
    inversion H; subst. congruence. }
  assert (H1 : parseFrenchDatePhrase (js "1/2-2025") = Normal (Some (js "undefined-02-01")))
    by (rewrite (@parseFrenchDatePhrase_plain R) by plain_text; vm_compute; reflexivity).
  assert (H2 : parseFrenchDatePhrase (js "1/2/345") = Normal (Some (js "345-02-01")))
    by (rewrite (@parseFrenchDatePhrase_plain R) by plain_text; vm_compute; reflexivity).
  assert (H3 : parseFrenchDatePhrase (js "2 constructor 2025") =
               Normal (Some (js "2025-function Object() { [native code] }-02")))
    by (rewrite (@parseFrenchDatePhrase_plain R) by plain_text; vm_compute; reflexivity).
  split; [apply parseFrenchDatePhrase_returns|].
  split.
  { intros fr E1 E2 E3. destruct fr as [|ch fr']; [reflexivity|].
    unfold parseFrenchDatePhrase, parseFrenchDatePhrase_of. now rewrite E1, E2, E3. }
  split; [apply resolver_canonical|].
  split.
  { intros d m y sep Hd Ld Hm Lm Hy Ly Hsep. right.
    now apply numeric_token_shaped. }
  split.
  { intros fr d k mo y Hc Hd Hk Hy Ly Hz. right.
    now apply (@textual_shaped R fr d k mo y). }
  split; [exact H1|]. split; [apply (Hno _ _ H1); vm_compute; reflexivity|].
  split; [exact H2|]. split; [apply (Hno _ _ H2); vm_compute; reflexivity|].
  split; [exact H3|]. apply (Hno _ _ H3). vm_compute. reflexivity.
Qed.
